(** * MKW Mogi Tracker: session engine, track canonicalisation and import

    A shallow embedding of [mogi/models.py], [mogi/api.py] and the two
    management commands [import_mogi_json] and [recanonicalize_tracks].

    - Python [str] values are sequences of Unicode code points ([list N]).
      Whitespace is Python's [str.isspace].  Case mapping ([str.lower]) and
      the NFKD step of Django's [slugify] are modelled on the code points
      where they are elementary: [A-Z] are the cased letters, and NFKD is
      the identity (as it is on every code point without a decomposition,
      ASCII included).
    - Python [int] values are [Z].
    - The three Django tables are finite maps from primary key to row; the
      uniqueness and range constraints of the schema are checked by the
      operations that write a row, which fail ([None]) where the database
      raises [IntegrityError].  Validators ([MinValueValidator], ...) are
      not run by [save], and are not part of the model; neither are field
      lengths.
    - [transaction.atomic()] is modelled by returning the database the
      block started from when an exception leaves the block.
    - Requests run one after the other; a request takes the time [now] at
      which it runs.  Decoded JSON is typed: a field that the code reads
      as an integer is an integer or absent. *)

From Stdlib Require Import ZArith NArith Ascii String List.
From stdpp Require Import base option list gmap fin_maps sorting.

Open Scope Z_scope.

(** ** Python strings *)

Module Py.

Abbreviation pystr := (list N).

(** A string literal of the source, as code points. *)
Definition str (s : string) : pystr :=
  N_of_ascii <$> list_ascii_of_string s.

(** [str.isspace] on one code point. *)
Definition isspace (c : N) : bool :=
  ((9 <=? c) && (c <=? 13) || (28 <=? c) && (c <=? 32)
   || (c =? 133) || (c =? 160) || (c =? 5760)
   || (8192 <=? c) && (c <=? 8202) || (c =? 8232) || (c =? 8233)
   || (c =? 8239) || (c =? 8287) || (c =? 12288))%N.

Definition lower_char (c : N) : N :=
  if ((65 <=? c) && (c <=? 90))%N then (c + 32)%N else c.

(** [s.lower()] *)
Definition lower (s : pystr) : pystr := lower_char <$> s.

(** [s.replace(old, new)] for one-character [old] and [new]. *)
Definition replace_char (old new : N) (s : pystr) : pystr :=
  (λ c, if (c =? old)%N then new else c) <$> s.

(** [s.lstrip(...)], [s.rstrip(...)], [s.strip(...)]: [p] tells which
    characters are stripped. *)
Fixpoint lstrip_by (p : N → bool) (s : pystr) : pystr :=
  match s with
  | [] => []
  | c :: s' => if p c then lstrip_by p s' else s
  end.

Fixpoint rstrip_by (p : N → bool) (s : pystr) : pystr :=
  match s with
  | [] => []
  | c :: s' =>
      match rstrip_by p s' with
      | [] => if p c then [] else [c]
      | r => c :: r
      end
  end.

Definition strip_by (p : N → bool) (s : pystr) : pystr :=
  rstrip_by p (lstrip_by p s).

(** [s.strip()] *)
Definition strip (s : pystr) : pystr := strip_by isspace s.

(** The maximal runs of characters outside the class [p], in order; [cur]
    is the run being read. *)
Fixpoint fields_from (p : N → bool) (cur : pystr) (s : pystr) : list pystr :=
  match s with
  | [] => match cur with [] => [] | _ => [cur] end
  | c :: s' =>
      if p c
      then match cur with
           | [] => fields_from p [] s'
           | _ => cur :: fields_from p [] s'
           end
      else fields_from p (cur ++ [c]) s'
  end.

(** [s.split()]: the maximal runs of non-whitespace characters. *)
Definition split (s : pystr) : list pystr := fields_from isspace [] s.

(** [sep.join(ws)] for a one-character [sep]. *)
Fixpoint join (sep : N) (ws : list pystr) : pystr :=
  match ws with
  | [] => []
  | [w] => w
  | w :: ws' => w ++ sep :: join sep ws'
  end.

(** A run of characters outside the class [p]: not empty, none in [p]. *)
Definition is_field (p : N → bool) (w : pystr) : Prop :=
  w ≠ [] ∧ Forall (λ c, p c = false) w.

End Py.

Import Py.

(** ** Canonicalisation ([mogi/models.py]) *)

(** U+2019, the curly apostrophe. *)
Definition curly : N := 8217%N.

Definition CANON_ENTRIES : list (pystr * pystr) :=
  [ (str "bowser castle", str "bowser's castle");
    (str "bowsers castle", str "bowser's castle");
    (str "bowser" ++ curly :: str "s castle", str "bowser's castle");
    (str "bowser castle 1", str "bowser's castle");
    (str "bowser castle 2", str "bowser's castle");
    (str "bowser castle 3", str "bowser's castle");
    (str "bowser castle 4", str "bowser's castle");
    (str "bowser's castle 1", str "bowser's castle");
    (str "bowser's castle 2", str "bowser's castle");
    (str "bowser's castle 3", str "bowser's castle");
    (str "bowser's castle 4", str "bowser's castle");
    (str "bc", str "bowser's castle") ].

Definition CANON_MAP : gmap pystr pystr := list_to_map CANON_ENTRIES.

(** [" ".join(raw.strip().lower().replace("’", "'").split())] *)
Definition normalize (raw : pystr) : pystr :=
  join 32%N (split (replace_char curly 39%N (lower (strip raw)))).

Definition canonicalize_track (raw : pystr) : pystr :=
  match raw with
  | [] => []
  | _ => let name := normalize raw in default name (CANON_MAP !! name)
  end.

(** A character that [lower] and [replace("’", "'")] leave alone. *)
Definition settled (c : N) : Prop := lower_char c = c ∧ c ≠ curly.

(** ** Slugs ([django.utils.text.slugify], called by [slug_for_track]) *)

Module Re.

(** [re.sub(r"[C]", repl, s)] for a character class [C]. *)
Definition sub_class (cls : N → bool) (repl : pystr) (s : pystr) : pystr :=
  s ≫= (λ c, if cls c then repl else [c]).

(** [re.sub(r"[C]+", repl, s)]: every maximal run of characters of the
    class is replaced by one [repl].  [in_run] tells that the previous
    character belonged to a run already replaced. *)
Fixpoint sub_runs (cls : N → bool) (repl : pystr) (in_run : bool)
    (s : pystr) : pystr :=
  match s with
  | [] => []
  | c :: s' =>
      if cls c
      then (if in_run then [] else repl) ++ sub_runs cls repl true s'
      else c :: sub_runs cls repl false s'
  end.

Definition sub_class_plus (cls : N → bool) (repl s : pystr) : pystr :=
  sub_runs cls repl false s.

Definition is_digit (c : N) : bool := ((48 <=? c) && (c <=? 57))%N.
Definition is_lower_letter (c : N) : bool := ((97 <=? c) && (c <=? 122))%N.
Definition is_upper_letter (c : N) : bool := ((65 <=? c) && (c <=? 90))%N.
Definition is_alnum (c : N) : bool :=
  is_digit c || is_lower_letter c || is_upper_letter c.

(** [\w] and [\s] on ASCII text. *)
Definition word (c : N) : bool := is_alnum c || (c =? 95)%N.
Definition space (c : N) : bool := isspace c.

End Re.

Definition hyphen : N := 45%N.
Definition underscore : N := 95%N.

(** [unicodedata.normalize("NFKD", value).encode("ascii", "ignore")] *)
Definition to_ascii (value : pystr) : pystr :=
  filter (λ c, (c < 128)%N) value.

(** The class [[^\w\s-]]. *)
Definition not_word_space_hyphen (c : N) : bool :=
  negb (Re.word c || Re.space c || (c =? hyphen)%N).

(** The class [[-\s]]. *)
Definition hyphen_or_space (c : N) : bool :=
  (c =? hyphen)%N || Re.space c.

(** The characters of ["-_"]. *)
Definition hyphen_or_underscore (c : N) : bool :=
  (c =? hyphen)%N || (c =? underscore)%N.

Definition slugify (value : pystr) : pystr :=
  let value := to_ascii value in
  let value := Re.sub_class not_word_space_hyphen [] (lower value) in
  strip_by hyphen_or_underscore (Re.sub_class_plus hyphen_or_space [hyphen] value).

Definition slug_for_track (canon_name : pystr) : pystr := slugify canon_name.





(** ** Default points ([mogi/models.py]) *)

Definition DEFAULT_POINTS : gmap Z Z :=
  list_to_map [ (1, 15); (2, 12); (3, 10); (4, 9); (5, 8); (6, 7);
                (7, 6); (8, 5); (9, 4); (10, 3); (11, 2); (12, 1) ].

(** ** The tables ([mogi/models.py]) *)

Record Track := { track_name : pystr; track_slug : pystr }.

Record Mogi := {
  mogi_owner : Z;
  mogi_created_at : Z;
  mogi_finalized : bool;
  mogi_note : pystr;
  mogi_played_at : Z }.

Record Race := {
  race_mogi : Z;
  race_track : Z;
  race_index : Z;
  race_position : Z;
  race_points : Z }.

(** The database: each table maps primary keys to rows. *)
Record db := {
  tracks : gmap Z Track;
  mogis : gmap Z Mogi;
  races : gmap Z Race }.

Definition empty_db : db := {| tracks := ∅; mogis := ∅; races := ∅ |}.

Definition with_tracks (d : db) (ts : gmap Z Track) : db :=
  {| tracks := ts; mogis := mogis d; races := races d |}.
Definition with_mogis (d : db) (ms : gmap Z Mogi) : db :=
  {| tracks := tracks d; mogis := ms; races := races d |}.
Definition with_races (d : db) (rs : gmap Z Race) : db :=
  {| tracks := tracks d; mogis := mogis d; races := rs |}.

(** The primary key given to a new row: one more than the greatest key of
    the table. *)
Definition next_pk {A} (m : gmap Z A) : Z :=
  1 + map_fold (λ k _ acc, Z.max k acc) 0 m.

(** *** Track *)

(** The fields [Track.save] writes. *)
Definition Track_save (t : Track) : Track :=
  let canon := canonicalize_track (track_name t) in
  {| track_name := canon; track_slug := slug_for_track canon |}.

(** [unique=True] on [name] and on [slug]: no row other than [pk] has the
    name or the slug of [t]. *)
Definition track_unique (ts : gmap Z Track) (pk : Z) (t : Track) : Prop :=
  map_Forall (λ j t', j = pk ∨
    (track_name t' ≠ track_name t ∧ track_slug t' ≠ track_slug t)) ts.

(** [Track(...).save()] of a new row; [None] is [IntegrityError]. *)
Definition Track_insert (d : db) (t : Track) : option (db * Z) :=
  let t := Track_save t in
  let pk := next_pk (tracks d) in
  if decide (track_unique (tracks d) pk t)
  then Some (with_tracks d (<[pk := t]> (tracks d)), pk)
  else None.

(** [tr.save(update_fields=["name", "slug"])] of the row [pk]; [None] is
    [IntegrityError], or [DatabaseError] when the row is gone. *)
Definition Track_update (d : db) (pk : Z) (t : Track) : option db :=
  let t := Track_save t in
  match tracks d !! pk with
  | None => None
  | Some _ =>
      if decide (track_unique (tracks d) pk t)
      then Some (with_tracks d (<[pk := t]> (tracks d)))
      else None
  end.

Definition tracks_named (d : db) (name : pystr) : list (Z * Track) :=
  filter (λ kt, track_name kt.2 = name) (map_to_list (tracks d)).

(** [Track.objects.get_or_create(name=name, defaults={"slug": slug})]:
    the key of the row.  [None] is [MultipleObjectsReturned], or the
    [IntegrityError] of the insert raised again after the second [get]
    finds nothing. *)
Definition Track_get_or_create (d : db) (name slug : pystr) : option (db * Z) :=
  match tracks_named d name with
  | [] => Track_insert d {| track_name := name; track_slug := slug |}
  | [kt] => Some (d, kt.1)
  | _ => None
  end.

(** *** Mogi *)

(** [Mogi.objects.create(owner=..., finalized=..., note=...)] at time
    [now]. *)
Definition Mogi_create (d : db) (owner : Z) (finalized : bool) (note : pystr)
    (now : Z) : db * Z :=
  let pk := next_pk (mogis d) in
  (with_mogis d (<[pk := {| mogi_owner := owner; mogi_created_at := now;
                            mogi_finalized := finalized; mogi_note := note;
                            mogi_played_at := now |}]> (mogis d)), pk).

(** [mogi.races.all()] *)
Definition races_of (d : db) (mogi : Z) : list (Z * Race) :=
  filter (λ kr, race_mogi kr.2 = mogi) (map_to_list (races d)).

Definition race_count (d : db) (mogi : Z) : Z :=
  Z.of_nat (length (races_of d mogi)).

Definition is_complete (d : db) (mogi : Z) : bool :=
  bool_decide (race_count d mogi = 12).

Definition total_points (d : db) (mogi : Z) : Z :=
  foldr (λ kr acc, race_points kr.2 + acc) 0 (races_of d mogi).

(** *** Race *)

(** The fields [Race.save] writes: [if not self.points: ...]. *)
Definition Race_save (r : Race) : Race :=
  if decide (race_points r = 0)
  then {| race_mogi := race_mogi r; race_track := race_track r;
          race_index := race_index r; race_position := race_position r;
          race_points := default 0 (DEFAULT_POINTS !! race_position r) |}
  else r.

(** What the database checks on a new race: the two
    [PositiveIntegerField]s are not negative, and
    [unique_race_index_per_mogi]. *)
Definition race_constraints (rs : gmap Z Race) (r : Race) : Prop :=
  0 ≤ race_index r ∧ 0 ≤ race_position r ∧
  map_Forall (λ _ r',
    ¬ (race_mogi r' = race_mogi r ∧ race_index r' = race_index r)) rs.

(** [Race.objects.create(...)]; [None] is [IntegrityError]. *)
Definition Race_create (d : db) (r : Race) : option db :=
  let r := Race_save r in
  if decide (race_constraints (races d) r)
  then Some (with_races d (<[next_pk (races d) := r]> (races d)))
  else None.

(** ** The session engine ([mogi/api.py]) *)

Inductive bad_request :=
  | Invalid_track_position   (* "Invalid track/position" *)
  | Bad_JSON                 (* "Bad JSON" *)
  | Mogi_already_has_12      (* "Mogi already has 12 races" *)
  | Need_12_to_finalize.     (* "Need 12 races to finalize" *)

Inductive response :=
  | JsonOk                              (* {"ok": True} *)
  | JsonOkRace (mogi_id next_index : Z) (* {"ok": True, "mogi_id", "next_index"} *)
  | JsonOkMogi (mogi_id : Z)            (* {"ok": True, "mogi_id"} *)
  | JsonNoRaces                         (* {"ok": False, "error": "No races to undo"} *)
  | HttpResponseBadRequest (why : bad_request)
  | Imported (imported_mogis imported_races : Z)
  | Raised.                             (* an exception left the operation *)


Definition created_before : relation (Z * Mogi) :=
  λ x y, mogi_created_at x.2 ≤ mogi_created_at y.2.

#[global] Instance created_before_dec : RelDecision created_before :=
  λ x y, decide (mogi_created_at x.2 ≤ mogi_created_at y.2).

(** [Mogi.objects.filter(owner=user, finalized=False)] *)
Definition open_mogis (d : db) (user : Z) : list (Z * Mogi) :=
  filter (λ km, mogi_owner km.2 = user ∧ mogi_finalized km.2 = false)
    (map_to_list (mogis d)).

Definition _current_mogi (d : db) (user now : Z) : db * Z :=
  match head (merge_sort created_before (open_mogis d user)) with
  | Some km => (d, km.1)
  | None => Mogi_create d user false [] now
  end.

Definition _get_or_create_track (d : db) (raw_name : pystr) : option (db * Z) :=
  let canon := canonicalize_track raw_name in
  Track_get_or_create d canon (slug_for_track canon).

(** [aggregate(mx=Max("index"))["mx"]] *)
Definition max_index (rs : list (Z * Race)) : option Z :=
  foldr (λ kr acc, Some (match acc with
                         | None => race_index kr.2
                         | Some m => Z.max (race_index kr.2) m
                         end)) None rs.

(** The decoded body of [add_race]: [ar_track] is [payload.get("track")],
    [ar_position] is [int(payload.get("position"))], [None] when [int]
    raises. *)
Record add_race_payload := {
  ar_track : option pystr;
  ar_position : option Z }.

(** [body] is [None] when [json.loads] raises. *)
Definition add_race (d : db) (user now : Z) (body : option add_race_payload)
    : response * db :=
  match body with
  | None => (HttpResponseBadRequest Bad_JSON, d)
  | Some payload =>
      match ar_position payload with
      | None => (HttpResponseBadRequest Bad_JSON, d)
      | Some position =>
          let track_raw := default [] (ar_track payload) in
          if decide (track_raw = [] ∨ position < 1 ∨ position > 12)
          then (HttpResponseBadRequest Invalid_track_position, d)
          else
            let '(d1, mogi) := _current_mogi d user now in
            let next_index := default 0 (max_index (races_of d1 mogi)) + 1 in
            if decide (next_index > 12)
            then (HttpResponseBadRequest Mogi_already_has_12, d1)
            else
              match _get_or_create_track d1 track_raw with
              | None => (Raised, d)
              | Some (d2, track) =>
                  match Race_create d2 {| race_mogi := mogi; race_track := track;
                                          race_index := next_index;
                                          race_position := position;
                                          race_points := 0 |} with
                  | None => (Raised, d)
                  | Some d3 => (JsonOkRace mogi next_index, d3)
                  end
              end
      end
  end.

Definition index_after : relation (Z * Race) :=
  λ x y, race_index y.2 ≤ race_index x.2.

#[global] Instance index_after_dec : RelDecision index_after :=
  λ x y, decide (race_index y.2 ≤ race_index x.2).

Definition undo_last (d : db) (user now : Z) : response * db :=
  let '(d1, mogi) := _current_mogi d user now in
  match head (merge_sort index_after (races_of d1 mogi)) with
  | None => (JsonNoRaces, d1)
  | Some last => (JsonOk, with_races d1 (delete last.1 (races d1)))
  end.

Definition reset_current (d : db) (user now : Z) : response * db :=
  let '(d1, mogi) := _current_mogi d user now in
  (JsonOk, with_races d1 (filter (λ kr, race_mogi kr.2 ≠ mogi) (races d1))).

Definition set_finalized (m : Mogi) : Mogi :=
  {| mogi_owner := mogi_owner m; mogi_created_at := mogi_created_at m;
     mogi_finalized := true; mogi_note := mogi_note m;
     mogi_played_at := mogi_played_at m |}.

Definition finalize_current (d : db) (user now : Z) : response * db :=
  let '(d1, mogi) := _current_mogi d user now in
  if decide (race_count d1 mogi ≠ 12)
  then (HttpResponseBadRequest Need_12_to_finalize, d1)
  else (JsonOkMogi mogi, with_mogis d1 (alter set_finalized mogi (mogis d1))).

(** *** Bulk import over the API ([import_data]) *)

(** The entries of the payload.  A field is [None] when the key is absent
    from the object, so that [t["name"]] raises [KeyError]. *)
Record track_in := { ti_id : option Z; ti_name : option pystr }.
Record mogi_in := {
  mi_id : option Z; mi_finalized : option bool; mi_note : option pystr }.
Record race_in := {
  ri_mogi_id : option Z; ri_track_id : option Z; ri_index : option Z;
  ri_position : option Z; ri_points : option Z }.

(** [payload.get("tracks", [])], [payload.get("mogis", [])],
    [payload.get("races", [])]. *)
Record import_payload := {
  ip_tracks : list track_in;
  ip_mogis : list mogi_in;
  ip_races : list race_in }.

Fixpoint import_tracks (d : db) (id_map_track : gmap Z Z) (ts : list track_in)
    : option (db * gmap Z Z) :=
  match ts with
  | [] => Some (d, id_map_track)
  | t :: ts' =>
      name ← ti_name t;
      let canon := canonicalize_track name in
      r ← Track_get_or_create d canon (slug_for_track canon);
      id ← ti_id t;
      import_tracks r.1 (<[id := r.2]> id_map_track) ts'
  end.

Fixpoint import_mogis (d : db) (user now : Z) (id_map_mogi : gmap Z Z)
    (ms : list mogi_in) : option (db * gmap Z Z) :=
  match ms with
  | [] => Some (d, id_map_mogi)
  | m :: ms' =>
      finalized ← mi_finalized m;
      let r := Mogi_create d user finalized (default [] (mi_note m)) now in
      id ← mi_id m;
      import_mogis r.1 user now (<[id := r.2]> id_map_mogi) ms'
  end.

Fixpoint import_races (d : db) (id_map_mogi id_map_track : gmap Z Z)
    (rs : list race_in) : option db :=
  match rs with
  | [] => Some d
  | r :: rs' =>
      mogi_id ← ri_mogi_id r ≫= (id_map_mogi !!.);
      track_id ← ri_track_id r ≫= (id_map_track !!.);
      index ← ri_index r;
      position ← ri_position r;
      points ← ri_points r;
      d1 ← Race_create d {| race_mogi := mogi_id; race_track := track_id;
                            race_index := index; race_position := position;
                            race_points := points |};
      import_races d1 id_map_mogi id_map_track rs'
  end.

(** The body of [with transaction.atomic()] in [import_data]. *)
Definition import_data_atomic (d : db) (user now : Z) (payload : import_payload)
    : option db :=
  r1 ← import_tracks d ∅ (ip_tracks payload);
  r2 ← import_mogis r1.1 user now ∅ (ip_mogis payload);
  import_races r2.1 r2.2 r1.2 (ip_races payload).

Definition import_data (d : db) (user now : Z) (body : option import_payload)
    : response * db :=
  match body with
  | None => (HttpResponseBadRequest Bad_JSON, d)
  | Some payload =>
      match import_data_atomic d user now payload with
      | Some d' => (JsonOk, d')
      | None => (Raised, d)
      end
  end.

(** ** The import command ([import_mogi_json]) *)

Definition ensure_track_id (d : db) (name : option pystr) : option (db * Z) :=
  let canon := canonicalize_track (default [] name) in
  if decide (canon = []) then None   (* ValueError("Empty track name") *)
  else Track_get_or_create d canon (slug_for_track canon).

(** [x or y] where [x] is an integer or [None]. *)
Definition or_int (x : option Z) (y : Z) : Z :=
  match x with
  | Some v => if decide (v = 0) then y else v
  | None => y
  end.

(** [x or y] where both are integers or [None]. *)
Definition or_opt_int (x y : option Z) : option Z :=
  match x with
  | Some v => if decide (v = 0) then y else x
  | None => y
  end.

(** [x or y] where both are strings or [None]. *)
Definition or_opt_str (x y : option pystr) : option pystr :=
  match x with
  | Some (_ :: _) => x
  | _ => y
  end.

(** A race of a normalized block: the keys ["track"], ["position"],
    ["index"], ["points"] written by the parsers; [None] is Python's
    [None]. *)
Record race_block := {
  rb_track : option pystr;
  rb_position : option Z;
  rb_index : option Z;
  rb_points : option Z }.

Record mogi_block := {
  mb_finalized : bool;
  mb_note : pystr;
  mb_races : list race_block }.

(** A race of a flat history as the parser probes it: one field per key
    it reads, [None] when the key is absent or null, and the grouping
    keys that are present with their values. *)
Record flat_race := {
  fr_track : option pystr;
  fr_track_name : option pystr;
  fr_track_obj_name : option pystr;
  fr_position : option Z;
  fr_finish : option Z;
  fr_place : option Z;
  fr_index : option Z;
  fr_race_number : option Z;
  fr_points : option Z;
  fr_keys : list (string * Z) }.

Definition GROUP_KEYS : list string :=
  [ "mogi_id"; "mogi"; "session_id"; "session"; "set"; "group" ]%string.

(** [r.get(key)] on the grouping keys. *)
Definition fr_get (r : flat_race) (key : string) : option Z :=
  (list_to_map (fr_keys r) : gmap string Z) !! key.

(** The first key of [GROUP_KEYS] that some race has. *)
Definition find_group_key (races : list flat_race) : option string :=
  head (filter (λ key, Exists (λ r, is_Some (fr_get r key)) races) GROUP_KEYS).

(** [grouped[k].append(r)] on a [defaultdict(list)], which keeps the order
    in which its keys were first seen. *)
Fixpoint grouped_append (grouped : list (option Z * list flat_race))
    (k : option Z) (r : flat_race) : list (option Z * list flat_race) :=
  match grouped with
  | [] => [(k, [r])]
  | (k', g) :: rest =>
      if decide (k' = k) then (k', g ++ [r]) :: rest
      else (k', g) :: grouped_append rest k r
  end.

(** [[races[i:i+12] for i in range(0, len(races), 12)]] *)
Definition chunks_of_12 (races : list flat_race) : list (list flat_race) :=
  (λ k, take 12 (drop (12 * k) races)) <$> seq 0 ((length races + 11) / 12)%nat.

(** The loop of [parse_flat_races] over one group; [i] counts from 1. *)
Fixpoint normalize_group (i : Z) (g : list flat_race) : list race_block :=
  match g with
  | [] => []
  | r :: g' =>
      {| rb_track := or_opt_str (fr_track r)
                       (or_opt_str (fr_track_name r) (fr_track_obj_name r));
         rb_position := or_opt_int (fr_position r)
                          (or_opt_int (fr_finish r) (fr_place r));
         rb_index := Some (or_int (or_opt_int (fr_index r) (fr_race_number r)) i);
         rb_points := Some (default 0 (fr_points r)) |}
      :: normalize_group (i + 1) g'
  end.

Definition parse_flat_races (races : list flat_race) : list mogi_block :=
  let groups :=
    match find_group_key races with
    | Some group_key =>
        snd <$> foldl (λ grouped r, grouped_append grouped (fr_get r group_key) r)
                  [] races
    | None => chunks_of_12 races
    end in
  (λ g, let norm := normalize_group 1 g in
        {| mb_finalized := bool_decide (length norm = 12%nat);
           mb_note := []; mb_races := norm |}) <$> groups.

(** The races of one block in [handle]; [i] counts from 1, [n] counts the
    races imported so far.  A race whose track cannot be resolved is
    skipped. *)
Fixpoint handle_races (d : db) (obj : Z) (i : Z) (n : Z) (rs : list race_block)
    : option (db * Z) :=
  match rs with
  | [] => Some (d, n)
  | r :: rs' =>
      match ensure_track_id d (rb_track r) with
      | None => handle_races d obj (i + 1) n rs'
      | Some (d1, track_id) =>
          let idx := or_int (rb_index r) i in
          let pos := or_int (rb_position r) 12 in
          let pts := or_int (rb_points r) 0 in
          d2 ← Race_create d1 {| race_mogi := obj; race_track := track_id;
                                 race_index := idx; race_position := pos;
                                 race_points := pts |};
          handle_races d2 obj (i + 1) (n + 1) rs'
      end
  end.

Fixpoint handle_blocks (d : db) (user now : Z) (imported_mogis imported_races : Z)
    (mogi_blocks : list mogi_block) : option (db * Z * Z) :=
  match mogi_blocks with
  | [] => Some (d, imported_mogis, imported_races)
  | m :: rest =>
      let r := Mogi_create d user (mb_finalized m) (mb_note m) now in
      r2 ← handle_races r.1 r.2 1 imported_races (mb_races m);
      handle_blocks r2.1 user now (imported_mogis + 1) r2.2 rest
  end.

(** [handle] from [# Import] on, for the blocks a parser returned. *)
Definition handle_import (d : db) (user now : Z) (mogi_blocks : list mogi_block)
    : response * db :=
  match handle_blocks d user now 0 0 mogi_blocks with
  | Some (d', imported_mogis, imported_races) =>
      (Imported imported_mogis imported_races, d')
  | None => (Raised, d)
  end.

(** [handle] on a flat list of races (format E). *)
Definition handle_flat (d : db) (user now : Z) (data : list flat_race)
    : response * db :=
  handle_import d user now (parse_flat_races data).

(** ** The maintenance command ([recanonicalize_tracks]) *)

(** [a <= b] on strings, code point by code point. *)
Fixpoint str_leb (a b : pystr) : bool :=
  match a, b with
  | [], _ => true
  | _ :: _, [] => false
  | x :: a', y :: b' => (x <? y)%N || ((x =? y)%N && str_leb a' b')
  end.

Definition name_le : relation (Z * Track) :=
  λ x y, str_leb (track_name x.2) (track_name y.2) = true.

#[global] Instance name_le_dec : RelDecision name_le :=
  λ x y, decide (str_leb (track_name x.2) (track_name y.2) = true).

(** [Track.objects.all()], in the order of [Meta.ordering]. *)
Definition Track_all (d : db) : list (Z * Track) :=
  merge_sort name_le (map_to_list (tracks d)).

(** The loop of [handle]: [rows] are the tracks not yet visited, as they
    were read; [canon_map] gives the key of the track kept for a name. *)
Fixpoint recanonicalize_rows (d : db) (canon_map : gmap pystr Z)
    (rows : list (Z * Track)) : option db :=
  match rows with
  | [] => Some d
  | tr :: rows' =>
      let canon := canonicalize_track (track_name tr.2) in
      match canon_map !! canon with
      | None =>
          d1 ← Track_update d tr.1 {| track_name := canon;
                                      track_slug := slug_for_track canon |};
          recanonicalize_rows d1 (<[canon := tr.1]> canon_map) rows'
      | Some target =>
          let d1 := with_races d
            ((λ r, if decide (race_track r = tr.1)
                   then {| race_mogi := race_mogi r; race_track := target;
                           race_index := race_index r;
                           race_position := race_position r;
                           race_points := race_points r |}
                   else r) <$> races d) in
          recanonicalize_rows (with_tracks d1 (delete tr.1 (tracks d1)))
            canon_map rows'
      end
  end.

(** The command: the database it leaves.  When an exception leaves the
    atomic block nothing is written. *)
Definition recanonicalize_all (d : db) : db :=
  default d (recanonicalize_rows d ∅ (Track_all d)).

(** ** Requests *)

Inductive request :=
  | Add_race (user now : Z) (body : option add_race_payload)
  | Undo_last (user now : Z)
  | Reset_current (user now : Z)
  | Finalize_current (user now : Z)
  | Import_data (user now : Z) (body : option import_payload)
  | Import_command (user now : Z) (mogi_blocks : list mogi_block).

Definition run (q : request) (d : db) : response * db :=
  match q with
  | Add_race user now body => add_race d user now body
  | Undo_last user now => undo_last d user now
  | Reset_current user now => reset_current d user now
  | Finalize_current user now => finalize_current d user now
  | Import_data user now body => import_data d user now body
  | Import_command user now blocks => handle_import d user now blocks
  end.


(** ** Constraints and sample data *)

(** [unique_race_index_per_mogi] as a property of the table. *)
Definition unique_race_index_per_mogi (rs : gmap Z Race) : Prop :=
  map_Forall (λ k1 r1, map_Forall (λ k2 r2,
    race_mogi r1 = race_mogi r2 → race_index r1 = race_index r2 → k1 = k2) rs) rs.

#[global] Instance unique_race_index_per_mogi_dec rs :
  Decision (unique_race_index_per_mogi rs) :=
  decide (map_Forall (λ k1 r1, map_Forall (λ k2 r2,
    race_mogi r1 = race_mogi r2 → race_index r1 = race_index r2 → k1 = k2) rs) rs).

(** The database after user 7 has added twelve races to a fresh session. *)
Definition rainbow_road (position : Z) : option add_race_payload :=
  Some {| ar_track := Some (str "Rainbow Road"); ar_position := Some position |}.

Definition full_db : db :=
  Nat.iter 12 (λ d, (add_race d 7 100 (rainbow_road 1)).2) empty_db.

(** An export whose single open session numbers its twelve races from 0. *)
Definition zero_based_payload : import_payload :=
  {| ip_tracks := [ {| ti_id := Some 1; ti_name := Some (str "Rainbow Road") |} ];
     ip_mogis := [ {| mi_id := Some 1; mi_finalized := Some false;
                      mi_note := None |} ];
     ip_races := (λ i, {| ri_mogi_id := Some 1; ri_track_id := Some 1;
                          ri_index := Some i; ri_position := Some 1;
                          ri_points := Some 15 |}) <$> seqZ 0 12 |}.

Definition zero_based_db : db :=
  (import_data empty_db 7 100 (Some zero_based_payload)).2.

(** A block with one race, on Rainbow Road, finished first, with the
    points given. *)
Definition one_race_block (points : option Z) : mogi_block :=
  {| mb_finalized := false; mb_note := [];
     mb_races := [ {| rb_track := Some (str "Rainbow Road");
                      rb_position := Some 1; rb_index := Some 1;
                      rb_points := points |} ] |}.


(** *** One open session per owner *)

Definition single_open_mogi (d : db) : Prop :=
  ∀ k1 m1 k2 m2, mogis d !! k1 = Some m1 → mogis d !! k2 = Some m2 →
    mogi_owner m1 = mogi_owner m2 →
    mogi_finalized m1 = false → mogi_finalized m2 = false → k1 = k2.

Definition is_import (q : request) : bool :=
  match q with
  | Import_data _ _ _ | Import_command _ _ _ => true
  | _ => false
  end.

(** The databases the session engine reaches without import: from the
    empty one, by resolving the current session of a user and by the four
    requests. *)
Inductive engine_reachable : db → Prop :=
  | reach_empty : engine_reachable empty_db
  | reach_current d user now :
      engine_reachable d → engine_reachable (_current_mogi d user now).1
  | reach_run d q :
      engine_reachable d → is_import q = false → engine_reachable (run q d).2.

(** A flat history of one race. *)
Definition one_flat_race : list flat_race :=
  [ {| fr_track := Some (str "Rainbow Road"); fr_track_name := None;
       fr_track_obj_name := None; fr_position := Some 1; fr_finish := None;
       fr_place := None; fr_index := None; fr_race_number := None;
       fr_points := None; fr_keys := [] |} ].

(** *** Tracks with an empty name *)

(** The empty name goes with the empty slug, as in every row written by
    [Track.save]. *)
Definition empty_name_empty_slug (ts : gmap Z Track) : Prop :=
  map_Forall (λ _ tr, track_name tr = [] → track_slug tr = []) ts.


(** *** Canonical catalogues *)

(** Every track whose key is not in [pending] is as [Track.save] writes it,
    and differs in name and in slug from every other such track. *)
Definition tracks_canonical_except (ts : gmap Z Track) (pending : list Z) : Prop :=
  ∀ k t, ts !! k = Some t → k ∉ pending →
    Track_save t = t
    ∧ ∀ k2 t2, ts !! k2 = Some t2 → k2 ∉ pending → k ≠ k2 →
        track_name t ≠ track_name t2 ∧ track_slug t ≠ track_slug t2.

(** *** Sample catalogues *)

(** Two spellings of Bowser's Castle and one other track; race 1 was run
    on the second spelling. *)
Definition sample_catalogue : db :=
  {| tracks := list_to_map
       [ (1, {| track_name := str "Bowser Castle"; track_slug := str "bowser-castle" |});
         (2, {| track_name := str "bowser castle 2"; track_slug := str "bowser-castle-2" |});
         (3, {| track_name := str "rainbow road"; track_slug := str "rainbow-road" |}) ];
     mogis := ∅;
     races := list_to_map
       [ (1, {| race_mogi := 1; race_track := 2; race_index := 1;
                race_position := 1; race_points := 15 |}) ] |}.

(** The alias ["bc"] next to the canonical name it stands for. *)
Definition clashing_catalogue : db :=
  {| tracks := list_to_map
       [ (1, {| track_name := str "bc"; track_slug := str "bc" |});
         (2, {| track_name := str "bowser's castle";
                track_slug := str "bowsers-castle" |}) ];
     mogis := ∅; races := ∅ |}.

(** ** What the session engine keeps *)

(** Session [mogi] has a race numbered [index]. *)
Definition has_race (d : db) (mogi index : Z) : Prop :=
  ∃ k r, races d !! k = Some r ∧ race_mogi r = mogi ∧ race_index r = index.

(** A race as [add_race] stores it: index and position within 1..12, the
    default points of its position, an existing session and track. *)
Definition race_wf (d : db) (r : Race) : Prop :=
  1 ≤ race_index r ≤ 12 ∧ 1 ≤ race_position r ≤ 12
  ∧ race_points r = default 0 (DEFAULT_POINTS !! race_position r)
  ∧ is_Some (mogis d !! race_mogi r) ∧ is_Some (tracks d !! race_track r).

(** What every database built by the session engine satisfies: the races
    of a session have different numbers, every race is as [add_race]
    stores it, the numbers of a session have no gap below them, a
    finalized session has a race 12, and the tracks are canonical. *)
Record engine_inv (d : db) : Prop := {
  inv_unique : unique_race_index_per_mogi (races d);
  inv_race : map_Forall (λ _ r, race_wf d r) (races d);
  inv_below : ∀ k r i, races d !! k = Some r → 1 ≤ i ≤ race_index r →
                has_race d (race_mogi r) i;
  inv_finalized : ∀ k m, mogis d !! k = Some m → mogi_finalized m = true →
                    has_race d k 12;
  inv_tracks : tracks_canonical_except (tracks d) [] }.

(** The race numbers of a session. *)
Definition indices_of (d : db) (mogi : Z) : list Z :=
  (λ kr, race_index kr.2) <$> races_of d mogi.

(** *** Sample sessions *)

(** Two races of user 7, the second last in place 4. *)
Definition two_race_db : db :=
  (run (Add_race 7 300 (rainbow_road 4))
     (run (Add_race 7 200 (rainbow_road 1)) empty_db).2).2.

(** The twelve races of [full_db], finalized. *)
Definition finalized_db : db := (run (Finalize_current 7 200) full_db).2.


(** ** Import payloads *)

(** A race entry of [import_data] that lacks one of the keys the loop
    reads with [r[...]]. *)
Definition race_in_lacks_key (r : race_in) : Prop :=
  ri_mogi_id r = None ∨ ri_track_id r = None ∨ ri_index r = None
  ∨ ri_position r = None ∨ ri_points r = None.

(** One track, one session and one race that gives no points. *)
Definition no_points_payload : import_payload :=
  {| ip_tracks := [ {| ti_id := Some 1; ti_name := Some (str "Rainbow Road") |} ];
     ip_mogis := [ {| mi_id := Some 1; mi_finalized := Some false;
                      mi_note := None |} ];
     ip_races := [ {| ri_mogi_id := Some 1; ri_track_id := Some 1;
                      ri_index := Some 1; ri_position := Some 3;
                      ri_points := None |} ] |}.

(** A flat history of thirteen races without a grouping key. *)
Definition thirteen_flat_races : list flat_race :=
  replicate 13 {| fr_track := Some (str "Rainbow Road"); fr_track_name := None;
                  fr_track_obj_name := None; fr_position := Some 1;
                  fr_finish := None; fr_place := None; fr_index := None;
                  fr_race_number := None; fr_points := None; fr_keys := [] |}.

(** The default number of a race of a flat history: [r.get("index") or
    r.get("race_number") or i]. *)
Definition flat_index (r : flat_race) (i : Z) : Z :=
  or_int (or_opt_int (fr_index r) (fr_race_number r)) i.

(** ** Pages ([mogi/views.py]) *)

(** [Mogi.objects.filter(owner=user, finalized=True)] *)
Definition finalized_mogis (d : db) (user : Z) : list (Z * Mogi) :=
  filter (λ km, mogi_owner km.2 = user ∧ mogi_finalized km.2 = true)
    (map_to_list (mogis d)).

(** [{mid: i + 1 for i, mid in enumerate(ids)}]; [i] is the number of
    entries already read, [acc] the dictionary built from them. *)
Fixpoint numbering (acc : gmap Z Z) (i : Z) (ids : list Z) : gmap Z Z :=
  match ids with
  | [] => acc
  | mid :: ids' => numbering (<[mid := i + 1]> acc) (i + 1) ids'
  end.

Definition _mogi_numbering_map (d : db) (user : Z) : gmap Z Z :=
  numbering ∅ 0 ((merge_sort created_before (finalized_mogis d user)).*1).

(** The rows of [Race.objects.filter(track=track,
    mogi__owner=request.user)] in [track_detail]; the queries that count
    them do not depend on their order. *)
Definition track_races (d : db) (user track : Z) : list (Z * Race) :=
  filter (λ kr, race_track kr.2 = track
                ∧ mogi_owner <$> mogis d !! race_mogi kr.2 = Some user)
    (map_to_list (races d)).

(** [races.values("position").annotate(count=Count("id"))] read into
    [dist_map]: the number of races at each position that occurs. *)
Definition dist_map (rs : list (Z * Race)) : gmap Z Z :=
  foldr (λ kr m, <[race_position kr.2 :=
                     default 0 (m !! race_position kr.2) + 1]> m) ∅ rs.

(** [[(i, dist_map.get(i, 0)) for i in range(1, 13)]] *)
Definition finish_dist (rs : list (Z * Race)) : list (Z * Z) :=
  (λ i, (i, default 0 (dist_map rs !! i))) <$> seqZ 1 12.

Definition sum_Z (l : list Z) : Z := foldr Z.add 0 l.

(** *** Sample pages *)

(** User 7 finalizes the twelve races of [full_db], plays twelve more and
    finalizes them too. *)
Definition two_finalized_db : db :=
  (run (Finalize_current 7 500)
     (Nat.iter 12 (λ d, (add_race d 7 300 (rainbow_road 2)).2)
        finalized_db)).2.

(** ** Format A of the import command: a file with [tracks], [mogis] and
    [races]

    The file is read as [import_data] reads its payload: a track has the
    keys [id] and [name], a session [id], [finalized] and [note], a race
    [mogi_id], [track_id], [index], [position] and [points], as
    [export_data] writes them. *)

(** [{t["id"]: ensure_track_id(t.get("name", "")) for t in ...}]: the
    database it leaves, and whether it ended without exception.  The loop
    runs outside [transaction.atomic()], so the rows written before an
    exception stay. *)
Fixpoint parse_A_tracks (d : db) (ts : list track_in) : db * bool :=
  match ts with
  | [] => (d, true)
  | t :: ts' =>
      match ti_id t with
      | None => (d, false)
      | Some _ =>
          match ensure_track_id d (ti_name t) with
          | None => (d, false)
          | Some (d1, _) => parse_A_tracks d1 ts'
          end
      end
  end.

(** [{m_in["id"]: i for i, m_in in enumerate(mogis_in)}] *)
Fixpoint parse_A_idx_map (acc : gmap Z nat) (i : nat) (ms : list mogi_in)
    : option (gmap Z nat) :=
  match ms with
  | [] => Some acc
  | m :: ms' => id ← mi_id m; parse_A_idx_map (<[id := i]> acc) (S i) ms'
  end.

(** The entry appended for a race.  Its ["track"] is
    [r.get("track_name") or r.get("track") or r.get("track_slug") or
    r.get("track_id")]: the race has none of the first three keys, so this
    is the integer [track_id] or [None].  [ensure_track_id] raises on
    both ([AttributeError] from [raw.strip()] on an integer other than 0,
    [ValueError] on 0 and on [None]), so the entry holds no track name. *)
Definition parse_A_race (r : race_in) : race_block :=
  {| rb_track := None;
     rb_position := ri_position r;
     rb_index := or_opt_int (ri_index r) None;
     rb_points := Some (default 0 (ri_points r)) |}.

Definition append_race (rb : race_block) (b : mogi_block) : mogi_block :=
  {| mb_finalized := mb_finalized b; mb_note := mb_note b;
     mb_races := mb_races b ++ [rb] |}.

(** The loop over [races_in]: [mogis_out[idx_map[r["mogi_id"]]]["races"]
    .append(...)]. *)
Fixpoint parse_A_races (mogis_out : list mogi_block) (idx_map : gmap Z nat)
    (rs : list race_in) : option (list mogi_block) :=
  match rs with
  | [] => Some mogis_out
  | r :: rs' =>
      mogi_id ← ri_mogi_id r;
      m_idx ← idx_map !! mogi_id;
      parse_A_races (alter (append_race (parse_A_race r)) m_idx mogis_out)
        idx_map rs'
  end.

(** [parse_format_A]: the database it leaves and the blocks it returns,
    [None] when it raises. *)
Definition parse_format_A (d : db) (data : import_payload)
    : db * option (list mogi_block) :=
  let '(d1, ok) := parse_A_tracks d (ip_tracks data) in
  if ok
  then (d1,
        let mogis_out :=
          (λ m, {| mb_finalized := default false (mi_finalized m);
                   mb_note := default [] (mi_note m);
                   mb_races := [] |}) <$> ip_mogis data in
        idx_map ← parse_A_idx_map ∅ 0 (ip_mogis data);
        parse_A_races mogis_out idx_map (ip_races data))
  else (d1, None).


(** [handle] with [--dry-run] on a file of format A: the database it
    leaves.  The blocks are parsed before [dry_run] is looked at. *)
Definition handle_A_dry_run (d : db) (data : import_payload) : db :=
  (parse_format_A d data).1.

(** What [export_data] gives for one race on Rainbow Road, the last of a
    finalized session. *)
Definition one_race_export : import_payload :=
  {| ip_tracks := [ {| ti_id := Some 1; ti_name := Some (str "rainbow road") |} ];
     ip_mogis := [ {| mi_id := Some 1; mi_finalized := Some true;
                      mi_note := Some [] |} ];
     ip_races := [ {| ri_mogi_id := Some 1; ri_track_id := Some 1;
                      ri_index := Some 12; ri_position := Some 3;
                      ri_points := Some 10 |} ] |}.

(** ** The maintenance command ([backfill_played_at]) *)

(** Times are counted in microseconds. *)
Definition minutes (i : Z) : Z := 60000000 * i.
Definition days (n : Z) : Z := 86400000000 * n.

Definition id_le : relation (Z * Mogi) := λ x y, x.1 ≤ y.1.

#[global] Instance id_le_dec : RelDecision id_le := λ x y, decide (x.1 ≤ y.1).

(** [owner__username=opts["username"]] when the option is given;
    [username] is the key of the user with that name. *)
Definition owner_selected (username : option Z) (m : Mogi) : bool :=
  match username with
  | Some u => bool_decide (mogi_owner m = u)
  | None => true
  end.

(** [qs]: [Mogi.objects.all().order_by("id")], filtered by owner when
    [--username] is given. *)
Definition backfill_qs (d : db) (username : option Z) : list (Z * Mogi) :=
  filter (λ km, owner_selected username km.2 = true)
    (merge_sort id_le (map_to_list (mogis d))).

Definition set_played_at (t : Z) (m : Mogi) : Mogi :=
  {| mogi_owner := mogi_owner m; mogi_created_at := mogi_created_at m;
     mogi_finalized := mogi_finalized m; mogi_note := mogi_note m;
     mogi_played_at := t |}.

(** [for i, m in enumerate(rows): m.played_at = base + timedelta(minutes=i)]
    and [Mogi.objects.bulk_update(rows, ["played_at"])], which writes that
    one column of the rows. *)
Fixpoint backfill_rows (ms : gmap Z Mogi) (base : Z) (i : Z)
    (rows : list (Z * Mogi)) : gmap Z Mogi :=
  match rows with
  | [] => ms
  | km :: rows' =>
      backfill_rows (alter (set_played_at (base + minutes i)) km.1 ms)
        base (i + 1) rows'
  end.

(** One round of the loop over the owners. *)
Definition backfill_owner (username : option Z) (now : Z) (d : db)
    (owner_id : Z) : db :=
  let rows := filter (λ km, mogi_owner km.2 = owner_id) (backfill_qs d username) in
  with_mogis d (backfill_rows (mogis d) (now - days 365) 0 rows).

(** [handle]: the database it leaves. *)
Definition backfill_played_at (d : db) (username : option Z) (now : Z) : db :=
  foldl (backfill_owner username now) d
    (remove_dups ((λ km, mogi_owner km.2) <$> backfill_qs d username)).

(** Three sessions entered out of order: the first two of user 7, played
    in the reverse order of their keys, the third of user 8. *)
Definition unordered_db : db :=
  with_mogis empty_db
    (list_to_map
       [ (1, {| mogi_owner := 7; mogi_created_at := 50; mogi_finalized := true;
                mogi_note := []; mogi_played_at := 900 |});
         (2, {| mogi_owner := 7; mogi_created_at := 60; mogi_finalized := false;
                mogi_note := []; mogi_played_at := 100 |});
         (3, {| mogi_owner := 8; mogi_created_at := 70; mogi_finalized := false;
                mogi_note := []; mogi_played_at := 500 |}) ]).

(** ** Flat histories with a grouping key *)

(** The block [parse_flat_races] makes of one group. *)
Definition flat_block (g : list flat_race) : mogi_block :=
  {| mb_finalized := bool_decide (length (normalize_group 1 g) = 12%nat);
     mb_note := []; mb_races := normalize_group 1 g |}.

(** [grouped] after the races [seen]: one entry for each value of the key
    among them, holding the races with that value in the order read. *)
Definition groups_of (key : flat_race → option Z) (seen : list flat_race)
    (grouped : list (option Z * list flat_race)) : Prop :=
  NoDup (grouped.*1)
  ∧ (∀ v g, (v, g) ∈ grouped → g = filter (λ r, key r = v) seen ∧ g ≠ [])
  ∧ (∀ r, r ∈ seen → key r ∈ grouped.*1).

(** A history of thirteen races of session 5 and one race without
    session. *)
Definition keyed_flat_races : list flat_race :=
  replicate 13 {| fr_track := Some (str "Rainbow Road"); fr_track_name := None;
                  fr_track_obj_name := None; fr_position := Some 1;
                  fr_finish := None; fr_place := None; fr_index := None;
                  fr_race_number := None; fr_points := None;
                  fr_keys := [("mogi_id"%string, 5)] |}
  ++ [ {| fr_track := Some (str "Rainbow Road"); fr_track_name := None;
          fr_track_obj_name := None; fr_position := Some 2;
          fr_finish := None; fr_place := None; fr_index := None;
          fr_race_number := None; fr_points := None; fr_keys := [] |} ].

(** ** Export ([export_data]) *)

Definition index_before : relation (Z * Race) :=
  λ x y, race_index x.2 ≤ race_index y.2.

#[global] Instance index_before_dec : RelDecision index_before :=
  λ x y, decide (race_index x.2 ≤ race_index y.2).

(** [Mogi.objects.filter(owner=request.user)], in the order of
    [Meta.ordering]. *)
Definition mogis_of (d : db) (user : Z) : list (Z * Mogi) :=
  merge_sort created_before
    (filter (λ km, mogi_owner km.2 = user) (map_to_list (mogis d))).

(** [Race.objects.filter(mogi__owner=request.user)], in the order of
    [Meta.ordering]. *)
Definition races_of_owner (d : db) (user : Z) : list (Z * Race) :=
  merge_sort index_before
    (filter (λ kr, mogi_owner <$> mogis d !! race_mogi kr.2 = Some user)
       (map_to_list (races d))).

Definition export_track (kt : Z * Track) : track_in :=
  {| ti_id := Some kt.1; ti_name := Some (track_name kt.2) |}.

Definition export_mogi (km : Z * Mogi) : mogi_in :=
  {| mi_id := Some km.1; mi_finalized := Some (mogi_finalized km.2);
     mi_note := Some (mogi_note km.2) |}.

Definition export_race (kr : Z * Race) : race_in :=
  {| ri_mogi_id := Some (race_mogi kr.2);
     ri_track_id := Some (race_track kr.2);
     ri_index := Some (race_index kr.2);
     ri_position := Some (race_position kr.2);
     ri_points := Some (race_points kr.2) |}.

(** The JSON [export_data] answers with, as [import_data] reads it: of
    the keys written, [slug], [created_at] and the [id] of a race are not
    read again. *)
Definition export_data (d : db) (user : Z) : import_payload :=
  {| ip_tracks := export_track <$> Track_all d;
     ip_mogis := export_mogi <$> mogis_of d user;
     ip_races := export_race <$> races_of_owner d user |}.

(** The session [import_data] creates for an exported session. *)
Definition imported_mogi (user now : Z) (m : Mogi) : Mogi :=
  {| mogi_owner := user; mogi_created_at := now;
     mogi_finalized := mogi_finalized m; mogi_note := mogi_note m;
     mogi_played_at := now |}.
(** ** Proof steps *)


(** * Properties *)

(** ** Python strings *)

Section py_strings.

Implicit Types (s w cur : pystr) (ws : list pystr) (p : N → bool) (sep : N).

Lemma lstrip_by_head p c s : p c = false → lstrip_by p (c :: s) = c :: s.
Proof. intros Hc. simpl. by rewrite Hc. Qed.

Lemma rstrip_by_snoc p s c : p c = false → rstrip_by p (s ++ [c]) = s ++ [c].
Proof.
  intros Hc. induction s as [|a s IH]; simpl.
  - by rewrite Hc.
  - rewrite IH. by destruct s.
Qed.

Lemma lstrip_by_no_head p s c : head (lstrip_by p s) = Some c → p c = false.
Proof.
  induction s as [|a s IH]; simpl; [done|].
  destruct (p a) eqn:Ha; [done|]. simpl. by intros [= <-].
Qed.

Lemma rstrip_by_no_last p s c : last (rstrip_by p s) = Some c → p c = false.
Proof.
  induction s as [|a s IH]; simpl; [done|].
  destruct (rstrip_by p s) as [|b r] eqn:Hr.
  - destruct (p a) eqn:Ha; [done|]. simpl. by intros [= <-].
  - rewrite last_cons. destruct (last (b :: r)) eqn:Hl; [by intros [= <-]; auto|].
    by apply last_None in Hl.
Qed.

Lemma fields_from_app p cur w s :
  Forall (λ c, p c = false) w →
  fields_from p cur (w ++ s) = fields_from p (cur ++ w) s.
Proof.
  intros Hw. revert cur. induction Hw as [|c w Hc _ IH]; intros cur; simpl.
  - by rewrite app_nil_r.
  - rewrite Hc, IH. by rewrite <- app_assoc.
Qed.

Lemma fields_from_sep p cur c s :
  p c = true → cur ≠ [] →
  fields_from p cur (c :: s) = cur :: fields_from p [] s.
Proof. intros Hc Hcur. simpl. rewrite Hc. by destruct cur. Qed.

Lemma fields_from_fields p cur s :
  Forall (λ c, p c = false) cur →
  Forall (is_field p) (fields_from p cur s).
Proof.
  revert cur. induction s as [|c s IH]; intros cur Hcur; simpl.
  - destruct cur; [constructor|]. constructor; [by split|constructor].
  - destruct (p c) eqn:Hc.
    + destruct cur.
      * by apply IH.
      * constructor; [by split|]. by apply IH.
    + apply IH. apply Forall_app. split; [done|]. by repeat constructor.
Qed.

Lemma fields_from_chars (P : N → Prop) p cur s :
  Forall P cur → Forall P s → Forall (Forall P) (fields_from p cur s).
Proof.
  revert cur. induction s as [|c s IH]; intros cur Hcur Hs; simpl.
  - destruct cur; [constructor|]. constructor; [done|constructor].
  - apply Forall_cons in Hs as [Hc Hs]. destruct (p c).
    + destruct cur; [by apply IH|]. constructor; [done|]. by apply IH.
    + apply IH; [|done]. apply Forall_app. split; [done|]. by repeat constructor.
Qed.

Lemma join_cons sep w ws :
  ws ≠ [] → join sep (w :: ws) = w ++ sep :: join sep ws.
Proof. by destruct ws. Qed.

Lemma fields_from_join p sep ws :
  p sep = true → Forall (is_field p) ws → fields_from p [] (join sep ws) = ws.
Proof.
  intros Hsep. induction 1 as [|w ws [Hne Hw] Hws IH]; [done|].
  destruct ws as [|w' ws].
  - simpl. rewrite <- (app_nil_r w) at 1. rewrite fields_from_app by done.
    simpl. by destruct w.
  - rewrite join_cons by done. rewrite fields_from_app by done.
    rewrite fields_from_sep by done. by rewrite IH.
Qed.

Lemma join_chars (P : N → Prop) sep ws :
  P sep → Forall (Forall P) ws → Forall P (join sep ws).
Proof.
  intros Hsp. induction 1 as [|w ws Hw Hws IH]; [constructor|].
  destruct ws as [|w' ws]; [done|].
  rewrite join_cons by done. apply Forall_app. split; [done|].
  by constructor.
Qed.

Lemma join_last p sep ws w c :
  Forall (is_field p) ws → last ws = Some w → last w = Some c →
  last (join sep ws) = Some c.
Proof.
  induction 1 as [|w0 ws Hw0 Hws IH]; [done|]. intros Hl Hc.
  destruct ws as [|w' ws].
  - simpl in *. by injection Hl as ->.
  - rewrite join_cons by done. rewrite last_cons in Hl.
    destruct (last (w' :: ws)) eqn:Hl'; [|by apply last_None in Hl'].
    injection Hl as ->. specialize (IH eq_refl Hc).
    rewrite last_app, last_cons, IH. done.
Qed.

(** Fields of a class joined by any separator begin and end outside the
    class: stripping the class leaves them as they are. *)
Lemma strip_by_join p sep ws :
  Forall (is_field p) ws → strip_by p (join sep ws) = join sep ws.
Proof.
  intros Hws. unfold strip_by.
  destruct ws as [|w ws]; [done|].
  pose proof Hws as Hws'. apply Forall_cons in Hws' as [[Hne Hw] _].
  destruct w as [|c w]; [done|]. apply Forall_cons in Hw as [Hc Hw].
  assert (∃ r, join sep ((c :: w) :: ws) = c :: r) as [r Hr].
  { destruct ws; simpl; eauto. }
  rewrite Hr, lstrip_by_head by done. rewrite <- Hr.
  destruct (last ((c :: w) :: ws)) as [wl|] eqn:Hl; [|by apply last_None in Hl].
  assert (is_field p wl) as [Hnel Hwl].
  { eapply Forall_forall; [exact Hws|]. apply last_Some_elem_of. done. }
  destruct (last wl) as [cl|] eqn:Hcl; [|by apply last_None in Hcl].
  pose proof (join_last _ sep _ _ _ Hws Hl Hcl) as Hlast.
  apply last_Some in Hlast as [s0 Hs0]. rewrite Hs0.
  apply rstrip_by_snoc.
  apply (proj1 (Forall_forall _ _) Hwl). by apply last_Some_elem_of.
Qed.

Lemma fmap_fixed (f : N → N) s : Forall (λ c, f c = c) s → f <$> s = s.
Proof. induction 1 as [|c s Hc _ IH]; [done|]. by rewrite fmap_cons, Hc, IH. Qed.

End py_strings.

(** ** Canonicalisation *)

Lemma settled_replace_lower c :
  settled (if (lower_char c =? curly)%N then 39%N else lower_char c).
Proof.
  unfold settled, lower_char, curly.
  destruct ((65 <=? c) && (c <=? 90))%N eqn:Hc.
  - apply andb_true_iff in Hc as [H1%N.leb_le H2%N.leb_le].
    destruct (N.eqb_spec (c + 32) 8217); [lia|].
    split; [|done].
    destruct ((65 <=? c + 32) && (c + 32 <=? 90))%N eqn:Hc'; [|done].
    apply andb_true_iff in Hc' as [H3%N.leb_le H4%N.leb_le]. lia.
  - destruct (N.eqb_spec c 8217) as [->|Hne]; [done|].
    by rewrite Hc.
Qed.

Lemma normalize_words raw :
  ∃ ws, normalize raw = join 32%N ws ∧ Forall (is_field isspace) ws
        ∧ Forall (Forall settled) ws.
Proof.
  eexists. split; [reflexivity|]. split.
  - by apply fields_from_fields.
  - apply fields_from_chars; [constructor|].
    unfold replace_char, lower. rewrite <- list_fmap_compose.
    apply Forall_fmap, Forall_true. intros c. simpl.
    apply settled_replace_lower.
Qed.

Lemma normalize_join ws :
  Forall (is_field isspace) ws → Forall (Forall settled) ws →
  normalize (join 32%N ws) = join 32%N ws.
Proof.
  intros Hws Hst. unfold normalize, strip. rewrite strip_by_join by done.
  assert (Forall settled (join 32%N ws)) as Hall.
  { apply join_chars; [|done]. by split. }
  unfold lower. rewrite fmap_fixed.
  2: { eapply Forall_impl; [exact Hall|]. by intros c [? _]. }
  unfold replace_char. rewrite fmap_fixed.
  2: { eapply Forall_impl; [exact Hall|]. intros c [_ Hc]. simpl.
       by destruct (N.eqb_spec c curly). }
  unfold split. by rewrite fields_from_join.
Qed.

Lemma normalize_idempotent raw : normalize (normalize raw) = normalize raw.
Proof.
  destruct (normalize_words raw) as (ws & -> & Hws & Hst).
  by apply normalize_join.
Qed.

Lemma CANON_ENTRIES_fixed :
  Forall (λ kv, canonicalize_track kv.2 = kv.2) CANON_ENTRIES.
Proof. unfold CANON_ENTRIES. repeat (constructor; [by vm_compute|]). constructor. Qed.

Lemma CANON_MAP_values k v :
  CANON_MAP !! k = Some v → canonicalize_track v = v.
Proof.
  intros Hkv. apply elem_of_list_to_map_2 in Hkv.
  by apply (proj1 (Forall_forall _ _) CANON_ENTRIES_fixed (k, v)).
Qed.

Lemma canonicalize_track_fixed x :
  canonicalize_track (canonicalize_track x) = canonicalize_track x.
Proof.
  destruct x as [|c x]; [done|]. unfold canonicalize_track at 2 3.
  set (name := normalize (c :: x)).
  destruct (CANON_MAP !! name) as [v|] eqn:Hget; simpl.
  - by eapply CANON_MAP_values.
  - assert (normalize name = name) as Hfix by apply normalize_idempotent.
    destruct name as [|n name]; [done|].
    unfold canonicalize_track. by rewrite Hfix, Hget.
Qed.


(** ** The tables *)

Lemma next_pk_above {A} (m : gmap Z A) k x : m !! k = Some x → k < next_pk m.
Proof.
  unfold next_pk. revert k x.
  apply (map_fold_weak_ind
    (λ r (m : gmap Z A), ∀ k x, m !! k = Some x → k < 1 + r)).
  - intros k x. by rewrite lookup_empty.
  - intros i y m' r _ IH k x. rewrite lookup_insert. case_decide.
    + intros _. subst. lia.
    + intros Hk. specialize (IH k x Hk). lia.
Qed.

Lemma next_pk_fresh {A} (m : gmap Z A) : m !! next_pk m = None.
Proof.
  destruct (m !! next_pk m) as [x|] eqn:Hx; [|done].
  apply next_pk_above in Hx. lia.
Qed.

Lemma head_merge_sort_elem {A} (R : relation A) `{!RelDecision R} (l : list A) x :
  head (merge_sort R l) = Some x → x ∈ l.
Proof.
  intros Hx. rewrite <- (merge_sort_Permutation R l).
  destruct (merge_sort R l); [done|]. injection Hx as ->. by left.
Qed.

Lemma head_merge_sort_None {A} (R : relation A) `{!RelDecision R} (l : list A) :
  head (merge_sort R l) = None → l = [].
Proof.
  intros Hx. apply Permutation_nil_r. rewrite <- (merge_sort_Permutation R l).
  by destruct (merge_sort R l).
Qed.

Lemma open_mogis_elem d user k m :
  (k, m) ∈ open_mogis d user ↔
  mogis d !! k = Some m ∧ mogi_owner m = user ∧ mogi_finalized m = false.
Proof.
  unfold open_mogis. rewrite list_elem_of_filter, elem_of_map_to_list. simpl.
  tauto.
Qed.

Lemma races_of_elem d mogi k r :
  (k, r) ∈ races_of d mogi ↔ races d !! k = Some r ∧ race_mogi r = mogi.
Proof.
  unfold races_of. rewrite list_elem_of_filter, elem_of_map_to_list. simpl.
  tauto.
Qed.

(** [_current_mogi] either finds an open session of the user, or the user
    has none and one is created under a fresh key. *)
Lemma _current_mogi_cases d user now d1 mogi :
  _current_mogi d user now = (d1, mogi) →
  (d1 = d ∧ ∃ m, mogis d !! mogi = Some m ∧ mogi_owner m = user
                 ∧ mogi_finalized m = false)
  ∨ (open_mogis d user = [] ∧ mogis d !! mogi = None
     ∧ (d1, mogi) = Mogi_create d user false [] now).
Proof.
  unfold _current_mogi.
  destruct (head (merge_sort created_before (open_mogis d user)))
    as [[k m]|] eqn:Hhead.
  - intros [= <- <-]. left. split; [done|]. exists m.
    apply head_merge_sort_elem in Hhead. by apply open_mogis_elem in Hhead.
  - intros Hc. right. apply head_merge_sort_None in Hhead.
    split; [done|]. split; [|done].
    injection Hc as _ <-. apply next_pk_fresh.
Qed.

Lemma _current_mogi_races d user now :
  races (_current_mogi d user now).1 = races d.
Proof. unfold _current_mogi. by case_match. Qed.

Lemma Track_get_or_create_races d name slug d' pk :
  Track_get_or_create d name slug = Some (d', pk) → races d' = races d.
Proof.
  unfold Track_get_or_create, Track_insert. intros H.
  repeat case_match; simplify_eq; done.
Qed.

Lemma Track_get_or_create_mogis d name slug d' pk :
  Track_get_or_create d name slug = Some (d', pk) → mogis d' = mogis d.
Proof.
  unfold Track_get_or_create, Track_insert. intros H.
  repeat case_match; simplify_eq; done.
Qed.

Lemma Race_create_Some d r d' :
  Race_create d r = Some d' →
  d' = with_races d (<[next_pk (races d) := Race_save r]> (races d))
  ∧ race_constraints (races d) (Race_save r).
Proof. unfold Race_create. case_decide; [|done]. by intros [= <-]. Qed.

Lemma DEFAULT_POINTS_table p :
  1 ≤ p ≤ 12 →
  (p, default 0 (DEFAULT_POINTS !! p)) ∈
    [ (1, 15); (2, 12); (3, 10); (4, 9); (5, 8); (6, 7);
      (7, 6); (8, 5); (9, 4); (10, 3); (11, 2); (12, 1) ].
Proof.
  intros Hp.
  assert (p = 1 ∨ p = 2 ∨ p = 3 ∨ p = 4 ∨ p = 5 ∨ p = 6 ∨ p = 7 ∨ p = 8
          ∨ p = 9 ∨ p = 10 ∨ p = 11 ∨ p = 12) as Hcases by lia.
  clear Hp.
  repeat (destruct Hcases as [->|Hcases]; [vm_compute default; set_solver|]).
  subst. vm_compute default. set_solver.
Qed.

(** ** Default points *)

(** C4.  A race added with position [p] in 1..12 and no explicit points is
    stored with the points of the fixed table: 15, 12, 10, 9, 8, 7, 6, 5, 4,
    3, 2, 1. *)
Theorem add_race_default_points d user now track position mogi idx d' :
  1 ≤ position ≤ 12 →
  add_race d user now (Some {| ar_track := track; ar_position := Some position |})
    = (JsonOkRace mogi idx, d') →
  ∃ pk r, races d !! pk = None ∧ races d' = <[pk := r]> (races d)
    ∧ race_mogi r = mogi ∧ race_index r = idx ∧ race_position r = position
    ∧ (position, race_points r) ∈
        [ (1, 15); (2, 12); (3, 10); (4, 9); (5, 8); (6, 7);
          (7, 6); (8, 5); (9, 4); (10, 3); (11, 2); (12, 1) ].
Proof.
  intros Hp. unfold add_race. simpl. case_decide; [done|].
  destruct (_current_mogi d user now) as [d1 m] eqn:Hcur.
  case_decide; [done|].
  destruct (_get_or_create_track d1 (default [] track)) as [[d2 trk]|] eqn:Htrk;
    [|done].
  destruct (Race_create d2 _) as [d3|] eqn:Hrace; [|done].
  intros [= <- <- <-].
  apply Race_create_Some in Hrace as [-> _].
  apply Track_get_or_create_races in Htrk.
  pose proof (_current_mogi_races d user now) as Hr1. rewrite Hcur in Hr1.
  simpl in *. rewrite Htrk, Hr1.
  eexists _, _. split; [apply next_pk_fresh|]. split; [done|].
  unfold Race_save. simpl. repeat split; try done.
  by apply DEFAULT_POINTS_table.
Qed.

Lemma add_race_default_points_witness :
  ∃ pk r, races empty_db !! pk = None
    ∧ races (add_race empty_db 7 100
               (Some {| ar_track := Some (str "Rainbow Road");
                        ar_position := Some 1 |})).2
      = <[pk := r]> (races empty_db)
    ∧ race_mogi r = 1 ∧ race_index r = 1 ∧ race_position r = 1
    ∧ (1, race_points r) ∈
        [ (1, 15); (2, 12); (3, 10); (4, 9); (5, 8); (6, 7);
          (7, 6); (8, 5); (9, 4); (10, 3); (11, 2); (12, 1) ].
Proof.
  apply (add_race_default_points empty_db 7 100 (Some (str "Rainbow Road")) 1 1 1).
  - lia.
  - vm_compute. reflexivity.
Defined.

(** ** Finalizing *)

Lemma _current_mogi_lookup d user now d1 mogi :
  _current_mogi d user now = (d1, mogi) →
  ∃ m, mogis d1 !! mogi = Some m ∧ mogi_owner m = user
       ∧ mogi_finalized m = false.
Proof.
  intros Hcur. apply _current_mogi_cases in Hcur as [[-> Hm]|(_ & _ & Hc)];
    [done|].
  injection Hc as -> ->. eexists. split; [apply lookup_insert_eq|done].
Qed.

(** C5.  [finalize_current] answers "Need 12 races to finalize" when the
    current session has 0 to 11 races; with 12 races it succeeds and the
    session is stored finalized. *)
Theorem finalize_current_spec d user now d1 mogi :
  _current_mogi d user now = (d1, mogi) →
  (0 ≤ race_count d1 mogi ≤ 11 →
     finalize_current d user now
       = (HttpResponseBadRequest Need_12_to_finalize, d1))
  ∧ (race_count d1 mogi = 12 →
     ∃ d' m, finalize_current d user now = (JsonOkMogi mogi, d')
       ∧ mogis d' !! mogi = Some m ∧ mogi_finalized m = true).
Proof.
  intros Hcur. unfold finalize_current. rewrite Hcur. split; intros Hn.
  - case_decide; [done|lia].
  - case_decide; [done|].
    destruct (_current_mogi_lookup _ _ _ _ _ Hcur) as (m & Hm & _).
    eexists _, (set_finalized m). split; [done|]. simpl.
    rewrite lookup_alter_eq, Hm. done.
Qed.

Lemma finalize_current_spec_witness :
  finalize_current empty_db 7 100
    = (HttpResponseBadRequest Need_12_to_finalize, (_current_mogi empty_db 7 100).1)
  ∧ ∃ d' m, finalize_current full_db 7 100 = (JsonOkMogi 1, d')
      ∧ mogis d' !! 1 = Some m ∧ mogi_finalized m = true.
Proof.
  split.
  - apply (finalize_current_spec empty_db 7 100 _ 1); [by vm_compute|].
    by vm_compute.
  - apply (finalize_current_spec full_db 7 100 full_db 1); by vm_compute.
Defined.

(** ** Capacity *)

Lemma max_index_ge rs k r :
  (k, r) ∈ rs → ∃ mx, max_index rs = Some mx ∧ race_index r ≤ mx.
Proof.
  induction rs as [|[k' r'] rs IH]; [by intros ?%elem_of_nil|].
  intros [[= <- <-]|Hin]%elem_of_cons; simpl.
  - destruct (max_index rs); eexists; (split; [done|lia]).
  - destruct (IH Hin) as (mx & -> & Hle). eexists. split; [done|lia].
Qed.

(** Twelve distinct indices from 1 on reach 12. *)
Lemma twelve_indices_reach_12 (l : list Z) :
  NoDup l → Forall (λ i, 1 ≤ i) l → length l = 12%nat → ∃ i, i ∈ l ∧ 12 ≤ i.
Proof.
  intros Hnd Hpos Hlen.
  destruct (decide (Exists (λ i, 12 ≤ i) l)) as [Hex|Hnex].
  - apply Exists_exists in Hex. done.
  - exfalso. apply not_Exists_Forall in Hnex; [|intros i; apply _].
    assert (l ⊆+ seqZ 1 11) as Hsub.
    { apply NoDup_submseteq; [done|]. intros i Hi. apply elem_of_seqZ.
      rewrite Forall_forall in Hpos, Hnex. specialize (Hpos i Hi).
      specialize (Hnex i Hi). simpl in Hnex. lia. }
    apply submseteq_length in Hsub. rewrite length_seqZ in Hsub. lia.
Qed.

Lemma races_of_NoDup d mogi : NoDup (races_of d mogi).
Proof. apply NoDup_filter, NoDup_map_to_list. Qed.

Lemma full_session_max_index d mogi :
  race_count d mogi = 12 →
  unique_race_index_per_mogi (races d) →
  map_Forall (λ _ r, race_mogi r = mogi → 1 ≤ race_index r) (races d) →
  ∃ mx, max_index (races_of d mogi) = Some mx ∧ 12 ≤ mx.
Proof.
  intros Hcount Huniq Hpos. unfold race_count in Hcount.
  destruct (twelve_indices_reach_12 ((λ kr, race_index kr.2) <$> races_of d mogi))
    as (i & Hi & Hge).
  - apply NoDup_fmap_2_strong; [|apply races_of_NoDup].
    intros [k1 r1] [k2 r2] [H1 Hm1]%races_of_elem [H2 Hm2]%races_of_elem Hidx.
    simpl in Hidx.
    assert (k1 = k2) as -> by (eapply (Huniq k1 r1 H1 k2 r2 H2); congruence).
    congruence.
  - apply Forall_fmap, Forall_forall. intros [k r] [Hr Hm]%races_of_elem.
    simpl. by eapply Hpos.
  - rewrite length_fmap. lia.
  - apply list_elem_of_fmap in Hi as ([k r] & -> & Hin).
    destruct (max_index_ge _ _ _ Hin) as (mx & Hmx & Hle).
    exists mx. split; [done|]. simpl in Hge. lia.
Qed.




(** ** Points of imported races *)

Lemma Race_create_races d r d' :
  Race_create d r = Some d' →
  races d' = <[next_pk (races d) := Race_save r]> (races d).
Proof. by intros [-> _]%Race_create_Some. Qed.

Lemma Race_create_mogis d r d' : Race_create d r = Some d' → mogis d' = mogis d.
Proof. by intros [-> _]%Race_create_Some. Qed.

Lemma Race_create_mono d r d' pk row :
  Race_create d r = Some d' → races d !! pk = Some row →
  races d' !! pk = Some row.
Proof.
  intros Hc Hrow. rewrite (Race_create_races _ _ _ Hc).
  rewrite lookup_insert_ne; [done|]. intros <-.
  by rewrite next_pk_fresh in Hrow.
Qed.

Lemma ensure_track_id_races d name d' pk :
  ensure_track_id d name = Some (d', pk) → races d' = races d.
Proof.
  unfold ensure_track_id. case_decide; [done|].
  apply Track_get_or_create_races.
Qed.













(** ** Slugs *)

Section slugs.

Implicit Types (s : pystr) (p : N → bool).




Lemma rstrip_by_head_inv p s c :
  head (rstrip_by p s) = Some c → head s = Some c.
Proof.
  destruct s as [|a s]; simpl; [done|].
  destruct (rstrip_by p s); [|done]. by destruct (p a).
Qed.

Lemma strip_by_ends p s c :
  head (strip_by p s) = Some c ∨ last (strip_by p s) = Some c → p c = false.
Proof.
  unfold strip_by. intros [Hh|Hl].
  - apply rstrip_by_head_inv in Hh. by eapply lstrip_by_no_head.
  - by eapply rstrip_by_no_last.
Qed.



















End slugs.



(** ** Failing requests *)

Lemma _current_mogi_change d user now d1 mogi :
  _current_mogi d user now = (d1, mogi) →
  d1 = d
  ∨ (open_mogis d user = [] ∧ mogis d !! mogi = None
     ∧ d1 = with_mogis d
              (<[mogi := {| mogi_owner := user; mogi_created_at := now;
                            mogi_finalized := false; mogi_note := [];
                            mogi_played_at := now |}]> (mogis d))).
Proof.
  intros Hcur. apply _current_mogi_cases in Hcur as [[-> _]|(Ho & Hn & Hc)];
    [by left|].
  right. injection Hc as -> ->. done.
Qed.




(** ** One open session per owner *)

Lemma open_mogis_nil d user k m :
  open_mogis d user = [] → mogis d !! k = Some m → mogi_owner m = user →
  mogi_finalized m = true.
Proof.
  intros Hnil Hm Ho. destruct (mogi_finalized m) eqn:Hf; [done|].
  assert ((k, m) ∈ open_mogis d user) as Hin by by apply open_mogis_elem.
  rewrite Hnil in Hin. by apply elem_of_nil in Hin.
Qed.

Lemma single_open_mogi_mogis d d' :
  mogis d' = mogis d → single_open_mogi d → single_open_mogi d'.
Proof. unfold single_open_mogi. by intros ->. Qed.

Lemma _current_mogi_single d user now :
  single_open_mogi d → single_open_mogi (_current_mogi d user now).1.
Proof.
  intros Hinv. destruct (_current_mogi d user now) as [d1 mogi] eqn:Hcur.
  apply _current_mogi_change in Hcur as [->|(Hnil & Hfresh & ->)]; [done|].
  intros k1 m1 k2 m2. simpl. rewrite !lookup_insert.
  repeat case_decide; subst.
  - done.
  - intros [= <-] Hm2 Ho _ Hf. simpl in Ho.
    rewrite (open_mogis_nil d user k2 m2 Hnil Hm2 (eq_sym Ho)) in Hf. done.
  - intros Hm1 [= <-] Ho Hf _. simpl in Ho.
    rewrite (open_mogis_nil d user k1 m1 Hnil Hm1 Ho) in Hf. done.
  - apply Hinv.
Qed.

Lemma finalize_single d mogi :
  single_open_mogi d →
  single_open_mogi (with_mogis d (alter set_finalized mogi (mogis d))).
Proof.
  intros Hinv k1 m1 k2 m2 H1 H2 Ho Hf1 Hf2. simpl in *.
  assert (∀ k m, alter set_finalized mogi (mogis d) !! k = Some m →
                 mogi_finalized m = false → mogis d !! k = Some m) as Hback.
  { intros k m. rewrite lookup_alter. case_decide as Hk; [subst k|done].
    destruct (mogis d !! mogi); simpl; [|done]. intros [= <-]. simpl. done. }
  eapply Hinv; eauto.
Qed.

(** The four requests of the engine keep the invariant. *)
Lemma run_single q d :
  is_import q = false → single_open_mogi d → single_open_mogi (run q d).2.
Proof.
  intros Hq Hinv.
  destruct q as [user now body|user now|user now|user now|?|?]; simpl;
    try done.
  - unfold add_race. destruct body as [[track [position|]]|]; simpl; auto.
    case_decide; simpl; auto.
    pose proof (_current_mogi_single d user now Hinv) as H1.
    destruct (_current_mogi d user now) as [d1 mogi] eqn:Hcur.
    case_decide; simpl; auto.
    destruct (_get_or_create_track _ _) as [[d2 trk]|] eqn:Htrk; simpl; auto.
    destruct (Race_create _ _) as [d3|] eqn:Hrace; simpl; auto.
    apply Track_get_or_create_mogis in Htrk. apply Race_create_mogis in Hrace.
    eapply single_open_mogi_mogis; [|exact H1]. simpl. congruence.
  - unfold undo_last.
    pose proof (_current_mogi_single d user now Hinv) as H1.
    destruct (_current_mogi d user now) as [d1 mogi].
    by destruct (head _).
  - unfold reset_current.
    pose proof (_current_mogi_single d user now Hinv) as H1.
    by destruct (_current_mogi d user now) as [d1 mogi].
  - unfold finalize_current.
    pose proof (_current_mogi_single d user now Hinv) as H1.
    destruct (_current_mogi d user now) as [d1 mogi].
    case_decide; simpl; [done|]. by apply finalize_single.
Qed.

Lemma single_open_mogi_length d user :
  single_open_mogi d → (length (open_mogis d user) ≤ 1)%nat.
Proof.
  intros Hinv.
  assert (NoDup (open_mogis d user)) as Hnd
    by apply NoDup_filter, NoDup_map_to_list.
  destruct (open_mogis d user) as [|[k1 m1] [|[k2 m2] l]] eqn:Hopen;
    simpl; [lia|lia|].
  exfalso.
  assert ((k1, m1) ∈ open_mogis d user) as H1 by (rewrite Hopen; set_solver).
  assert ((k2, m2) ∈ open_mogis d user) as H2 by (rewrite Hopen; set_solver).
  apply open_mogis_elem in H1 as (H1 & Ho1 & Hf1).
  apply open_mogis_elem in H2 as (H2 & Ho2 & Hf2).
  assert (k1 = k2) as -> by (eapply Hinv; eauto; congruence).
  assert (m1 = m2) as -> by congruence.
  apply NoDup_cons in Hnd as [Hnotin _]. apply Hnotin. by left.
Qed.

Lemma engine_reachable_single d : engine_reachable d → single_open_mogi d.
Proof.
  induction 1 as [|d user now _ IH|d q _ IH Hq].
  - intros k1 m1 k2 m2. simpl. by rewrite lookup_empty.
  - by apply _current_mogi_single.
  - by apply run_single.
Qed.

(** C2 (amended).  In every database reached from the empty one by
    resolving current sessions, [add_race], [undo_last], [reset_current]
    and [finalize_current], a user has at most one session that is not
    finalized. *)
Theorem engine_single_open_mogi d user :
  engine_reachable d → (length (open_mogis d user) ≤ 1)%nat.
Proof.
  intros Hreach. apply single_open_mogi_length.
  by apply engine_reachable_single.
Qed.

Lemma engine_single_open_mogi_witness :
  (length (open_mogis
     (run (Undo_last 7 300)
        (run (Add_race 7 200 (rainbow_road 1))
           (run (Finalize_current 8 100) empty_db).2).2).2 7) ≤ 1)%nat.
Proof.
  apply engine_single_open_mogi.
  repeat (apply reach_run; [|reflexivity]). apply reach_empty.
Defined.

(** C2, as stated, fails with import: importing a flat history of one
    race twice leaves user 7 with the two open sessions 1 and 2. *)
Lemma import_two_open_mogis_counterexample :
  let d1 := (handle_flat empty_db 7 100 one_flat_race).2 in
  let d2 := (handle_flat d1 7 200 one_flat_race).2 in
  (mogi_owner <$> mogis d2 !! 1, mogi_finalized <$> mogis d2 !! 1)
    = (Some 7, Some false)
  ∧ (mogi_owner <$> mogis d2 !! 2, mogi_finalized <$> mogis d2 !! 2)
    = (Some 7, Some false)
  ∧ length (open_mogis d2 7) = 2%nat.
Proof. by vm_compute. Qed.

(** ** Import of a track without a name *)

Lemma filter_none {A} (P : A → Prop) `{!∀ x, Decision (P x)} (l : list A) :
  Forall (λ x, ¬ P x) l → filter P l = [].
Proof.
  induction 1 as [|x l Hx _ IH]; [done|]. by rewrite filter_cons_False.
Qed.

Lemma Track_insert_Some d t d' pk :
  Track_insert d t = Some (d', pk) →
  pk = next_pk (tracks d)
  ∧ d' = with_tracks d (<[pk := Track_save t]> (tracks d)).
Proof. unfold Track_insert. case_decide; [|done]. by intros [= <- <-]. Qed.

(** The row [get_or_create] returns: one that was there under the name, or
    the new row, written by [Track.save]. *)
Lemma Track_get_or_create_row d name slug d' pk :
  Track_get_or_create d name slug = Some (d', pk) →
  (d' = d ∧ ∃ row, tracks d !! pk = Some row ∧ track_name row = name)
  ∨ (tracks d !! pk = None
     ∧ d' = with_tracks d
              (<[pk := Track_save {| track_name := name; track_slug := slug |}]>
                 (tracks d))).
Proof.
  unfold Track_get_or_create.
  destruct (tracks_named d name) as [|[k row] [|??]] eqn:Hnamed; [| |done].
  - intros [-> ->]%Track_insert_Some. right. split; [apply next_pk_fresh|done].
  - intros [= <- <-]. left. split; [done|]. exists row.
    assert ((k, row) ∈ tracks_named d name) as Hin by (rewrite Hnamed; by left).
    unfold tracks_named in Hin. apply list_elem_of_filter in Hin as [Hn Hin].
    by apply elem_of_map_to_list in Hin.
Qed.

Lemma Track_get_or_create_mono d name slug d' pk k row :
  Track_get_or_create d name slug = Some (d', pk) →
  tracks d !! k = Some row → tracks d' !! k = Some row.
Proof.
  intros [[-> _]|[Hfresh ->]]%Track_get_or_create_row; [done|].
  intros Hrow. simpl. rewrite lookup_insert_ne; [done|]. congruence.
Qed.


Lemma Track_get_or_create_keeps_empty d name slug d' pk :
  empty_name_empty_slug (tracks d) →
  Track_get_or_create d name slug = Some (d', pk) →
  empty_name_empty_slug (tracks d').
Proof.
  intros Hinv [[-> _]|[Hfresh ->]]%Track_get_or_create_row; [done|].
  simpl. apply map_Forall_insert_2; [|done].
  unfold Track_save. simpl. by intros ->.
Qed.


Lemma import_tracks_keeps ts : ∀ d idm d' idm',
  import_tracks d idm ts = Some (d', idm') →
  races d' = races d ∧ mogis d' = mogis d
  ∧ (empty_name_empty_slug (tracks d) → empty_name_empty_slug (tracks d'))
  ∧ (∀ k row, tracks d !! k = Some row → tracks d' !! k = Some row)
  ∧ (∀ id pk, idm !! id = Some pk → Forall (λ t, ti_id t ≠ Some id) ts →
              idm' !! id = Some pk).
Proof.
  induction ts as [|t ts IH]; intros d idm d' idm'; simpl.
  - intros [= <- <-]. by auto.
  - destruct (ti_name t) as [name|]; simpl; [|done].
    destruct (Track_get_or_create _ _ _) as [[d1 pk1]|] eqn:Htrk; simpl; [|done].
    destruct (ti_id t) as [id1|] eqn:Hid1; simpl; [|done].
    intros Hrest. destruct (IH _ _ _ _ Hrest) as (Hr & Hm & Hinv & Hmono & Hid).
    split; [by rewrite Hr, (Track_get_or_create_races _ _ _ _ _ Htrk)|].
    split; [by rewrite Hm, (Track_get_or_create_mogis _ _ _ _ _ Htrk)|].
    split; [|split].
    + intros H0. apply Hinv. by eapply Track_get_or_create_keeps_empty.
    + intros k row Hrow. apply Hmono. by eapply Track_get_or_create_mono.
    + intros id pk Hidm [Hne Hrest']%Forall_cons. apply Hid; [|done].
      rewrite lookup_insert_ne; [done|]. simpl in Hne. congruence.
Qed.

Lemma import_mogis_keeps ms : ∀ d user now idm d' idm',
  import_mogis d user now idm ms = Some (d', idm') →
  races d' = races d ∧ tracks d' = tracks d.
Proof.
  induction ms as [|m ms IH]; intros d user now idm d' idm'; simpl.
  - by intros [= <- <-].
  - destruct (mi_finalized m); simpl; [|done].
    destruct (mi_id m); simpl; [|done].
    intros Hrest. by destruct (IH _ _ _ _ _ _ Hrest) as [-> ->].
Qed.

Lemma import_races_keeps rs : ∀ d idm_m idm_t d',
  import_races d idm_m idm_t rs = Some d' →
  tracks d' = tracks d
  ∧ ∀ k row, races d !! k = Some row → races d' !! k = Some row.
Proof.
  induction rs as [|r rs IH]; intros d idm_m idm_t d'; simpl.
  - by intros [= <-].
  - destruct (ri_mogi_id r ≫= _) as [mogi|]; simpl; [|done].
    destruct (ri_track_id r ≫= _) as [trk|]; simpl; [|done].
    destruct (ri_index r); simpl; [|done].
    destruct (ri_position r); simpl; [|done].
    destruct (ri_points r); simpl; [|done].
    destruct (Race_create d _) as [d1|] eqn:Hrace; simpl; [|done].
    intros Hrest. destruct (IH _ _ _ _ Hrest) as [Ht Hmono].
    split.
    + rewrite Ht. by apply Race_create_Some in Hrace as [-> _].
    + intros k row Hrow. apply Hmono. by eapply Race_create_mono.
Qed.




(** ** Recanonicalisation *)

Lemma with_tracks_same d : with_tracks d (tracks d) = d.
Proof. by destruct d. Qed.

Lemma Track_save_fixed t : Track_save (Track_save t) = Track_save t.
Proof. unfold Track_save. simpl. by rewrite canonicalize_track_fixed. Qed.

Lemma Track_update_Some d pk t d' :
  Track_update d pk t = Some d' →
  d' = with_tracks d (<[pk := Track_save t]> (tracks d))
  ∧ track_unique (tracks d) pk (Track_save t).
Proof.
  unfold Track_update. destruct (tracks d !! pk); [|done].
  case_decide; [|done]. by intros [= <-].
Qed.

Lemma Track_update_same d pk t t0 :
  tracks d !! pk = Some t0 → Track_save t = t0 →
  track_unique (tracks d) pk t0 → Track_update d pk t = Some d.
Proof.
  intros Hpk Hsave Huniq. unfold Track_update. rewrite Hpk.
  case_decide as Hu; [|by rewrite Hsave in Hu].
  rewrite Hsave, insert_id by done. by rewrite with_tracks_same.
Qed.

(** The first run leaves a canonical catalogue. *)
Lemma recanonicalize_rows_canonical rows : ∀ d canon_map d',
  recanonicalize_rows d canon_map rows = Some d' →
  tracks_canonical_except (tracks d) (rows.*1) →
  tracks_canonical_except (tracks d') [].
Proof.
  induction rows as [|[k t0] rows IH]; intros d canon_map d'; simpl.
  - by intros [= <-].
  - destruct (canon_map !! canonicalize_track (track_name t0)) as [target|].
    + intros Hrest Hinv. eapply IH; [exact Hrest|]. simpl.
      intros j t [Hjk Hj]%lookup_delete_Some Hpend.
      destruct (Hinv j t Hj) as [Hsaved Hother].
      { intros [->|?]%elem_of_cons; done. }
      split; [done|]. intros j2 t2 [Hj2k Hj2]%lookup_delete_Some Hpend2 Hne.
      apply (Hother j2 t2 Hj2); [|done]. intros [->|?]%elem_of_cons; done.
    + destruct (Track_update d k _) as [d1|] eqn:Hupd; simpl; [|done].
      apply Track_update_Some in Hupd as [-> Huniq].
      set (t' := Track_save _) in *.
      intros Hrest Hinv. eapply IH; [exact Hrest|]. simpl.
      intros j t Hj Hpend. rewrite lookup_insert in Hj.
      case_decide as Hjk.
      * injection Hj as <-. subst j. split; [apply Track_save_fixed|].
        intros j2 t2 Hj2 _ Hne. rewrite lookup_insert_ne in Hj2 by done.
        destruct (Huniq j2 t2 Hj2) as [->|[? ?]]; [done|]. by split.
      * destruct (Hinv j t Hj) as [Hsaved Hother].
        { intros [->|?]%elem_of_cons; done. }
        split; [done|]. intros j2 t2 Hj2 Hpend2 Hne.
        rewrite lookup_insert in Hj2. case_decide as Hj2k.
        -- injection Hj2 as <-.
           destruct (Huniq j t Hj) as [->|[? ?]]; [done|]. by split.
        -- apply (Hother j2 t2 Hj2); [|done].
           intros [->|?]%elem_of_cons; done.
Qed.

(** A run over a canonical catalogue writes every row as it is. *)
Lemma recanonicalize_rows_fixed rows : ∀ d canon_map,
  tracks_canonical_except (tracks d) [] →
  NoDup (rows.*1) →
  (∀ k t, (k, t) ∈ rows → tracks d !! k = Some t) →
  (∀ c k, canon_map !! c = Some k →
     (k ∉ rows.*1) ∧ ∃ t, tracks d !! k = Some t ∧ track_name t = c) →
  recanonicalize_rows d canon_map rows = Some d.
Proof.
  induction rows as [|[k t] rows IH]; intros d canon_map Hcanon Hnd Hrows Hmap;
    simpl; [done|].
  apply NoDup_cons in Hnd as [Hk Hnd].
  assert (tracks d !! k = Some t) as Hkt by (apply Hrows; by left).
  destruct (Hcanon k t Hkt) as [Hsaved Hother]; [by intros ?%elem_of_nil|].
  assert (canonicalize_track (track_name t) = track_name t) as Hname.
  { by rewrite <- Hsaved at 2. }
  rewrite Hname.
  destruct (canon_map !! track_name t) as [target|] eqn:Htarget.
  - exfalso. destruct (Hmap _ _ Htarget) as [Hpend (t2 & Ht2 & Hn2)].
    assert (k ≠ target) as Hne.
    { intros ->. apply Hpend. simpl. by left. }
    destruct (Hother target t2 Ht2) as [Hnn _]; [by intros ?%elem_of_nil|done|].
    by rewrite Hn2 in Hnn.
  - assert (Track_save {| track_name := track_name t;
                          track_slug := slug_for_track (track_name t) |} = t)
      as Hrow.
    { rewrite <- Hsaved at 3. unfold Track_save. simpl. by rewrite Hname. }
    rewrite (Track_update_same d k _ t Hkt Hrow).
    2: { intros j t2 Hj. destruct (decide (j = k)) as [->|Hjk]; [by left|].
         right. destruct (Hother j t2 Hj) as [? ?];
           [by intros ?%elem_of_nil|done|]. by split. }
    simpl. apply IH; [done|done| |].
    + intros j t2 Hin. apply Hrows. by right.
    + intros c j. rewrite lookup_insert. case_decide as Hc.
      * intros [= <-]. split; [done|]. by exists t.
      * intros Hcj. destruct (Hmap c j Hcj) as [Hpend Ht2].
        split; [|done]. intros Hin. apply Hpend. simpl. by right.
Qed.

Lemma Track_all_Permutation d : Track_all d ≡ₚ map_to_list (tracks d).
Proof. apply merge_sort_Permutation. Qed.

(** C8.  Running the maintenance command a second time changes nothing:
    the database after two runs is the database after one. *)
Theorem recanonicalize_all_idempotent d :
  recanonicalize_all (recanonicalize_all d) = recanonicalize_all d.
Proof.
  unfold recanonicalize_all at 2 3.
  destruct (recanonicalize_rows d ∅ (Track_all d)) as [d1|] eqn:Hrun; simpl.
  - assert (tracks_canonical_except (tracks d1) []) as Hcanon.
    { eapply recanonicalize_rows_canonical; [exact Hrun|].
      intros k t Hkt Hpend. destruct Hpend.
      rewrite Track_all_Permutation. apply list_elem_of_fmap.
      exists (k, t). split; [done|]. by apply elem_of_map_to_list. }
    unfold recanonicalize_all.
    rewrite (recanonicalize_rows_fixed (Track_all d1) d1 ∅); [done|done| | |].
    + rewrite Track_all_Permutation. apply NoDup_fst_map_to_list.
    + intros k t Hin. rewrite Track_all_Permutation in Hin.
      by apply elem_of_map_to_list.
    + intros c k. by rewrite lookup_empty.
  - unfold recanonicalize_all. by rewrite Hrun.
Qed.

(** ** Examples *)

Example canonicalize_track_alias :
  canonicalize_track (str "  Bowser   Castle 1 ") = str "bowser's castle".
Proof. by vm_compute. Qed.

Example canonicalize_track_curly :
  canonicalize_track (str "Bowser" ++ curly :: str "s  CASTLE")
  = str "bowser's castle".
Proof. by vm_compute. Qed.

Example canonicalize_track_unmapped :
  canonicalize_track (str " Rainbow  ROAD") = str "rainbow road".
Proof. by vm_compute. Qed.

Example canonicalize_track_blank : canonicalize_track (str "   ") = [].
Proof. by vm_compute. Qed.

Example slugify_trims :
  slugify (str "__ A  b--c! _d_ -_") = str "a-b-c-_d".
Proof. by vm_compute. Qed.

Example add_race_position_0 :
  add_race empty_db 7 100 (rainbow_road 0)
  = (HttpResponseBadRequest Invalid_track_position, empty_db).
Proof. by vm_compute. Qed.

Example add_race_position_13 :
  add_race empty_db 7 100 (rainbow_road 13)
  = (HttpResponseBadRequest Invalid_track_position, empty_db).
Proof. by vm_compute. Qed.

Example undo_last_no_races : (undo_last empty_db 7 100).1 = JsonNoRaces.
Proof. by vm_compute. Qed.

Example full_db_races : race_count full_db 1 = 12 ∧ total_points full_db 1 = 180.
Proof. by vm_compute. Qed.

(** Fourteen flat races without a grouping key: a finalized block of 12 and
    an open block of 2. *)
Example parse_flat_races_14 :
  (λ b, (mb_finalized b, length (mb_races b)))
    <$> parse_flat_races (one_flat_race ≫= replicate 14)
  = [ (true, 12%nat); (false, 2%nat) ].
Proof. by vm_compute. Qed.

(** The first spelling is renamed, the second is merged into it and its
    race follows. *)
Example recanonicalize_all_merges :
  recanonicalize_all sample_catalogue
  = {| tracks := list_to_map
         [ (1, {| track_name := str "bowser's castle";
                  track_slug := str "bowsers-castle" |});
           (3, {| track_name := str "rainbow road";
                  track_slug := str "rainbow-road" |}) ];
       mogis := ∅;
       races := list_to_map
         [ (1, {| race_mogi := 1; race_track := 1; race_index := 1;
                  race_position := 1; race_points := 15 |}) ] |}.
Proof. by vm_compute. Qed.

(** ["bc"] is visited first and renamed to a name that the second row
    still holds: the save violates the uniqueness of [name], and nothing
    is written. *)
Example recanonicalize_all_raises :
  recanonicalize_rows clashing_catalogue ∅ (Track_all clashing_catalogue) = None
  ∧ recanonicalize_all clashing_catalogue = clashing_catalogue.
Proof. by vm_compute. Qed.

(** * Further properties *)

(** ** The session engine: composition of requests *)

Lemma index_after_trans : Transitive index_after.
Proof. intros x y z. unfold index_after. lia. Qed.

Lemma index_after_total : Total index_after.
Proof. intros x y. unfold index_after. lia. Qed.

Lemma created_before_trans : Transitive created_before.
Proof. intros x y z. unfold created_before. lia. Qed.

Lemma created_before_total : Total created_before.
Proof. intros x y. unfold created_before. lia. Qed.

(** The head of a sorted list is related to every element. *)
Lemma head_merge_sort_least {A} (R : relation A) `{!RelDecision R}
    (l : list A) x y :
  Transitive R → Total R → Reflexive R →
  head (merge_sort R l) = Some x → y ∈ l → R x y.
Proof.
  intros Htrans Htotal Hrefl Hhead Hy.
  pose proof (StronglySorted_merge_sort R l) as Hsorted.
  rewrite <- (merge_sort_Permutation R l) in Hy.
  destruct (merge_sort R l) as [|z l']; [done|]. injection Hhead as ->.
  apply StronglySorted_inv in Hsorted as [_ Hall].
  apply elem_of_cons in Hy as [->|Hy]; [done|].
  by apply (proj1 (Forall_forall _ _) Hall).
Qed.

Lemma index_after_refl : Reflexive index_after.
Proof. intros x. unfold index_after. lia. Qed.

Lemma max_index_elem rs mx :
  max_index rs = Some mx → ∃ k r, (k, r) ∈ rs ∧ race_index r = mx.
Proof.
  revert mx. induction rs as [|[k r] rs IH]; intros mx; simpl; [done|].
  destruct (max_index rs) as [m|] eqn:Hm.
  - intros [= <-]. destruct (IH m eq_refl) as (k' & r' & Hin & Hidx).
    destruct (Z.max_spec (race_index r) m) as [[_ ->]|[_ ->]].
    + exists k', r'. split; [by right|done].
    + exists k, r. split; [by left|done].
  - intros [= <-]. exists k, r. split; [by left|done].
Qed.

(** What a successful [add_race] did. *)
Lemma add_race_ok d user now body mogi idx d' :
  add_race d user now body = (JsonOkRace mogi idx, d') →
  ∃ track position d1 d2 trk,
    body = Some {| ar_track := track; ar_position := Some position |}
    ∧ default [] track ≠ [] ∧ 1 ≤ position ≤ 12
    ∧ _current_mogi d user now = (d1, mogi)
    ∧ idx = default 0 (max_index (races_of d1 mogi)) + 1 ∧ idx ≤ 12
    ∧ _get_or_create_track d1 (default [] track) = Some (d2, trk)
    ∧ Race_create d2 {| race_mogi := mogi; race_track := trk;
                        race_index := idx; race_position := position;
                        race_points := 0 |} = Some d'.
Proof.
  unfold add_race. destruct body as [[track [position|]]|]; simpl; try done.
  case_decide as Hvalid; [done|].
  destruct (_current_mogi d user now) as [d1 m] eqn:Hcur.
  case_decide as Hfull; [done|].
  destruct (_get_or_create_track d1 (default [] track)) as [[d2 trk]|] eqn:Htrk;
    [|done].
  destruct (Race_create d2 _) as [d3|] eqn:Hrace; [|done].
  intros [= <- <- <-]. exists track, position, d1, d2, trk.
  repeat split; try done; try lia.
  intros Hnil. apply Hvalid. by left.
Qed.

(** Resolving the current session again gives the same session, whatever
    was done to tracks and races in between. *)
Lemma _current_mogi_again d user now d1 mogi d' now' :
  _current_mogi d user now = (d1, mogi) → mogis d' = mogis d1 →
  _current_mogi d' user now' = (d', mogi).
Proof.
  intros Hcur Hmogis. unfold _current_mogi.
  assert (open_mogis d' user = open_mogis d1 user) as Hopen
    by (unfold open_mogis; by rewrite Hmogis).
  rewrite Hopen. pose proof Hcur as Hcases.
  apply _current_mogi_change in Hcases as [->|(Hnil & Hfresh & ->)].
  - unfold _current_mogi in Hcur.
    destruct (head (merge_sort created_before (open_mogis d user))) as [km|];
      [by injection Hcur as <-|].
    injection Hcur as Hd _. exfalso. apply (f_equal mogis) in Hd.
    simpl in Hd.
    pose proof (lookup_insert_eq (mogis d) (next_pk (mogis d))
      {| mogi_owner := user; mogi_created_at := now; mogi_finalized := false;
         mogi_note := []; mogi_played_at := now |}) as Hf.
    rewrite Hd in Hf. by rewrite next_pk_fresh in Hf.
  - set (new := {| mogi_owner := user; mogi_created_at := now;
                   mogi_finalized := false; mogi_note := [];
                   mogi_played_at := now |}).
    assert (open_mogis (with_mogis d (<[mogi := new]> (mogis d))) user
            = [(mogi, new)]) as ->.
    { apply Permutation_singleton_r. unfold open_mogis. simpl.
      rewrite map_to_list_insert by done. rewrite filter_cons_True by done.
      unfold open_mogis in Hnil. by rewrite Hnil. }
    done.
Qed.

(** X1.  [undo_last] after a successful [add_race] removes the race that
    was added: it answers ok, and the race table is the one before the
    [add_race]. *)
Theorem undo_last_add_race d user now body mogi idx d' now' :
  add_race d user now body = (JsonOkRace mogi idx, d') →
  (undo_last d' user now').1 = JsonOk
  ∧ races (undo_last d' user now').2 = races d
  ∧ mogis (undo_last d' user now').2 = mogis d'
  ∧ tracks (undo_last d' user now').2 = tracks d'.
Proof.
  intros Hadd.
  destruct (add_race_ok _ _ _ _ _ _ _ Hadd)
    as (track & position & d1 & d2 & trk & _ & _ & _ & Hcur & Hidx & _ & Htrk
        & Hrace).
  pose proof (Track_get_or_create_mogis _ _ _ _ _ Htrk) as Hm2.
  pose proof (Track_get_or_create_races _ _ _ _ _ Htrk) as Hr2.
  pose proof (Race_create_mogis _ _ _ Hrace) as Hm3.
  pose proof (Race_create_races _ _ _ Hrace) as Hr3.
  pose proof (_current_mogi_races d user now) as Hr1. rewrite Hcur in Hr1.
  simpl in Hr1.
  unfold undo_last.
  rewrite (_current_mogi_again _ _ _ _ _ d' now' Hcur) by congruence.
  set (pk := next_pk (races d2)) in *.
  set (new := Race_save _) in *.
  assert (race_mogi new = mogi ∧ race_index new = idx) as [Hnm Hni].
  { unfold new, Race_save. by case_decide. }
  assert ((pk, new) ∈ races_of d' mogi) as Hin.
  { apply races_of_elem. split; [|done]. rewrite Hr3. apply lookup_insert_eq. }
  destruct (head (merge_sort index_after (races_of d' mogi))) as [[k r]|]
    eqn:Hhead.
  2: { apply head_merge_sort_None in Hhead. rewrite Hhead in Hin.
       by apply elem_of_nil in Hin. }
  assert (k = pk) as ->.
  { pose proof (head_merge_sort_least _ _ _ _ index_after_trans
                  index_after_total index_after_refl Hhead Hin) as Hle.
    unfold index_after in Hle. simpl in Hle.
    apply head_merge_sort_elem in Hhead.
    apply races_of_elem in Hhead as [Hk Hkm]. rewrite Hr3 in Hk.
    rewrite lookup_insert in Hk. case_decide as Hpk; [done|]. exfalso.
    assert ((k, r) ∈ races_of d1 mogi) as Hold.
    { apply races_of_elem. split; [|done]. congruence. }
    destruct (max_index_ge _ _ _ Hold) as (mx & Hmx & Hrmx).
    rewrite Hmx in Hidx. simpl in Hidx. lia. }
  simpl. split; [done|]. split; [|done].
  rewrite Hr3, delete_insert_id by apply next_pk_fresh. congruence.
Qed.

Lemma undo_last_add_race_witness :
  (undo_last (add_race full_db 8 200 (rainbow_road 4)).2 8 300).1 = JsonOk
  ∧ races (undo_last (add_race full_db 8 200 (rainbow_road 4)).2 8 300).2
    = races full_db
  ∧ mogis (undo_last (add_race full_db 8 200 (rainbow_road 4)).2 8 300).2
    = mogis (add_race full_db 8 200 (rainbow_road 4)).2
  ∧ tracks (undo_last (add_race full_db 8 200 (rainbow_road 4)).2 8 300).2
    = tracks (add_race full_db 8 200 (rainbow_road 4)).2.
Proof.
  apply (undo_last_add_race full_db 8 200 (rainbow_road 4) 2 1).
  by vm_compute.
Defined.

(** ** What the session engine keeps *)

Lemma has_race_mono d d' mogi i :
  (∀ k r, races d !! k = Some r → races d' !! k = Some r) →
  has_race d mogi i → has_race d' mogi i.
Proof. intros Hmono (k & r & Hr & ?). exists k, r. split; [by apply Hmono|done]. Qed.

Lemma engine_inv_empty : engine_inv empty_db.
Proof.
  split; simpl.
  - intros k r. by rewrite lookup_empty.
  - intros k r. by rewrite lookup_empty.
  - intros k r i. by rewrite lookup_empty.
  - intros k m. by rewrite lookup_empty.
  - intros k t. by rewrite lookup_empty.
Qed.

Lemma engine_inv_current d user now :
  engine_inv d → engine_inv (_current_mogi d user now).1.
Proof.
  intros Hinv. destruct (_current_mogi d user now) as [d1 mogi] eqn:Hcur.
  apply _current_mogi_change in Hcur as [->|(_ & Hfresh & ->)]; [done|].
  destruct Hinv as [Hu Hr Hb Hf Ht]. split; simpl; try done.
  - intros k r Hk. destruct (Hr k r Hk) as (? & ? & ? & Hm & ?).
    repeat split; try done; try lia. simpl.
    apply lookup_insert_is_Some. destruct (decide (mogi = race_mogi r)); auto.
  - intros k m. rewrite lookup_insert. case_decide.
    + by intros [= <-].
    + apply Hf.
Qed.

Lemma Track_get_or_create_inv d name slug d' pk :
  Track_get_or_create d name slug = Some (d', pk) →
  engine_inv d → engine_inv d' ∧ is_Some (tracks d' !! pk).
Proof.
  unfold Track_get_or_create.
  destruct (tracks_named d name) as [|[k row] [|??]] eqn:Hnamed; [| |done].
  - unfold Track_insert. case_decide as Huniq; [|done]. intros [= <- <-].
    intros [Hu Hr Hb Hf Ht]. split; [|by simpl; rewrite lookup_insert_eq].
    split; simpl; try done.
    + intros k r Hk. destruct (Hr k r Hk) as (? & ? & ? & ? & Htr).
      repeat split; try done; try lia. simpl.
      apply lookup_insert_is_Some.
      destruct (decide (next_pk (tracks d) = race_track r)); auto.
    + set (t' := Track_save _) in *. set (pk := next_pk (tracks d)) in *.
      intros j t Hj _. rewrite lookup_insert in Hj. case_decide as Hjk.
      * injection Hj as <-. subst j. split; [apply Track_save_fixed|].
        intros j2 t2 Hj2 _ Hne. rewrite lookup_insert_ne in Hj2 by done.
        destruct (Huniq j2 t2 Hj2) as [->|[? ?]]; [done|]. by split.
      * destruct (Ht j t Hj) as [Hsaved Hother]; [by intros ?%elem_of_nil|].
        split; [done|]. intros j2 t2 Hj2 _ Hne.
        rewrite lookup_insert in Hj2. case_decide as Hj2k.
        -- injection Hj2 as <-.
           destruct (Huniq j t Hj) as [->|[? ?]]; [done|]. by split.
        -- apply (Hother j2 t2 Hj2); [by intros ?%elem_of_nil|done].
  - intros [= <- <-] Hinv. split; [done|]. simpl.
    assert ((k, row) ∈ tracks_named d name) as Hin by (rewrite Hnamed; by left).
    unfold tracks_named in Hin. apply list_elem_of_filter in Hin as [_ Hin].
    apply elem_of_map_to_list in Hin. by exists row.
Qed.

Lemma engine_inv_add_race d user now body :
  engine_inv d → engine_inv (add_race d user now body).2.
Proof.
  intros Hinv.
  destruct (add_race d user now body) as [resp d'] eqn:Hadd. simpl.
  destruct resp as [|mogi_id next_index| | | | |].
  2: {
    destruct (add_race_ok _ _ _ _ _ _ _ Hadd)
      as (track & position & d1 & d2 & trk & _ & _ & Hpos & Hcur & Hidx & Hle
          & Htrk & Hrace).
    pose proof (engine_inv_current d user now Hinv) as Hinv1.
    rewrite Hcur in Hinv1. simpl in Hinv1.
    destruct (_current_mogi_lookup _ _ _ _ _ Hcur) as (mrow & Hmrow & _ & _).
    destruct (Track_get_or_create_inv _ _ _ _ _ Htrk Hinv1) as [Hinv2 Htrk2].
    pose proof (Track_get_or_create_mogis _ _ _ _ _ Htrk) as Hm2.
    pose proof (Track_get_or_create_races _ _ _ _ _ Htrk) as Hr2.
    apply Race_create_Some in Hrace as [-> (_ & _ & Hfree)].
    set (pk := next_pk (races d2)) in *. set (new := Race_save _) in *.
    assert (race_mogi new = mogi_id ∧ race_index new = next_index
            ∧ race_position new = position ∧ race_track new = trk
            ∧ race_points new = default 0 (DEFAULT_POINTS !! position))
      as (Hnm & Hni & Hnp & Hnt & Hnpts).
    { unfold new, Race_save. by case_decide. }
    assert (∀ k r, races d2 !! k = Some r →
              <[pk := new]> (races d2) !! k = Some r) as Hmono.
    { intros k r Hk. rewrite lookup_insert_ne; [done|]. intros <-.
      unfold pk in Hk. by rewrite next_pk_fresh in Hk. }
    assert (1 ≤ next_index
            ∧ ∀ i, 1 ≤ i < next_index → has_race d2 mogi_id i) as [Hge Hbelow].
    { destruct (max_index (races_of d1 mogi_id)) as [mx|] eqn:Hmx;
        simpl in Hidx; [|split; [lia|intros; lia]].
      destruct (max_index_elem _ _ Hmx) as (k & r & Hin & Hrmx).
      apply races_of_elem in Hin as [Hk Hkm]. rewrite <- Hr2 in Hk.
      destruct (inv_race _ Hinv2 k r Hk) as ([? ?] & _).
      split; [lia|]. intros i Hi. rewrite <- Hkm.
      apply (inv_below _ Hinv2 k r i Hk). lia. }
    destruct Hinv2 as [Hu Hr Hb Hf Ht]. split; simpl; try done.
    + intros k1 r1 Hk1 k2 r2 Hk2 Hsm Hsi.
      rewrite lookup_insert in Hk1, Hk2.
      destruct (decide (pk = k1)) as [E1|E1], (decide (pk = k2)) as [E2|E2].
      * congruence.
      * injection Hk1 as <-. exfalso. apply (Hfree k2 r2 Hk2).
        split; congruence.
      * injection Hk2 as <-. exfalso. apply (Hfree k1 r1 Hk1).
        split; congruence.
      * by apply (Hu k1 r1 Hk1 k2 r2 Hk2).
    + intros k r Hk. rewrite lookup_insert in Hk. case_decide.
      * injection Hk as <-. unfold race_wf. simpl.
        rewrite Hm2, Hmrow.
        repeat split; try done; lia.
      * apply (Hr k r Hk).
    + intros k r i Hk Hi. rewrite lookup_insert in Hk. case_decide.
      * injection Hk as <-. rewrite Hnm. rewrite Hni in Hi.
        destruct (decide (i = next_index)) as [->|Hne].
        -- exists pk, new. split; [apply lookup_insert_eq|done].
        -- eapply has_race_mono; [exact Hmono|]. apply Hbelow. lia.
      * eapply has_race_mono; [exact Hmono|]. by eapply Hb.
    + intros k m Hk Hfin. eapply has_race_mono; [exact Hmono|]. by eapply Hf. }
  (* every other answer wrote, at most, the current session *)
  all: pose proof (engine_inv_current d user now Hinv) as Hcur;
    unfold add_race in Hadd;
    destruct body as [[track [position|]]|]; simpl in Hadd;
    try (by simplify_eq);
    (case_decide; [by simplify_eq|]);
    destruct (_current_mogi d user now) as [d1 mogi];
    (case_decide; [by simplify_eq|]);
    (destruct (_get_or_create_track _ _) as [[d2 trk]|]; [|by simplify_eq]);
    destruct (Race_create _ _); by simplify_eq.
Qed.

Lemma engine_inv_undo_last d user now :
  engine_inv d → engine_inv (undo_last d user now).2.
Proof.
  intros Hinv. pose proof (engine_inv_current d user now Hinv) as Hinv1.
  unfold undo_last. destruct (_current_mogi d user now) as [d1 mogi] eqn:Hcur.
  simpl in Hinv1.
  destruct (head (merge_sort index_after (races_of d1 mogi))) as [[kl rl]|]
    eqn:Hhead; simpl; [|done].
  destruct (_current_mogi_lookup _ _ _ _ _ Hcur) as (mrow & Hmrow & _ & Hopen).
  assert (∀ kr, kr ∈ races_of d1 mogi → race_index kr.2 ≤ race_index rl)
    as Hmax.
  { intros kr Hin.
    apply (head_merge_sort_least _ _ _ _ index_after_trans index_after_total
             index_after_refl Hhead Hin). }
  apply head_merge_sort_elem in Hhead. apply races_of_elem in Hhead as [Hkl Hlm].
  destruct Hinv1 as [Hu Hr Hb Hf Ht]. split; simpl; try done.
  - intros k1 r1 [_ Hk1]%lookup_delete_Some k2 r2 [_ Hk2]%lookup_delete_Some.
    by apply (Hu k1 r1 Hk1 k2 r2 Hk2).
  - intros k r [_ Hk]%lookup_delete_Some. apply (Hr k r Hk).
  - intros k r i [Hne Hk]%lookup_delete_Some Hi.
    destruct (Hb k r i Hk Hi) as (k' & r' & Hk' & Hm' & Hi').
    exists k', r'. split; [|done]. apply lookup_delete_Some. split; [|done].
    intros <-. assert (r' = rl) as -> by congruence.
    assert (race_index r ≤ race_index rl) as Hle.
    { apply (Hmax (k, r)). apply races_of_elem. split; [done|]. congruence. }
    apply Hne. apply (Hu kl rl Hkl k r Hk); [congruence|lia].
  - intros k m Hk Hfin. destruct (Hf k m Hk Hfin) as (k' & r' & Hk' & Hm' & Hi').
    exists k', r'. split; [|done]. apply lookup_delete_Some. split; [|done].
    intros <-. assert (r' = rl) as -> by congruence.
    assert (k = mogi) as -> by congruence. congruence.
Qed.

Lemma engine_inv_reset_current d user now :
  engine_inv d → engine_inv (reset_current d user now).2.
Proof.
  intros Hinv. pose proof (engine_inv_current d user now Hinv) as Hinv1.
  unfold reset_current. destruct (_current_mogi d user now) as [d1 mogi] eqn:Hcur.
  simpl in *.
  destruct (_current_mogi_lookup _ _ _ _ _ Hcur) as (mrow & Hmrow & _ & Hopen).
  destruct Hinv1 as [Hu Hr Hb Hf Ht]. split; simpl; try done.
  - intros k1 r1 [Hk1 _]%map_lookup_filter_Some k2 r2
      [Hk2 _]%map_lookup_filter_Some.
    by apply (Hu k1 r1 Hk1 k2 r2 Hk2).
  - intros k r [Hk _]%map_lookup_filter_Some. apply (Hr k r Hk).
  - intros k r i [Hk Hne]%map_lookup_filter_Some Hi. simpl in Hne.
    destruct (Hb k r i Hk Hi) as (k' & r' & Hk' & Hm' & Hi').
    exists k', r'. split; [|done]. apply map_lookup_filter_Some.
    split; [done|]. simpl. congruence.
  - intros k m Hk Hfin. destruct (Hf k m Hk Hfin) as (k' & r' & Hk' & Hm' & Hi').
    exists k', r'. split; [|done]. apply map_lookup_filter_Some.
    split; [done|]. simpl. intros Heq. congruence.
Qed.

Lemma race_count_12_has_race d mogi :
  engine_inv d → race_count d mogi = 12 → has_race d mogi 12.
Proof.
  intros [Hu Hr Hb Hf Ht] Hcount.
  destruct (full_session_max_index d mogi Hcount Hu) as (mx & Hmx & Hge).
  { intros k r Hk _. destruct (Hr k r Hk) as ([? ?] & _). done. }
  destruct (max_index_elem _ _ Hmx) as (k & r & Hin & Hidx).
  apply races_of_elem in Hin as [Hk Hm].
  destruct (Hr k r Hk) as ([? ?] & _).
  exists k, r. split; [done|]. split; [done|]. lia.
Qed.

Lemma engine_inv_finalize_current d user now :
  engine_inv d → engine_inv (finalize_current d user now).2.
Proof.
  intros Hinv. pose proof (engine_inv_current d user now Hinv) as Hinv1.
  unfold finalize_current.
  destruct (_current_mogi d user now) as [d1 mogi] eqn:Hcur. simpl in *.
  case_decide as Hcount; simpl; [done|].
  assert (has_race d1 mogi 12) as H12.
  { apply race_count_12_has_race; [done|].
    destruct (decide (race_count d1 mogi = 12)); [done|]. by destruct Hcount. }
  destruct Hinv1 as [Hu Hr Hb Hf Ht]. split; simpl; try done.
  - intros k r Hk. destruct (Hr k r Hk) as (? & ? & ? & Hm & ?).
    repeat split; try done; try lia. simpl.
    rewrite lookup_alter. case_decide; [|done]. subst.
    destruct Hm as [x ->]. by eexists.
  - intros k m. rewrite lookup_alter. case_decide as Hk.
    + subst k. intros _ _. done.
    + apply Hf.
Qed.

Lemma engine_reachable_inv d : engine_reachable d → engine_inv d.
Proof.
  induction 1 as [|d user now _ IH|d q _ IH Hq].
  - apply engine_inv_empty.
  - by apply engine_inv_current.
  - destruct q as [user now body|user now|user now|user now|?|?]; simpl;
      try done.
    + by apply engine_inv_add_race.
    + by apply engine_inv_undo_last.
    + by apply engine_inv_reset_current.
    + by apply engine_inv_finalize_current.
Qed.

Lemma engine_reachable_iter n :
  engine_reachable
    (Nat.iter n (λ d, (add_race d 7 100 (rainbow_road 1)).2) empty_db).
Proof.
  induction n as [|n IH]; [apply reach_empty|].
  rewrite Nat.iter_succ.
  by apply (reach_run _ (Add_race 7 100 (rainbow_road 1))).
Qed.

Lemma engine_reachable_finalized_db : engine_reachable finalized_db.
Proof.
  apply (reach_run full_db (Finalize_current 7 200)); [|done].
  apply engine_reachable_iter.
Qed.

Lemma engine_reachable_two_race_db : engine_reachable two_race_db.
Proof. repeat (apply reach_run; [|reflexivity]). apply reach_empty. Qed.

Lemma indices_of_elem d mogi i : i ∈ indices_of d mogi ↔ has_race d mogi i.
Proof.
  unfold indices_of, has_race. rewrite list_elem_of_fmap. split.
  - intros ([k r] & -> & Hin). apply races_of_elem in Hin as [? ?].
    by exists k, r.
  - intros (k & r & Hk & Hm & Hi). exists (k, r). split; [done|].
    by apply races_of_elem.
Qed.

Lemma indices_of_NoDup d mogi :
  unique_race_index_per_mogi (races d) → NoDup (indices_of d mogi).
Proof.
  intros Hu. apply NoDup_fmap_2_strong; [|apply races_of_NoDup].
  intros [k1 r1] [k2 r2] [H1 Hm1]%races_of_elem [H2 Hm2]%races_of_elem Hi.
  simpl in Hi. assert (k1 = k2) as ->.
  { apply (Hu k1 r1 H1 k2 r2 H2); congruence. }
  congruence.
Qed.

(** The races of a session are numbered [1..mx], [mx] being the highest
    number and also the number of races. *)
Lemma engine_inv_indices d mogi :
  engine_inv d →
  let mx := default 0 (max_index (races_of d mogi)) in
  indices_of d mogi ≡ₚ seqZ 1 mx ∧ race_count d mogi = mx ∧ 0 ≤ mx ≤ 12.
Proof.
  intros Hinv mx.
  assert (0 ≤ mx ≤ 12) as Hmx.
  { unfold mx. destruct (max_index (races_of d mogi)) as [m|] eqn:Hm;
      simpl; [|lia].
    destruct (max_index_elem _ _ Hm) as (k & r & [Hk _]%races_of_elem & <-).
    destruct (inv_race _ Hinv k r Hk) as (? & _). lia. }
  assert (indices_of d mogi ≡ₚ seqZ 1 mx) as Hperm.
  { apply NoDup_Permutation;
      [apply indices_of_NoDup, Hinv|apply NoDup_seqZ|].
    intros i. rewrite indices_of_elem, elem_of_seqZ. split.
    - intros (k & r & Hk & Hm & <-).
      destruct (inv_race _ Hinv k r Hk) as (? & _).
      destruct (max_index_ge (races_of d mogi) k r) as (m & Hmax & ?);
        [by apply races_of_elem|].
      unfold mx. rewrite Hmax. simpl. lia.
    - intros Hi. unfold mx in Hi.
      destruct (max_index (races_of d mogi)) as [m|] eqn:Hm;
        simpl in Hi; [|lia].
      destruct (max_index_elem _ _ Hm) as (k & r & [Hk <-]%races_of_elem & <-).
      apply (inv_below _ Hinv k r i Hk). lia. }
  split; [done|]. split; [|done].
  unfold race_count. apply Permutation_length in Hperm.
  unfold indices_of in Hperm. rewrite length_fmap, length_seqZ in Hperm.
  lia.
Qed.

(** X2.  In a database the session engine has built, the races of a
    session are numbered 1, 2, ..., [race_count] without gap or repeat, and
    there are at most twelve. *)
Theorem engine_race_indices d mogi :
  engine_reachable d →
  indices_of d mogi ≡ₚ seqZ 1 (race_count d mogi) ∧ race_count d mogi ≤ 12.
Proof.
  intros Hinv%engine_reachable_inv.
  destruct (engine_inv_indices d mogi Hinv) as (Hperm & -> & ?).
  split; [done|lia].
Qed.

Lemma engine_race_indices_witness :
  indices_of two_race_db 1 ≡ₚ seqZ 1 (race_count two_race_db 1)
  ∧ race_count two_race_db 1 ≤ 12.
Proof.
  apply (engine_race_indices two_race_db 1), engine_reachable_two_race_db.
Defined.

(** X3.  In a database the session engine has built, a finalized session
    is complete: it has exactly twelve races. *)
Theorem engine_finalized_complete d k m :
  engine_reachable d →
  mogis d !! k = Some m → mogi_finalized m = true →
  is_complete d k = true.
Proof.
  intros Hinv%engine_reachable_inv Hk Hfin.
  destruct (engine_inv_indices d k Hinv) as (Hperm & Hcount & Hle).
  pose proof (inv_finalized _ Hinv k m Hk Hfin) as H12.
  apply indices_of_elem in H12. rewrite Hperm, elem_of_seqZ in H12.
  unfold is_complete. apply bool_decide_eq_true. lia.
Qed.

Lemma engine_finalized_complete_witness : is_complete finalized_db 1 = true.
Proof.
  apply (engine_finalized_complete finalized_db 1
           {| mogi_owner := 7; mogi_created_at := 100; mogi_finalized := true;
              mogi_note := []; mogi_played_at := 100 |}).
  - apply engine_reachable_finalized_db.
  - by vm_compute.
  - reflexivity.
Defined.

(** X4.  In a database the session engine has built, every stored race
    has a number and a place from 1 to 12, carries the points the table
    gives its place, and belongs to a session and a track that exist. *)
Theorem engine_race_well_formed d k r :
  engine_reachable d → races d !! k = Some r →
  1 ≤ race_index r ≤ 12 ∧ 1 ≤ race_position r ≤ 12
  ∧ DEFAULT_POINTS !! race_position r = Some (race_points r)
  ∧ is_Some (mogis d !! race_mogi r) ∧ is_Some (tracks d !! race_track r).
Proof.
  intros Hinv%engine_reachable_inv Hk.
  destruct (inv_race _ Hinv k r Hk) as (Hi & Hp & Hpts & Hm & Ht).
  repeat split; try done; try lia.
  pose proof (DEFAULT_POINTS_table _ Hp) as Htab. rewrite Hpts.
  destruct (DEFAULT_POINTS !! race_position r) as [v|] eqn:Hv; [done|].
  simpl in Htab. exfalso.
  repeat (apply elem_of_cons in Htab as [Heq|Htab]; [by simplify_eq|]).
  by apply elem_of_nil in Htab.
Qed.

Lemma engine_race_well_formed_witness :
  1 ≤ 2 ≤ 12 ∧ 1 ≤ 4 ≤ 12
  ∧ DEFAULT_POINTS !! 4 = Some 9
  ∧ is_Some (mogis two_race_db !! 1) ∧ is_Some (tracks two_race_db !! 1).
Proof.
  apply (engine_race_well_formed two_race_db 2
           {| race_mogi := 1; race_track := 1; race_index := 2;
              race_position := 4; race_points := 9 |}).
  - apply engine_reachable_two_race_db.
  - by vm_compute.
Defined.

Lemma total_points_bounds d mogi :
  (∀ k r, races d !! k = Some r → 1 ≤ race_points r ≤ 15) →
  race_count d mogi ≤ total_points d mogi ≤ 15 * race_count d mogi.
Proof.
  intros Hpts. unfold race_count, total_points.
  assert (Forall (λ kr, 1 ≤ race_points kr.2 ≤ 15) (races_of d mogi)) as Hall.
  { apply Forall_forall. intros [k r] [Hk _]%races_of_elem. by apply (Hpts k r). }
  induction Hall as [|kr l Hkr _ IH]; simpl; lia.
Qed.

(** X5.  In a database the session engine has built, the points of a
    session lie between its number of races and fifteen times that
    number. *)
Theorem engine_total_points d mogi :
  engine_reachable d →
  race_count d mogi ≤ total_points d mogi ≤ 15 * race_count d mogi.
Proof.
  intros Hinv%engine_reachable_inv. apply total_points_bounds.
  intros k r Hk. destruct (inv_race _ Hinv k r Hk) as (_ & Hp & Hpts & _).
  pose proof (DEFAULT_POINTS_table _ Hp) as Htab. rewrite <- Hpts in Htab.
  repeat (apply elem_of_cons in Htab as [Heq|Htab]; [simplify_eq; lia|]).
  by apply elem_of_nil in Htab.
Qed.

Lemma engine_total_points_witness :
  race_count two_race_db 1 ≤ total_points two_race_db 1
    ≤ 15 * race_count two_race_db 1.
Proof.
  apply (engine_total_points two_race_db 1), engine_reachable_two_race_db.
Defined.



(** ** How the operations of the session engine compose *)





Lemma reset_current_races_of d user now d1 mogi :
  _current_mogi d user now = (d1, mogi) →
  races_of (reset_current d user now).2 mogi = [].
Proof.
  intros Hcur. unfold reset_current. rewrite Hcur. simpl.
  apply filter_none, Forall_forall.
  intros [k r] Hin%elem_of_map_to_list Hm. simpl in *.
  apply map_lookup_filter_Some in Hin as [_ Hne]. done.
Qed.

(** X8.  After [reset_current] the current session has no race left:
    [undo_last] answers that there is nothing to undo, and a race then
    added is race 1 of the same session. *)
Theorem reset_current_then d user now now' body mogi idx d' :
  (undo_last (reset_current d user now).2 user now').1 = JsonNoRaces
  ∧ (add_race (reset_current d user now).2 user now' body
       = (JsonOkRace mogi idx, d') →
     mogi = (_current_mogi d user now).2 ∧ idx = 1).
Proof.
  destruct (_current_mogi d user now) as [d1 m] eqn:Hcur.
  pose proof (reset_current_races_of _ _ _ _ _ Hcur) as Hnil.
  assert (_current_mogi (reset_current d user now).2 user now'
          = ((reset_current d user now).2, m)) as Hcur'.
  { apply (_current_mogi_again d user now d1); [done|].
    unfold reset_current. by rewrite Hcur. }
  split.
  - unfold undo_last. rewrite Hcur', Hnil. done.
  - intros Hadd.
    destruct (add_race_ok _ _ _ _ _ _ _ Hadd)
      as (_ & _ & d2 & _ & _ & _ & _ & _ & Hcur2 & -> & _).
    rewrite Hcur' in Hcur2. injection Hcur2 as <- <-.
    by rewrite Hnil.
Qed.

Lemma reset_current_then_witness :
  (undo_last (reset_current two_race_db 7 400).2 7 500).1 = JsonNoRaces
  ∧ 1 = (_current_mogi two_race_db 7 400).2 ∧ 1 = 1.
Proof.
  destruct (reset_current_then two_race_db 7 400 500 (rainbow_road 5) 1 1
              (add_race (reset_current two_race_db 7 400).2 7 500
                 (rainbow_road 5)).2) as [Hundo Hadd].
  split; [exact Hundo|]. apply Hadd. by vm_compute.
Defined.

Lemma max_index_insert_new d pk r mogi :
  races d !! pk = None → race_mogi r = mogi →
  default 0 (max_index (races_of d mogi)) < race_index r →
  default 0 (max_index (races_of (with_races d (<[pk := r]> (races d))) mogi))
  = race_index r.
Proof.
  intros Hfresh Hm Hlt. set (d' := with_races d _).
  destruct (max_index_ge (races_of d' mogi) pk r) as (mx & Hmx & Hle).
  { apply races_of_elem. split; [apply lookup_insert_eq|done]. }
  rewrite Hmx. simpl.
  destruct (max_index_elem _ _ Hmx) as (k & r' & [Hk Hm']%races_of_elem & <-).
  simpl in Hk. rewrite lookup_insert in Hk. case_decide.
  - by injection Hk as <-.
  - destruct (max_index_ge (races_of d mogi) k r') as (mx' & Hmx' & Hle');
      [by apply races_of_elem|].
    rewrite Hmx' in Hlt. simpl in Hlt. lia.
Qed.

(** X9.  In a database the session engine has built, a race that
    [add_race] accepts gets the number after the count of the session's
    races, and the session then has that many races. *)
Theorem add_race_next_index d user now body mogi idx d' :
  engine_reachable d →
  add_race d user now body = (JsonOkRace mogi idx, d') →
  idx = race_count d mogi + 1 ∧ race_count d' mogi = idx.
Proof.
  intros Hreach Hadd.
  assert (engine_reachable d') as Hreach'.
  { replace d' with (run (Add_race user now body) d).2
      by (simpl; by rewrite Hadd).
    by apply reach_run. }
  destruct (add_race_ok _ _ _ _ _ _ _ Hadd)
    as (track & position & d1 & d2 & trk & _ & _ & _ & Hcur & Hidx & _
        & Htrk & Hrace).
  assert (engine_inv d1) as Hinv1.
  { replace d1 with (_current_mogi d user now).1 by by rewrite Hcur.
    by apply engine_reachable_inv, reach_current. }
  assert (races_of d1 mogi = races_of d mogi) as Hsame.
  { unfold races_of. f_equal. f_equal.
    apply _current_mogi_change in Hcur as [->|(_ & _ & ->)]; done. }
  pose proof (Track_get_or_create_races _ _ _ _ _ Htrk) as Hr2.
  assert (races_of d2 mogi = races_of d1 mogi) as Hsame2
    by (unfold races_of; by rewrite Hr2).
  destruct (engine_inv_indices d1 mogi Hinv1) as (_ & Hcount & _).
  simpl in Hcount.
  assert (race_count d mogi = race_count d1 mogi) as Hc
    by (unfold race_count; by rewrite Hsame).
  split; [lia|].
  destruct (engine_inv_indices d' mogi (engine_reachable_inv _ Hreach'))
    as (_ & -> & _).
  apply Race_create_Some in Hrace as [-> _].
  assert (race_mogi (Race_save {| race_mogi := mogi; race_track := trk;
            race_index := idx; race_position := position; race_points := 0 |})
          = mogi
          ∧ race_index (Race_save {| race_mogi := mogi; race_track := trk;
              race_index := idx; race_position := position; race_points := 0 |})
            = idx) as [Hnm Hni].
  { unfold Race_save. by case_decide. }
  rewrite <- Hni at 2.
  apply max_index_insert_new; [apply next_pk_fresh|done|].
  rewrite Hni, Hsame2. lia.
Qed.

Lemma add_race_next_index_witness :
  3 = race_count two_race_db 1 + 1
  ∧ race_count (add_race two_race_db 7 400 (rainbow_road 2)).2 1 = 3.
Proof.
  apply (add_race_next_index two_race_db 7 400 (rainbow_road 2)).
  - apply engine_reachable_two_race_db.
  - by vm_compute.
Defined.

(** ** Track names *)

Lemma fields_from_nil p cur s :
  fields_from p cur s = [] ↔ cur = [] ∧ Forall (λ c, p c = true) s.
Proof.
  revert cur. induction s as [|c s IH]; intros cur; simpl.
  - destruct cur; [by split; [split; [|constructor]|]|].
    split; [done|by intros [? _]].
  - destruct (p c) eqn:Hc.
    + destruct cur.
      * rewrite IH. split.
        -- intros [_ ?]. split; [done|by constructor].
        -- intros [_ [_ ?]%Forall_cons]. done.
      * split; [done|by intros [? _]].
    + rewrite IH. split.
      * intros [Hnil _]. by apply app_eq_nil in Hnil as [_ ?].
      * intros [_ [? _]%Forall_cons]. congruence.
Qed.

Lemma lstrip_by_nil p s : lstrip_by p s = [] ↔ Forall (λ c, p c = true) s.
Proof.
  induction s as [|c s IH]; simpl; [by split; [constructor|]|].
  destruct (p c) eqn:Hc.
  - rewrite IH. split; [by constructor|by intros [_ ?]%Forall_cons].
  - split; [done|]. intros [? _]%Forall_cons. congruence.
Qed.

Lemma rstrip_by_nil p s : rstrip_by p s = [] ↔ Forall (λ c, p c = true) s.
Proof.
  induction s as [|c s IH]; simpl; [by split; [constructor|]|].
  destruct (rstrip_by p s) as [|b r] eqn:Hr.
  - destruct (p c) eqn:Hc.
    + split; [|done]. intros _. constructor; [done|]. by apply IH.
    + split; [done|]. intros [? _]%Forall_cons. congruence.
  - split; [done|]. intros [_ Hs%IH]%Forall_cons. done.
Qed.

Lemma strip_by_nil p s : strip_by p s = [] ↔ Forall (λ c, p c = true) s.
Proof.
  unfold strip_by. rewrite rstrip_by_nil. split.
  - intros Hall. induction s as [|c s IH]; [constructor|]. simpl in Hall.
    destruct (p c) eqn:Hc; [constructor; auto|].
    apply Forall_cons in Hall as [? _]. congruence.
  - intros Hall. apply lstrip_by_nil in Hall. rewrite Hall. constructor.
Qed.

Lemma join_nil sep ws :
  Forall (λ w, w ≠ []) ws → join sep ws = [] → ws = [].
Proof.
  intros Hws. destruct Hws as [|w ws Hw Hws]; [done|].
  destruct ws; simpl; [done|]. by destruct w.
Qed.

Lemma isspace_replace_lower c :
  isspace c = false →
  isspace (if (lower_char c =? curly)%N then 39%N else lower_char c) = false.
Proof.
  intros Hc. unfold lower_char, curly.
  destruct ((65 <=? c) && (c <=? 90))%N eqn:Hup.
  - apply andb_true_iff in Hup as [H1%N.leb_le H2%N.leb_le].
    destruct (N.eqb_spec (c + 32) 8217); [lia|].
    unfold isspace.
    rewrite !orb_false_iff, !andb_false_iff, !N.leb_gt, !N.eqb_neq. lia.
  - by destruct (N.eqb_spec c 8217).
Qed.

Lemma CANON_MAP_nonempty : map_Forall (λ _ v, v ≠ []) CANON_MAP.
Proof. apply (bool_decide_unpack _). by vm_compute. Qed.

Lemma normalize_nil raw :
  normalize raw = [] ↔ Forall (λ c, isspace c = true) raw.
Proof.
  unfold normalize, strip. split.
  - intros Hnil. apply (strip_by_nil isspace).
    apply join_nil in Hnil.
    2: { eapply Forall_impl; [by apply fields_from_fields|]. by intros w [? _]. }
    apply fields_from_nil in Hnil as [_ Hall].
    destruct (strip_by isspace raw) as [|c s] eqn:Hs; [done|]. exfalso.
    assert (isspace c = false) as Hc.
    { apply (strip_by_ends isspace raw). left. by rewrite Hs. }
    unfold replace_char, lower in Hall. simpl in Hall.
    apply Forall_cons in Hall as [Hsp _].
    apply isspace_replace_lower in Hc. congruence.
  - intros Hall. apply strip_by_nil in Hall. by rewrite Hall.
Qed.

(** X10.  [canonicalize_track] gives the empty name exactly for the names
    that are empty or made of whitespace only. *)
Theorem canonicalize_track_empty_iff raw :
  canonicalize_track raw = [] ↔ Forall (λ c, isspace c = true) raw.
Proof.
  destruct raw as [|c raw]; [by split; [constructor|]|].
  unfold canonicalize_track. rewrite <- normalize_nil.
  destruct (CANON_MAP !! normalize (c :: raw)) as [v|] eqn:Hget; simpl;
    [|done].
  pose proof (CANON_MAP_nonempty _ _ Hget) as Hv. simpl in Hv. split; [done|].
  intros Hnil. rewrite Hnil in Hget. by vm_compute in Hget.
Qed.

(** X11.  The track [ensure_track_id] returns carries the canonical form of
    the name asked for, which is not empty: the import command never
    files a race under a nameless track. *)
Theorem ensure_track_id_named d name d' pk :
  ensure_track_id d name = Some (d', pk) →
  ∃ t, tracks d' !! pk = Some t
       ∧ track_name t = canonicalize_track (default [] name)
       ∧ track_name t ≠ [].
Proof.
  unfold ensure_track_id. case_decide as Hcanon; [done|].
  intros [[-> (row & Hrow & Hname)]|[Hfresh ->]]%Track_get_or_create_row.
  - exists row. split; [done|]. split; [done|]. by rewrite Hname.
  - eexists. split; [apply lookup_insert_eq|]. unfold Track_save. simpl.
    rewrite canonicalize_track_fixed. done.
Qed.

Lemma ensure_track_id_named_witness :
  ∃ t, tracks (with_tracks empty_db
                 {[ 1 := {| track_name := Py.str "bowser's castle";
                            track_slug := Py.str "bowsers-castle" |} ]})
         !! 1 = Some t
       ∧ track_name t = canonicalize_track (default [] (Some (Py.str " BC ")))
       ∧ track_name t ≠ [].
Proof.
  apply (ensure_track_id_named empty_db (Some (Py.str " BC "))). by vm_compute.
Defined.

Lemma tracks_named_insert d pk row :
  tracks d !! pk = None → tracks_named d (track_name row) = [] →
  tracks_named (with_tracks d (<[pk := row]> (tracks d))) (track_name row)
  = [(pk, row)].
Proof.
  intros Hfresh Hnone. unfold tracks_named in *. simpl.
  apply Permutation_singleton_r.
  rewrite map_to_list_insert by done.
  rewrite filter_cons_True by done. by rewrite Hnone.
Qed.

(** X12.  Two spellings with the same canonical form name one track: once
    [_get_or_create_track] has returned a track for one, it returns the
    same track for the other and writes nothing. *)
Theorem get_or_create_track_alias d raw1 raw2 d1 pk :
  _get_or_create_track d raw1 = Some (d1, pk) →
  canonicalize_track raw2 = canonicalize_track raw1 →
  _get_or_create_track d1 raw2 = Some (d1, pk).
Proof.
  unfold _get_or_create_track. intros Hfirst ->.
  set (canon := canonicalize_track raw1) in *.
  unfold Track_get_or_create in *.
  destruct (tracks_named d canon) as [|[k row] [|??]] eqn:Hnamed; [| |done].
  - apply Track_insert_Some in Hfirst as [-> ->].
    assert (Track_save {| track_name := canon;
                          track_slug := slug_for_track canon |}
            = {| track_name := canon; track_slug := slug_for_track canon |})
      as Hsave.
    { unfold Track_save, canon. simpl. by rewrite canonicalize_track_fixed. }
    rewrite Hsave.
    pose proof (tracks_named_insert d (next_pk (tracks d))
                  {| track_name := canon; track_slug := slug_for_track canon |}
                  (next_pk_fresh _) Hnamed) as Hins.
    simpl in Hins. by rewrite Hins.
  - injection Hfirst as <- <-. by rewrite Hnamed.
Qed.

Lemma get_or_create_track_alias_witness :
  _get_or_create_track
    (with_tracks empty_db
       {[ 1 := {| track_name := Py.str "bowser's castle";
                  track_slug := Py.str "bowsers-castle" |} ]})
    (Py.str "Bowsers  Castle")
  = Some (with_tracks empty_db
            {[ 1 := {| track_name := Py.str "bowser's castle";
                       track_slug := Py.str "bowsers-castle" |} ]}, 1).
Proof.
  apply (get_or_create_track_alias empty_db (Py.str "BC")); by vm_compute.
Defined.



Lemma settled_not_upper c : settled c → Re.is_upper_letter c = false ∧ c ≠ curly.
Proof.
  intros [Hlow Hne]. split; [|done]. unfold lower_char in Hlow.
  unfold Re.is_upper_letter.
  destruct ((65 <=? c) && (c <=? 90))%N; [lia|done].
Qed.

Lemma CANON_MAP_shape :
  map_Forall (λ _ v, join 32%N (split v) = v
                     ∧ Forall (λ c, Re.is_upper_letter c = false ∧ c ≠ curly) v)
    CANON_MAP.
Proof. apply (bool_decide_unpack _). by vm_compute. Qed.

(** X14.  A canonical name is made of words separated by single spaces,
    with no other whitespace and none at either end, and holds no capital
    letter A-Z and no curly apostrophe. *)
Theorem canonicalize_track_shape raw :
  join 32%N (split (canonicalize_track raw)) = canonicalize_track raw
  ∧ Forall (λ c, Re.is_upper_letter c = false ∧ c ≠ curly)
      (canonicalize_track raw).
Proof.
  destruct raw as [|c raw]; [by split; [|constructor]|].
  unfold canonicalize_track.
  destruct (CANON_MAP !! normalize (c :: raw)) as [v|] eqn:Hget; simpl.
  - apply (CANON_MAP_shape _ _ Hget).
  - destruct (normalize_words (c :: raw)) as (ws & -> & Hws & Hst). split.
    + unfold split. by rewrite fields_from_join.
    + eapply Forall_impl; [|exact settled_not_upper].
      apply join_chars; [by split|done].
Qed.

(** ** Bulk import over the API *)

Lemma import_races_lacks_key rs : ∀ d idm_m idm_t r,
  r ∈ rs → race_in_lacks_key r → import_races d idm_m idm_t rs = None.
Proof.
  induction rs as [|r0 rs IH]; intros d idm_m idm_t r; [by intros ?%elem_of_nil|].
  intros [->|Hin]%elem_of_cons Hlacks; simpl.
  - destruct Hlacks as [H|[H|[H|[H|H]]]]; rewrite H; simpl; try done;
      repeat (match goal with |- context [?x ≫= _] => destruct x; simpl end;
              try done).
  - repeat (match goal with
            | |- context [?x ≫= _] => destruct x; simpl
            end; try done).
    by eapply IH.
Qed.

(** X15.  [import_data] raises and writes nothing when one race of the
    payload lacks one of the keys [mogi_id], [track_id], [index],
    [position], [points]: no part of such a payload is imported. *)
Theorem import_data_lacks_key d user now payload r :
  r ∈ ip_races payload → race_in_lacks_key r →
  import_data d user now (Some payload) = (Raised, d).
Proof.
  intros Hin Hlacks. unfold import_data, import_data_atomic.
  destruct (import_tracks d ∅ (ip_tracks payload)) as [[d1 idt]|]; simpl;
    [|done].
  destruct (import_mogis d1 user now ∅ (ip_mogis payload)) as [[d2 idm]|];
    simpl; [|done].
  by rewrite (import_races_lacks_key _ _ _ _ r Hin Hlacks).
Qed.

Lemma import_data_lacks_key_witness :
  import_data two_race_db 7 400 (Some no_points_payload) = (Raised, two_race_db).
Proof.
  apply (import_data_lacks_key two_race_db 7 400 no_points_payload
           {| ri_mogi_id := Some 1; ri_track_id := Some 1; ri_index := Some 1;
              ri_position := Some 3; ri_points := None |}).
  - by left.
  - unfold race_in_lacks_key. simpl. tauto.
Defined.

Lemma import_mogis_size ms : ∀ d user now idm d' idm',
  import_mogis d user now idm ms = Some (d', idm') →
  size (mogis d') = (size (mogis d) + length ms)%nat
  ∧ (∀ k m, mogis d !! k = Some m → mogis d' !! k = Some m)
  ∧ ∀ k m, mogis d' !! k = Some m → mogis d !! k = None → mogi_owner m = user.
Proof.
  induction ms as [|m ms IH]; intros d user now idm d' idm'; simpl.
  - intros [= <- <-]. split; [lia|]. split; [done|]. congruence.
  - destruct (mi_finalized m) as [fin|]; simpl; [|done].
    destruct (mi_id m) as [id|]; simpl; [|done].
    intros Hrest. destruct (IH _ _ _ _ _ _ Hrest) as (Hsize & Hmono & Hown).
    simpl in *. rewrite map_size_insert_None in Hsize by apply next_pk_fresh.
    split; [lia|]. split.
    + intros k row Hk. apply Hmono. rewrite lookup_insert_ne; [done|].
      intros <-. by rewrite next_pk_fresh in Hk.
    + intros k row Hk Hnew.
      destruct (decide (next_pk (mogis d) = k)) as [<-|Hne].
      * rewrite (Hmono (next_pk (mogis d)) _ (lookup_insert_eq _ _ _)) in Hk.
        by injection Hk as <-.
      * apply (Hown k row Hk). by rewrite lookup_insert_ne.
Qed.

Lemma import_races_size rs : ∀ d idm_m idm_t d',
  import_races d idm_m idm_t rs = Some d' →
  size (races d') = (size (races d) + length rs)%nat ∧ mogis d' = mogis d.
Proof.
  induction rs as [|r rs IH]; intros d idm_m idm_t d'; simpl.
  - intros [= <-]. split; [lia|done].
  - destruct (ri_mogi_id r ≫= _) as [mogi|]; simpl; [|done].
    destruct (ri_track_id r ≫= _) as [trk|]; simpl; [|done].
    destruct (ri_index r); simpl; [|done].
    destruct (ri_position r); simpl; [|done].
    destruct (ri_points r); simpl; [|done].
    destruct (Race_create d _) as [d1|] eqn:Hrace; simpl; [|done].
    intros Hrest. destruct (IH _ _ _ _ Hrest) as [Hsize Hm].
    rewrite (Race_create_races _ _ _ Hrace) in Hsize.
    rewrite map_size_insert_None in Hsize by apply next_pk_fresh.
    rewrite (Race_create_mogis _ _ _ Hrace) in Hm. split; [lia|done].
Qed.

(** X16.  A successful [import_data] creates one new session for every
    session of the payload and one new race for every race of the
    payload, whatever the database already holds; the new sessions belong
    to the importing user and the sessions that were there are kept. *)
Theorem import_data_counts d user now payload d' :
  import_data d user now (Some payload) = (JsonOk, d') →
  size (mogis d') = (size (mogis d) + length (ip_mogis payload))%nat
  ∧ size (races d') = (size (races d) + length (ip_races payload))%nat
  ∧ (∀ k m, mogis d !! k = Some m → mogis d' !! k = Some m)
  ∧ ∀ k m, mogis d' !! k = Some m → mogis d !! k = None → mogi_owner m = user.
Proof.
  unfold import_data, import_data_atomic.
  destruct (import_tracks d ∅ (ip_tracks payload)) as [[d1 idt]|] eqn:Ht;
    simpl; [|done].
  destruct (import_mogis d1 user now ∅ (ip_mogis payload)) as [[d2 idm]|]
    eqn:Hm; simpl; [|done].
  destruct (import_races d2 idm idt (ip_races payload)) as [d3|] eqn:Hr;
    [|done].
  intros [= <-].
  destruct (import_tracks_keeps _ _ _ _ _ Ht) as (Hr1 & Hm1 & _).
  destruct (import_mogis_keeps _ _ _ _ _ _ _ Hm) as [Hr2 _].
  destruct (import_mogis_size _ _ _ _ _ _ _ Hm) as (Hsize & Hmono & Hown).
  destruct (import_races_size _ _ _ _ _ Hr) as [Hsize3 Hm3].
  rewrite Hm3, Hsize3, Hr2, Hr1. rewrite Hm1 in Hsize, Hmono, Hown. done.
Qed.

Lemma import_data_counts_witness :
  size (mogis zero_based_db) = (size (mogis empty_db) + 1)%nat
  ∧ size (races zero_based_db) = (size (races empty_db) + 12)%nat
  ∧ (∀ k m, mogis empty_db !! k = Some m → mogis zero_based_db !! k = Some m)
  ∧ ∀ k m, mogis zero_based_db !! k = Some m → mogis empty_db !! k = None →
           mogi_owner m = 7.
Proof.
  apply (import_data_counts empty_db 7 100 zero_based_payload). by vm_compute.
Defined.

(** ** The import command *)

Lemma ensure_track_id_mogis d name d' pk :
  ensure_track_id d name = Some (d', pk) → mogis d' = mogis d.
Proof.
  unfold ensure_track_id. case_decide; [done|].
  apply Track_get_or_create_mogis.
Qed.

Lemma handle_races_counts rs : ∀ d obj i n d' n',
  handle_races d obj i n rs = Some (d', n') →
  mogis d' = mogis d ∧ n ≤ n' ≤ n + Z.of_nat (length rs)
  ∧ Z.of_nat (size (races d')) = Z.of_nat (size (races d)) + (n' - n).
Proof.
  induction rs as [|r rs IH]; intros d obj i n d' n'; simpl.
  - intros [= <- <-]. split; [done|]. lia.
  - destruct (ensure_track_id d (rb_track r)) as [[d1 tid]|] eqn:Htrk.
    + destruct (Race_create d1 _) as [d2|] eqn:Hrace; simpl; [|done].
      intros Hrest. destruct (IH _ _ _ _ _ _ Hrest) as (Hm & Hn & Hsize).
      rewrite (Race_create_races _ _ _ Hrace) in Hsize.
      rewrite map_size_insert_None in Hsize by apply next_pk_fresh.
      rewrite (Race_create_mogis _ _ _ Hrace) in Hm.
      rewrite (ensure_track_id_mogis _ _ _ _ Htrk) in Hm.
      rewrite (ensure_track_id_races _ _ _ _ Htrk) in Hsize.
      split; [done|]. lia.
    + intros Hrest. destruct (IH _ _ _ _ _ _ Hrest) as (Hm & Hn & Hsize).
      split; [done|]. lia.
Qed.

Lemma handle_blocks_counts blocks : ∀ d user now im ir d' im' ir',
  handle_blocks d user now im ir blocks = Some (d', im', ir') →
  im' = im + Z.of_nat (length blocks)
  ∧ size (mogis d') = (size (mogis d) + length blocks)%nat
  ∧ ir ≤ ir' ≤ ir + Z.of_nat (length (blocks ≫= mb_races))
  ∧ Z.of_nat (size (races d')) = Z.of_nat (size (races d)) + (ir' - ir).
Proof.
  induction blocks as [|b blocks IH]; intros d user now im ir d' im' ir'; simpl.
  - intros [= <- <- <-]. repeat split; lia.
  - destruct (handle_races _ _ _ _ _) as [[d2 n2]|] eqn:Hraces; simpl; [|done].
    intros Hrest.
    destruct (IH _ _ _ _ _ _ _ _ Hrest) as (Him & Hms & Hir & Hrs).
    destruct (handle_races_counts _ _ _ _ _ _ _ Hraces) as (Hm2 & Hn2 & Hs2).
    simpl in *. rewrite Hm2 in Hms.
    rewrite map_size_insert_None in Hms by apply next_pk_fresh.
    rewrite length_app.
    change (list_bind _ _ mb_races blocks) with (blocks ≫= mb_races).
    repeat split; lia.
Qed.

(** X17.  When the import command succeeds, the number of sessions it
    reports is the number of blocks, and that many sessions were created,
    also for blocks none of whose races could be imported; the number of
    races it reports is the number of races created, at most the number
    of races in the blocks. *)
Theorem handle_import_counts d user now blocks im ir d' :
  handle_import d user now blocks = (Imported im ir, d') →
  im = Z.of_nat (length blocks)
  ∧ size (mogis d') = (size (mogis d) + length blocks)%nat
  ∧ 0 ≤ ir ≤ Z.of_nat (length (blocks ≫= mb_races))
  ∧ Z.of_nat (size (races d')) = Z.of_nat (size (races d)) + ir.
Proof.
  unfold handle_import.
  destruct (handle_blocks d user now 0 0 blocks) as [[[d2 im2] ir2]|] eqn:Hb;
    [|done].
  intros [= <- <- <-].
  destruct (handle_blocks_counts _ _ _ _ _ _ _ _ _ Hb) as (? & ? & ? & ?).
  repeat split; lia.
Qed.

Lemma handle_import_counts_witness :
  1 = Z.of_nat (length [one_race_block None])
  ∧ size (mogis (handle_import two_race_db 7 400 [one_race_block None]).2)
    = (size (mogis two_race_db) + length [one_race_block None])%nat
  ∧ 0 ≤ 1 ≤ Z.of_nat (length ([one_race_block None] ≫= mb_races))
  ∧ Z.of_nat
      (size (races (handle_import two_race_db 7 400 [one_race_block None]).2))
    = Z.of_nat (size (races two_race_db)) + 1.
Proof.
  apply (handle_import_counts two_race_db 7 400 [one_race_block None] 1 1).
  by vm_compute.
Defined.

Lemma chunks_concat_take (l : list flat_race) m :
  concat ((λ k, take 12 (drop (12 * k) l)) <$> seq 0 m) = take (12 * m) l.
Proof.
  induction m as [|m IH]; [by rewrite Nat.mul_0_r|].
  rewrite seq_S, fmap_app, concat_app, IH. simpl. rewrite app_nil_r.
  rewrite take_take_drop. f_equal. lia.
Qed.

Lemma normalize_group_lookup g : ∀ i (j : nat) r,
  g !! j = Some r →
  ∃ rb, normalize_group i g !! j = Some rb
        ∧ rb_index rb = Some (flat_index r (i + Z.of_nat j)).
Proof.
  induction g as [|r0 g IH]; intros i j r; [done|].
  destruct j as [|j]; simpl.
  - intros [= ->]. eexists. split; [done|]. simpl. unfold flat_index.
    by rewrite Z.add_0_r.
  - intros Hj. destruct (IH (i + 1) j r Hj) as (rb & Hrb & Hidx).
    exists rb. split; [done|]. rewrite Hidx. do 2 f_equal. lia.
Qed.

Lemma length_normalize_group g : ∀ i, length (normalize_group i g) = length g.
Proof. induction g as [|r g IH]; intros i; simpl; [done|]. by rewrite IH. Qed.

Lemma length_bind_blocks (f : list flat_race → mogi_block) gs :
  (∀ g, length (mb_races (f g)) = length g) →
  length ((f <$> gs) ≫= mb_races) = length (concat gs).
Proof.
  intros Hf. induction gs as [|g gs IH]; [done|].
  rewrite fmap_cons, bind_cons. simpl. rewrite !length_app, IH, Hf. done.
Qed.

(** X18.  A flat history without a grouping key is cut into sessions of
    twelve races in order: race [j] (counted from 0) is race [j mod 12] of
    session [j / 12], its default number is [j mod 12 + 1], and its session
    is marked finalized exactly when it has all twelve races; no race is
    lost or repeated. *)
Theorem parse_flat_races_chunks races j r :
  find_group_key races = None → races !! j = Some r →
  length (parse_flat_races races ≫= mb_races) = length races
  ∧ ∃ b rb, parse_flat_races races !! (j / 12)%nat = Some b
      ∧ mb_races b !! (j mod 12)%nat = Some rb
      ∧ rb_index rb = Some (flat_index r (Z.of_nat (j mod 12) + 1))
      ∧ mb_finalized b
        = bool_decide (12 * (j / 12) + 12 ≤ length races)%nat.
Proof.
  intros Hkey Hj. unfold parse_flat_races. rewrite Hkey. unfold chunks_of_12.
  set (n := length races). set (m := ((n + 11) / 12)%nat).
  assert (j < n)%nat as Hjn by (by eapply lookup_lt_Some).
  pose proof (Nat.div_mod_eq j 12) as Hdm.
  pose proof (Nat.mod_upper_bound j 12) as Hmod.
  pose proof (Nat.div_mod_eq (n + 11) 12) as Hdm'.
  pose proof (Nat.mod_upper_bound (n + 11) 12) as Hmod'.
  fold m in Hdm'.
  set (q := (j / 12)%nat) in *. set (i := (j mod 12)%nat) in *.
  split.
  - rewrite length_bind_blocks by (intros g; apply length_normalize_group).
    rewrite chunks_concat_take, take_ge by (fold n; lia). done.
  - rewrite !list_lookup_fmap, lookup_seq_lt by lia.
    change (0 + q)%nat with q. cbn [fmap option_fmap option_map].
    assert (take 12 (drop (12 * q) races) !! i = Some r) as Hi.
    { rewrite lookup_take_lt, lookup_drop by lia. rewrite <- Hj. f_equal. lia. }
    destruct (normalize_group_lookup _ 1 i r Hi) as (rb & Hrb & Hidx).
    eexists _, rb. split; [done|]. cbn [mb_races mb_finalized].
    split; [done|]. split.
    + rewrite Hidx. do 2 f_equal. lia.
    + rewrite length_normalize_group, length_take, length_drop. fold n.
      apply bool_decide_ext. lia.
Qed.

Lemma parse_flat_races_chunks_witness :
  length (parse_flat_races thirteen_flat_races ≫= mb_races)
  = length thirteen_flat_races
  ∧ ∃ b rb, parse_flat_races thirteen_flat_races !! (12 / 12)%nat = Some b
      ∧ mb_races b !! (12 mod 12)%nat = Some rb
      ∧ rb_index rb
        = Some (flat_index
                  {| fr_track := Some (Py.str "Rainbow Road");
                     fr_track_name := None; fr_track_obj_name := None;
                     fr_position := Some 1; fr_finish := None;
                     fr_place := None; fr_index := None;
                     fr_race_number := None; fr_points := None;
                     fr_keys := [] |}
                  (Z.of_nat (12 mod 12) + 1))
      ∧ mb_finalized b
        = bool_decide (12 * (12 / 12) + 12 ≤ length thirteen_flat_races)%nat.
Proof.
  apply (parse_flat_races_chunks thirteen_flat_races 12); by vm_compute.
Defined.

(** ** Pages *)

Lemma StronglySorted_lookup {A} (R : relation A) (l : list A) i j x y :
  StronglySorted R l → (i < j)%nat → l !! i = Some x → l !! j = Some y → R x y.
Proof.
  intros Hs. revert i j. induction Hs as [|a l Hs IH Hall]; intros i j Hij;
    [done|].
  destruct j as [|j]; [lia|]. destruct i as [|i]; simpl.
  - intros [= <-] Hy. apply (proj1 (Forall_forall _ _) Hall).
    by eapply list_elem_of_lookup_2.
  - apply IH. lia.
Qed.

Lemma numbering_notin ids : ∀ acc i k,
  k ∉ ids → numbering acc i ids !! k = acc !! k.
Proof.
  induction ids as [|a ids IH]; intros acc i k Hk; simpl; [done|].
  apply not_elem_of_cons in Hk as [Hne Hk].
  rewrite IH by done. by rewrite lookup_insert_ne.
Qed.

Lemma numbering_lookup ids : ∀ acc i (j : nat) k,
  NoDup ids → ids !! j = Some k →
  numbering acc i ids !! k = Some (i + Z.of_nat j + 1).
Proof.
  induction ids as [|a ids IH]; intros acc i j k Hnd Hj; [done|].
  apply NoDup_cons in Hnd as [Ha Hnd]. destruct j as [|j]; simpl in *.
  - injection Hj as ->. rewrite numbering_notin by done.
    rewrite lookup_insert_eq. f_equal. lia.
  - rewrite (IH _ _ j k Hnd Hj). f_equal. lia.
Qed.

Lemma finalized_mogis_elem d user k m :
  (k, m) ∈ finalized_mogis d user ↔
  mogis d !! k = Some m ∧ mogi_owner m = user ∧ mogi_finalized m = true.
Proof.
  unfold finalized_mogis. rewrite list_elem_of_filter, elem_of_map_to_list.
  simpl. tauto.
Qed.

Lemma finalized_mogis_NoDup d user :
  NoDup ((merge_sort created_before (finalized_mogis d user)).*1).
Proof.
  rewrite merge_sort_Permutation. unfold finalized_mogis.
  eapply sublist_NoDup; [apply (NoDup_fst_map_to_list (mogis d))|].
  apply fmap_sublist, sublist_filter.
Qed.

(** X19.  [_mogi_numbering_map] numbers the finalized sessions of the user,
    and only those, from 1 to their count; two sessions get different
    numbers, and a session created earlier gets the smaller number. *)
Theorem mogi_numbering_map_order d user k1 m1 k2 m2 :
  mogis d !! k1 = Some m1 → mogi_owner m1 = user → mogi_finalized m1 = true →
  mogis d !! k2 = Some m2 → mogi_owner m2 = user → mogi_finalized m2 = true →
  (∀ k n, _mogi_numbering_map d user !! k = Some n →
          ∃ m, (k, m) ∈ finalized_mogis d user)
  ∧ ∃ n1 n2, _mogi_numbering_map d user !! k1 = Some n1
      ∧ _mogi_numbering_map d user !! k2 = Some n2
      ∧ 1 ≤ n1 ≤ Z.of_nat (length (finalized_mogis d user))
      ∧ (k1 ≠ k2 → n1 ≠ n2)
      ∧ (mogi_created_at m1 < mogi_created_at m2 → n1 < n2).
Proof.
  intros H1 Ho1 Hf1 H2 Ho2 Hf2. unfold _mogi_numbering_map.
  set (sorted := merge_sort created_before (finalized_mogis d user)).
  pose proof (finalized_mogis_NoDup d user) as Hnd. fold sorted in Hnd.
  assert (sorted ≡ₚ finalized_mogis d user) as Hperm
    by apply merge_sort_Permutation.
  split.
  - intros k n Hk. destruct (decide (k ∈ sorted.*1)) as [Hin|Hnot].
    + apply list_elem_of_fmap in Hin as ([k' m] & -> & Hin). exists m.
      by rewrite <- Hperm.
    + rewrite numbering_notin in Hk by done. by rewrite lookup_empty in Hk.
  - assert ((k1, m1) ∈ sorted) as Hin1
      by (rewrite Hperm; by apply finalized_mogis_elem).
    assert ((k2, m2) ∈ sorted) as Hin2
      by (rewrite Hperm; by apply finalized_mogis_elem).
    apply list_elem_of_lookup in Hin1 as [i1 Hi1].
    apply list_elem_of_lookup in Hin2 as [i2 Hi2].
    assert (sorted.*1 !! i1 = Some k1) as Hk1
      by (by rewrite list_lookup_fmap, Hi1).
    assert (sorted.*1 !! i2 = Some k2) as Hk2
      by (by rewrite list_lookup_fmap, Hi2).
    exists (0 + Z.of_nat i1 + 1), (0 + Z.of_nat i2 + 1).
    split; [by apply numbering_lookup|].
    split; [by apply numbering_lookup|].
    apply lookup_lt_Some in Hi1 as Hlt1. rewrite Hperm in Hlt1.
    split; [lia|]. split.
    + intros Hne Heq. assert (i1 = i2) as -> by lia. congruence.
    + intros Hlt. destruct (decide (i1 < i2)%nat) as [|Hge]; [lia|].
      destruct (decide (i1 = i2)) as [->|Hne].
      * rewrite Hi1 in Hi2. injection Hi2 as _ <-. lia.
      * assert (created_before (k2, m2) (k1, m1)) as Hle.
        { apply (StronglySorted_lookup created_before sorted i2 i1);
            [|lia|done|done].
          apply StronglySorted_merge_sort;
            [apply created_before_trans|apply created_before_total]. }
        unfold created_before in Hle. simpl in Hle. lia.
Qed.

Lemma mogi_numbering_map_order_witness :
  (∀ k n, _mogi_numbering_map two_finalized_db 7 !! k = Some n →
          ∃ m, (k, m) ∈ finalized_mogis two_finalized_db 7)
  ∧ ∃ n1 n2, _mogi_numbering_map two_finalized_db 7 !! 1 = Some n1
      ∧ _mogi_numbering_map two_finalized_db 7 !! 2 = Some n2
      ∧ 1 ≤ n1 ≤ Z.of_nat (length (finalized_mogis two_finalized_db 7))
      ∧ (1 ≠ 2 → n1 ≠ n2)
      ∧ (100 < 300 → n1 < n2).
Proof.
  apply (mogi_numbering_map_order two_finalized_db 7
           1 {| mogi_owner := 7; mogi_created_at := 100;
                mogi_finalized := true; mogi_note := [];
                mogi_played_at := 100 |}
           2 {| mogi_owner := 7; mogi_created_at := 300;
                mogi_finalized := true; mogi_note := [];
                mogi_played_at := 300 |}); by vm_compute.
Defined.

Lemma dist_map_count rs p :
  default 0 (dist_map rs !! p)
  = Z.of_nat (length (filter (λ kr, race_position kr.2 = p) rs)).
Proof.
  induction rs as [|[k r] rs IH]; simpl; [by rewrite lookup_empty|].
  rewrite lookup_insert. case_decide as Heq.
  - rewrite filter_cons_True by done. simpl. rewrite <- Heq in IH.
    rewrite IH. rewrite <- Heq. lia.
  - rewrite filter_cons_False by done. done.
Qed.

Lemma sum_Z_cons x l : sum_Z (x :: l) = x + sum_Z l.
Proof. done. Qed.

Lemma sum_Z_indicator (x : Z) l :
  NoDup l →
  sum_Z ((λ p, if decide (x = p) then 1 else 0) <$> l)
  = if decide (x ∈ l) then 1 else 0.
Proof.
  induction 1 as [|a l Ha Hnd IH]; [done|].
  rewrite fmap_cons, sum_Z_cons, IH.
  destruct (decide (x = a)) as [->|Hne].
  - rewrite decide_False by done. rewrite decide_True by by left. done.
  - destruct (decide (x ∈ l)) as [Hin|Hnot].
    + rewrite decide_True by by right. done.
    + rewrite decide_False; [done|]. by intros [?|?]%elem_of_cons.
Qed.

Lemma sum_Z_plus {A} (f g : A → Z) l :
  sum_Z ((λ p, f p + g p) <$> l) = sum_Z (f <$> l) + sum_Z (g <$> l).
Proof.
  induction l as [|a l IH]; [done|].
  rewrite !fmap_cons, !sum_Z_cons, IH. lia.
Qed.

Lemma sum_Z_zero {A} (l : list A) : sum_Z ((λ _, 0) <$> l) = 0.
Proof. induction l as [|a l IH]; [done|]. by rewrite fmap_cons, sum_Z_cons, IH. Qed.

Lemma sum_Z_counts (rs : list (Z * Race)) l :
  NoDup l →
  sum_Z ((λ p, Z.of_nat (length (filter (λ kr, race_position kr.2 = p) rs)))
           <$> l)
  = Z.of_nat (length (filter (λ kr, race_position kr.2 ∈ l) rs)).
Proof.
  intros Hnd. induction rs as [|[k r] rs IH]; [apply sum_Z_zero|].
  rewrite (list_fmap_ext _
             (λ p, (if decide (race_position r = p) then 1 else 0)
                   + Z.of_nat
                       (length (filter (λ kr, race_position kr.2 = p) rs)))).
  2: { intros _ p _. rewrite filter_cons. simpl. case_decide; simpl; lia. }
  rewrite sum_Z_plus, IH, sum_Z_indicator by done.
  rewrite (filter_cons _ (k, r)). simpl. case_decide; simpl; lia.
Qed.

Lemma finish_dist_sum rs :
  sum_Z (finish_dist rs).*2
  = Z.of_nat (length (filter (λ kr, 1 ≤ race_position kr.2 ≤ 12) rs)).
Proof.
  transitivity
    (sum_Z ((λ p, Z.of_nat
                    (length (filter (λ kr, race_position kr.2 = p) rs)))
              <$> seqZ 1 12)).
  { unfold finish_dist. rewrite <- list_fmap_compose. f_equal.
    apply list_fmap_ext. intros _ i _. simpl. by rewrite dist_map_count. }
  rewrite (sum_Z_counts rs (seqZ 1 12)) by apply NoDup_seqZ.
  f_equal. f_equal. apply list_filter_iff. intros [k r]. simpl.
  rewrite elem_of_seqZ. lia.
Qed.

(** X20.  Each entry of [finish_dist] counts the races at its position,
    and together the twelve entries count the races whose position is
    from 1 to 12: a race stored with another position is left out of the
    distribution. *)
Theorem finish_dist_counts rs :
  finish_dist rs
  = (λ i, (i, Z.of_nat (length (filter (λ kr, race_position kr.2 = i) rs))))
      <$> seqZ 1 12
  ∧ sum_Z (finish_dist rs).*2
    = Z.of_nat (length (filter (λ kr, 1 ≤ race_position kr.2 ≤ 12) rs)).
Proof.
  split; [|apply finish_dist_sum].
  unfold finish_dist. apply list_fmap_ext. intros _ i _.
  by rewrite dist_map_count.
Qed.

Lemma filter_all {A} (P : A → Prop) `{!∀ x, Decision (P x)} (l : list A) :
  Forall P l → filter P l = l.
Proof.
  induction 1 as [|x l Hx _ IH]; [done|].
  by rewrite filter_cons_True, IH.
Qed.

(** X29.  In a database the session engine has built, the distribution
    on the page of a track leaves no race out: its twelve counts add up
    to the number of races of the user on the track. *)
Theorem track_detail_distribution d user track :
  engine_reachable d →
  sum_Z (finish_dist (track_races d user track)).*2
  = Z.of_nat (length (track_races d user track)).
Proof.
  intros Hinv%engine_reachable_inv. rewrite finish_dist_sum. do 2 f_equal.
  apply filter_all, Forall_forall. intros [k r] Hin. simpl.
  unfold track_races in Hin. apply list_elem_of_filter in Hin as [_ Hin].
  apply elem_of_map_to_list in Hin.
  by destruct (inv_race _ Hinv k r Hin) as (_ & ? & _).
Qed.

Lemma track_detail_distribution_witness :
  sum_Z (finish_dist (track_races two_race_db 7 1)).*2
  = Z.of_nat (length (track_races two_race_db 7 1)).
Proof.
  apply (track_detail_distribution two_race_db 7 1).
  apply engine_reachable_two_race_db.
Defined.

(** ** The maintenance command: what happens to the races *)

Lemma recanonicalize_rows_races rows : ∀ d canon_map d',
  recanonicalize_rows d canon_map rows = Some d' →
  NoDup (rows.*1) →
  (∀ k t, (k, t) ∈ rows → tracks d !! k = Some t) →
  (∀ c k, canon_map !! c = Some k →
     (k ∉ rows.*1) ∧ ∃ t, tracks d !! k = Some t ∧ track_name t = c) →
  mogis d' = mogis d
  ∧ ∀ k r t, races d !! k = Some r → tracks d !! race_track r = Some t →
      ∃ r' t', races d' !! k = Some r'
        ∧ race_mogi r' = race_mogi r ∧ race_index r' = race_index r
        ∧ race_position r' = race_position r ∧ race_points r' = race_points r
        ∧ tracks d' !! race_track r' = Some t'
        ∧ track_name t'
          = if decide (race_track r ∈ rows.*1)
            then canonicalize_track (track_name t) else track_name t.
Proof.
  induction rows as [|[k0 t0] rows IH]; intros d canon_map d' Hrun Hnd Hrows Hmap.
  - injection Hrun as <-. split; [done|]. intros k r t Hk Ht.
    exists r, t. rewrite decide_False by by intros ?%elem_of_nil. done.
  - simpl in Hrun. apply NoDup_cons in Hnd as [Hk0 Hnd].
    assert (tracks d !! k0 = Some t0) as Hk0t by (apply Hrows; by left).
    set (canon := canonicalize_track (track_name t0)) in *.
    destruct (canon_map !! canon) as [target|] eqn:Htarget.
    + destruct (Hmap _ _ Htarget) as (Hpend & tt & Htt & Hname).
      assert (target ≠ k0) as Hne by (intros ->; apply Hpend; by left).
      apply IH in Hrun as [Hm Hraces]; [|done| |].
      * split; [done|]. intros k r t Hk Ht.
        destruct (decide (race_track r = k0)) as [Heq|Hneq].
        -- rewrite Heq, Hk0t in Ht. injection Ht as <-.
           destruct (Hraces k
                       {| race_mogi := race_mogi r; race_track := target;
                          race_index := race_index r;
                          race_position := race_position r;
                          race_points := race_points r |} tt)
             as (r' & t' & Hr' & ? & ? & ? & ? & Ht' & Hn').
           { simpl. rewrite lookup_fmap, Hk. simpl. by rewrite decide_True. }
           { simpl. by rewrite lookup_delete_ne. }
           exists r', t'. simpl in *. repeat split; try done.
           rewrite Hn'. rewrite decide_False.
           2: { intros Hin. apply Hpend. by right. }
           rewrite decide_True by (rewrite Heq; by left). done.
        -- destruct (Hraces k r t) as (r' & t' & Hr' & ? & ? & ? & ? & Ht' & Hn').
           { simpl. rewrite lookup_fmap, Hk. simpl. by rewrite decide_False. }
           { simpl. by rewrite lookup_delete_ne. }
           exists r', t'. repeat split; try done. rewrite Hn'.
           destruct (decide (race_track r ∈ rows.*1)) as [Hin|Hnot].
           ++ rewrite decide_True by by right. done.
           ++ rewrite decide_False; [done|].
              by intros [?|?]%elem_of_cons.
      * intros k t Hin. simpl. rewrite lookup_delete_ne; [by apply Hrows; right|].
        intros <-. apply Hk0. apply list_elem_of_fmap. by exists (k0, t).
      * intros c k Hck. destruct (Hmap _ _ Hck) as (Hp & t & Ht & Hn).
        split; [by intros ?; apply Hp; right|].
        exists t. split; [|done]. simpl. rewrite lookup_delete_ne; [done|].
        intros <-. apply Hp. by left.
    + destruct (Track_update d k0 _) as [d1|] eqn:Hupd; simpl in Hrun; [|done].
      apply Track_update_Some in Hupd as [-> _].
      set (t1 := Track_save _) in *.
      assert (track_name t1 = canon) as Hn1.
      { unfold t1, Track_save, canon. simpl. apply canonicalize_track_fixed. }
      apply IH in Hrun as [Hm Hraces]; [|done| |].
      * split; [done|]. intros k r t Hk Ht.
        destruct (decide (race_track r = k0)) as [Heq|Hneq].
        -- rewrite Heq, Hk0t in Ht. injection Ht as <-.
           destruct (Hraces k r t1)
             as (r' & t' & Hr' & ? & ? & ? & ? & Ht' & Hn'); [done| |].
           { simpl. rewrite Heq. apply lookup_insert_eq. }
           exists r', t'. repeat split; try done. rewrite Hn'.
           rewrite decide_False by (by rewrite Heq).
           rewrite decide_True by (rewrite Heq; by left). done.
        -- destruct (Hraces k r t)
             as (r' & t' & Hr' & ? & ? & ? & ? & Ht' & Hn'); [done| |].
           { simpl. by rewrite lookup_insert_ne. }
           exists r', t'. repeat split; try done. rewrite Hn'.
           destruct (decide (race_track r ∈ rows.*1)) as [Hin|Hnot].
           ++ rewrite decide_True by by right. done.
           ++ rewrite decide_False; [done|].
              by intros [?|?]%elem_of_cons.
      * intros k t Hin. simpl. rewrite lookup_insert_ne; [by apply Hrows; right|].
        intros <-. apply Hk0. apply list_elem_of_fmap. by exists (k0, t).
      * intros c k. rewrite lookup_insert. case_decide as Hc.
        -- intros [= <-]. split; [done|]. exists t1. split; [|by rewrite Hn1].
           simpl. apply lookup_insert_eq.
        -- intros Hck. destruct (Hmap _ _ Hck) as (Hp & t & Ht & Hn).
           split; [by intros ?; apply Hp; right|].
           exists t. split; [|done]. simpl. rewrite lookup_insert_ne; [done|].
           intros <-. apply Hp. by left.
Qed.

(** X21.  When the maintenance command finishes, no session has changed
    and every race is still there with its session, number, place and
    points; the track of the race exists and is named by the canonical
    form of the name of the track the race had. *)
Theorem recanonicalize_keeps_races d d' k r t :
  recanonicalize_rows d ∅ (Track_all d) = Some d' →
  races d !! k = Some r → tracks d !! race_track r = Some t →
  recanonicalize_all d = d' ∧ mogis d' = mogis d
  ∧ ∃ r' t', races d' !! k = Some r'
      ∧ race_mogi r' = race_mogi r ∧ race_index r' = race_index r
      ∧ race_position r' = race_position r ∧ race_points r' = race_points r
      ∧ tracks d' !! race_track r' = Some t'
      ∧ track_name t' = canonicalize_track (track_name t).
Proof.
  intros Hrun Hk Ht. split; [unfold recanonicalize_all; by rewrite Hrun|].
  pose proof (Track_all_Permutation d) as Hperm.
  apply recanonicalize_rows_races in Hrun as [Hm Hraces].
  - split; [done|].
    destruct (Hraces k r t Hk Ht) as (r' & t' & ? & ? & ? & ? & ? & ? & Hn).
    exists r', t'. repeat split; try done. rewrite Hn.
    rewrite decide_True; [done|]. rewrite Hperm.
    apply list_elem_of_fmap. exists (race_track r, t).
    split; [done|]. by apply elem_of_map_to_list.
  - rewrite Hperm. apply NoDup_fst_map_to_list.
  - intros j tj Hin. rewrite Hperm in Hin. by apply elem_of_map_to_list.
  - intros c j. by rewrite lookup_empty.
Qed.

Lemma recanonicalize_keeps_races_witness :
  recanonicalize_all sample_catalogue = recanonicalize_all sample_catalogue
  ∧ mogis (recanonicalize_all sample_catalogue) = mogis sample_catalogue
  ∧ ∃ r' t', races (recanonicalize_all sample_catalogue) !! 1 = Some r'
      ∧ race_mogi r' = 1 ∧ race_index r' = 1
      ∧ race_position r' = 1 ∧ race_points r' = 15
      ∧ tracks (recanonicalize_all sample_catalogue) !! race_track r' = Some t'
      ∧ track_name t' = canonicalize_track (Py.str "bowser castle 2").
Proof.
  apply (recanonicalize_keeps_races sample_catalogue
           (recanonicalize_all sample_catalogue) 1
           {| race_mogi := 1; race_track := 2; race_index := 1;
              race_position := 1; race_points := 15 |}
           {| track_name := Py.str "bowser castle 2";
              track_slug := Py.str "bowser-castle-2" |}); by vm_compute.
Defined.

(** ** Format A of the import command *)



Lemma parse_A_races_no_track rs : ∀ mogis_out idx_map blocks,
  parse_A_races mogis_out idx_map rs = Some blocks →
  Forall (λ b, Forall (λ r, rb_track r = None) (mb_races b)) mogis_out →
  length blocks = length mogis_out
  ∧ Forall (λ b, Forall (λ r, rb_track r = None) (mb_races b)) blocks.
Proof.
  induction rs as [|r rs IH]; intros mogis_out idx_map blocks; simpl.
  - by intros [= <-].
  - destruct (ri_mogi_id r) as [mogi_id|]; simpl; [|done].
    destruct (idx_map !! mogi_id) as [m_idx|]; simpl; [|done].
    intros Hrest Hall. apply IH in Hrest as [Hlen Hall'].
    + by rewrite length_alter in Hlen.
    + apply Forall_alter; [done|]. intros b _ Hb. simpl.
      apply Forall_app. split; [done|]. by repeat constructor.
Qed.

Lemma parse_A_tracks_keeps ts : ∀ d d1 ok,
  parse_A_tracks d ts = (d1, ok) →
  races d1 = races d ∧ mogis d1 = mogis d
  ∧ (∀ k row, tracks d !! k = Some row → tracks d1 !! k = Some row)
  ∧ (ok = true → ∀ t, t ∈ ts →
       ∃ k row, tracks d1 !! k = Some row
         ∧ track_name row = canonicalize_track (default [] (ti_name t))).
Proof.
  induction ts as [|t ts IH]; intros d d1 ok; simpl.
  - intros [= <- <-]. repeat split; try done. by intros _ t ?%elem_of_nil.
  - destruct (ti_id t) as [id|].
    2: { intros [= <- <-]. by repeat split. }
    destruct (ensure_track_id d (ti_name t)) as [[d2 pk]|] eqn:Htrk.
    2: { intros [= <- <-]. by repeat split. }
    intros Hrest. destruct (IH _ _ _ Hrest) as (Hr & Hm & Hmono & Hall).
    rewrite (ensure_track_id_races _ _ _ _ Htrk) in Hr.
    rewrite (ensure_track_id_mogis _ _ _ _ Htrk) in Hm.
    split; [done|]. split; [done|]. split.
    + intros k row Hk. apply Hmono. revert Htrk. unfold ensure_track_id.
      case_decide; [done|]. intros Htrk.
      by eapply Track_get_or_create_mono.
    + intros Hok t' [->|Hin]%elem_of_cons; [|by apply Hall].
      revert Htrk. unfold ensure_track_id. case_decide; [done|].
      intros [[-> (row & Hrow & Hn)]|[_ ->]]%Track_get_or_create_row.
      * exists pk, row. split; [by apply Hmono|done].
      * eexists pk, _. split; [apply Hmono, lookup_insert_eq|].
        unfold Track_save. simpl. by rewrite canonicalize_track_fixed.
Qed.

Lemma parse_format_A_Some d data d1 blocks :
  parse_format_A d data = (d1, Some blocks) →
  parse_A_tracks d (ip_tracks data) = (d1, true)
  ∧ length blocks = length (ip_mogis data)
  ∧ Forall (λ b, Forall (λ r, rb_track r = None) (mb_races b)) blocks.
Proof.
  unfold parse_format_A.
  destruct (parse_A_tracks d (ip_tracks data)) as [d2 [|]]; [|done].
  intros [= <- Hblocks]. split; [done|].
  destruct (parse_A_idx_map ∅ 0 (ip_mogis data)) as [idx_map|]; [|done].
  simpl in Hblocks. apply parse_A_races_no_track in Hblocks as [Hlen Hall].
  - by rewrite length_fmap in Hlen.
  - apply Forall_fmap, Forall_true. intros m. simpl. constructor.
Qed.



(** X23.  A dry run of the import command on a file of format A is not
    dry: when the file parses, every track it lists is in the database
    afterwards under its canonical name, as a new row if no track had that
    name; sessions and races are left alone. *)
Theorem handle_A_dry_run_writes_tracks d data blocks t :
  (parse_format_A d data).2 = Some blocks → t ∈ ip_tracks data →
  races (handle_A_dry_run d data) = races d
  ∧ mogis (handle_A_dry_run d data) = mogis d
  ∧ ∃ k row, tracks (handle_A_dry_run d data) !! k = Some row
      ∧ track_name row = canonicalize_track (default [] (ti_name t))
      ∧ (tracks_named d (canonicalize_track (default [] (ti_name t))) = [] →
         tracks d !! k = None).
Proof.
  unfold handle_A_dry_run.
  destruct (parse_format_A d data) as [d1 res] eqn:Hparse. simpl.
  intros -> Hin.
  apply parse_format_A_Some in Hparse as (Htracks & _).
  destruct (parse_A_tracks_keeps _ _ _ _ Htracks) as (Hr & Hm & Hmono & Hall).
  split; [done|]. split; [done|].
  destruct (Hall eq_refl t Hin) as (k & row & Hk & Hn).
  exists k, row. split; [done|]. split; [done|].
  intros Hnone. destruct (tracks d !! k) as [row'|] eqn:Hk'; [|done].
  exfalso. pose proof (Hmono _ _ Hk') as Hk1. rewrite Hk in Hk1.
  injection Hk1 as ->.
  assert ((k, row') ∈ tracks_named d
            (canonicalize_track (default [] (ti_name t)))) as Hel.
  { unfold tracks_named. apply list_elem_of_filter. split; [done|].
    by apply elem_of_map_to_list. }
  rewrite Hnone in Hel. by apply elem_of_nil in Hel.
Qed.

Lemma handle_A_dry_run_writes_tracks_witness :
  races (handle_A_dry_run empty_db one_race_export) = races empty_db
  ∧ mogis (handle_A_dry_run empty_db one_race_export) = mogis empty_db
  ∧ ∃ k row, tracks (handle_A_dry_run empty_db one_race_export) !! k = Some row
      ∧ track_name row
        = canonicalize_track (default [] (Some (Py.str "rainbow road")))
      ∧ (tracks_named empty_db
           (canonicalize_track (default [] (Some (Py.str "rainbow road")))) = []
         → tracks empty_db !! k = None).
Proof.
  apply (handle_A_dry_run_writes_tracks empty_db one_race_export
           [ {| mb_finalized := true; mb_note := [];
                mb_races := [ {| rb_track := None; rb_position := Some 3;
                                 rb_index := Some 12;
                                 rb_points := Some 10 |} ] |} ]
           {| ti_id := Some 1; ti_name := Some (Py.str "rainbow road") |}).
  - by vm_compute.
  - by left.
Defined.

(** ** The command that backfills [played_at] *)

Lemma id_le_trans : Transitive id_le.
Proof. intros x y z. unfold id_le. lia. Qed.

Lemma id_le_total : Total id_le.
Proof. intros x y. unfold id_le. lia. Qed.

Lemma StronglySorted_filter {A} (R : relation A) (P : A → Prop)
    `{!∀ x, Decision (P x)} (l : list A) :
  StronglySorted R l → StronglySorted R (filter P l).
Proof.
  induction 1 as [|a l Hs IH Hall]; [constructor|].
  rewrite filter_cons. case_decide; [|done]. constructor; [done|].
  apply Forall_forall. intros y [_ Hy]%list_elem_of_filter.
  by apply (proj1 (Forall_forall _ _) Hall).
Qed.

Lemma backfill_rows_notin rows : ∀ ms base i k,
  k ∉ rows.*1 → backfill_rows ms base i rows !! k = ms !! k.
Proof.
  induction rows as [|[k0 m0] rows IH]; intros ms base i k Hk; [done|].
  apply not_elem_of_cons in Hk as [Hne Hk]. simpl.
  rewrite IH by done. by rewrite lookup_alter_ne.
Qed.

Lemma backfill_rows_lookup rows : ∀ ms base i (j : nat) k,
  NoDup (rows.*1) → rows.*1 !! j = Some k →
  backfill_rows ms base i rows !! k
  = set_played_at (base + minutes (i + Z.of_nat j)) <$> ms !! k.
Proof.
  induction rows as [|[k0 m0] rows IH]; intros ms base i j k Hnd Hj; [done|].
  apply NoDup_cons in Hnd as [Hk0 Hnd]. destruct j as [|j]; simpl in *.
  - injection Hj as ->. rewrite backfill_rows_notin by done.
    rewrite lookup_alter_eq. by rewrite Z.add_0_r.
  - rewrite (IH _ _ _ j k Hnd Hj).
    rewrite lookup_alter_ne.
    2: { intros ->. apply Hk0. by eapply list_elem_of_lookup_2. }
    do 3 f_equal. unfold minutes. lia.
Qed.

Lemma backfill_qs_elem d username k m :
  (k, m) ∈ backfill_qs d username ↔
  mogis d !! k = Some m ∧ owner_selected username m = true.
Proof.
  unfold backfill_qs. rewrite list_elem_of_filter, merge_sort_Permutation.
  rewrite elem_of_map_to_list. simpl. tauto.
Qed.

Lemma backfill_owner_rows d username owner_id :
  let rows := filter (λ km, mogi_owner km.2 = owner_id) (backfill_qs d username) in
  NoDup (rows.*1) ∧ StronglySorted id_le rows
  ∧ ∀ k m, (k, m) ∈ rows ↔
      mogis d !! k = Some m ∧ owner_selected username m = true
      ∧ mogi_owner m = owner_id.
Proof.
  intros rows. split; [|split].
  - apply (sublist_NoDup _ ((merge_sort id_le (map_to_list (mogis d))).*1)).
    + rewrite merge_sort_Permutation. apply NoDup_fst_map_to_list.
    + apply fmap_sublist. unfold rows, backfill_qs.
      etrans; apply sublist_filter.
  - unfold rows, backfill_qs. do 2 apply StronglySorted_filter.
    apply StronglySorted_merge_sort; [apply id_le_trans|apply id_le_total].
  - intros k m. unfold rows. rewrite list_elem_of_filter, backfill_qs_elem.
    simpl. tauto.
Qed.

Lemma owner_selected_set_played_at username t m :
  owner_selected username (set_played_at t m) = owner_selected username m.
Proof. by destruct username. Qed.

(** One round: the rows of the owner are dated in the order of their
    keys, and no other row is touched. *)
Lemma backfill_owner_spec username now d o :
  let d' := backfill_owner username now d o in
  tracks d' = tracks d ∧ races d' = races d
  ∧ (∀ k m, mogis d !! k = Some m →
       mogi_owner m ≠ o ∨ owner_selected username m = false →
       mogis d' !! k = Some m)
  ∧ (∀ k m, mogis d !! k = Some m → mogi_owner m = o →
       owner_selected username m = true →
       ∃ j : nat, mogis d' !! k
                  = Some (set_played_at (now - days 365 + minutes (Z.of_nat j)) m)
         ∧ ∀ k2 m2 (j2 : nat),
             mogis d !! k2 = Some m2 → mogi_owner m2 = o →
             owner_selected username m2 = true →
             mogis d' !! k2
             = Some (set_played_at (now - days 365 + minutes (Z.of_nat j2)) m2) →
             k < k2 → (j < j2)%nat).
Proof.
  intros d'. unfold d', backfill_owner.
  destruct (backfill_owner_rows d username o) as (Hnd & Hsorted & Helem).
  set (rows := filter _ _) in *. simpl.
  assert (∀ k m, mogis d !! k = Some m → mogi_owner m = o →
                 owner_selected username m = true →
                 ∃ j : nat, rows !! j = Some (k, m)) as Hidx.
  { intros k m Hk Ho Hsel. apply list_elem_of_lookup, Helem. done. }
  assert (∀ (j : nat) k m, rows !! j = Some (k, m) →
            backfill_rows (mogis d) (now - days 365) 0 rows !! k
            = Some (set_played_at (now - days 365 + minutes (Z.of_nat j)) m))
    as Hval.
  { intros j k m Hj.
    rewrite (backfill_rows_lookup rows _ _ 0 j k Hnd)
      by (by rewrite list_lookup_fmap, Hj).
    assert (mogis d !! k = Some m) as ->.
    { apply (Helem k m). by eapply list_elem_of_lookup_2. }
    simpl. by rewrite Z.add_0_l. }
  split; [done|]. split; [done|]. split.
  - intros k m Hk Hout. rewrite backfill_rows_notin; [done|].
    intros ([k' m'] & -> & Hin)%list_elem_of_fmap. simpl in *.
    apply Helem in Hin as (Hk' & Hsel & Ho).
    rewrite Hk in Hk'. injection Hk' as <-.
    destruct Hout; congruence.
  - intros k m Hk Ho Hsel. destruct (Hidx k m Hk Ho Hsel) as [j Hj].
    exists j. split; [by apply Hval|].
    intros k2 m2 j2 Hk2 Ho2 Hsel2 Hval2 Hlt.
    destruct (Hidx k2 m2 Hk2 Ho2 Hsel2) as [j2' Hj2].
    rewrite (Hval j2' k2 m2 Hj2) in Hval2. injection Hval2 as Heq.
    unfold minutes in Heq. assert (j2' = j2) as -> by lia.
    destruct (decide (j < j2)%nat) as [|Hge]; [done|]. exfalso.
    destruct (decide (j = j2)) as [->|Hne]; [rewrite Hj in Hj2; simplify_eq; lia|].
    assert (id_le (k2, m2) (k, m)) as Hle.
    { apply (StronglySorted_lookup id_le rows j2 j); [done|lia|done|done]. }
    unfold id_le in Hle. simpl in Hle. lia.
Qed.

Lemma backfill_fold_spec username now os : ∀ d,
  NoDup os →
  let d' := foldl (backfill_owner username now) d os in
  tracks d' = tracks d ∧ races d' = races d
  ∧ (∀ k m, mogis d !! k = Some m →
       mogi_owner m ∉ os ∨ owner_selected username m = false →
       mogis d' !! k = Some m)
  ∧ (∀ k1 m1 k2 m2,
       mogis d !! k1 = Some m1 → mogis d !! k2 = Some m2 →
       mogi_owner m1 ∈ os → mogi_owner m2 = mogi_owner m1 →
       owner_selected username m1 = true → k1 < k2 →
       ∃ j1 j2 : nat,
         mogis d' !! k1
         = Some (set_played_at (now - days 365 + minutes (Z.of_nat j1)) m1)
         ∧ mogis d' !! k2
           = Some (set_played_at (now - days 365 + minutes (Z.of_nat j2)) m2)
         ∧ (j1 < j2)%nat).
Proof.
  induction os as [|o os IH]; intros d Hnd; simpl.
  - repeat split; try done. by intros ???? _ _ ?%elem_of_nil.
  - apply NoDup_cons in Hnd as [Ho Hnd].
    destruct (backfill_owner_spec username now d o) as (Ht & Hr & Hout & Hin).
    destruct (IH (backfill_owner username now d o) Hnd)
      as (Ht' & Hr' & Hout' & Hin').
    split; [congruence|]. split; [congruence|]. split.
    + intros k m Hk Hcase. apply Hout'.
      * apply Hout; [done|]. destruct Hcase as [Hnot|?]; [left|by right].
        intros <-. apply Hnot. by left.
      * destruct Hcase as [Hnot|?]; [left|by right].
        intros ?. apply Hnot. by right.
    + intros k1 m1 k2 m2 Hk1 Hk2 Hos Hsame Hsel Hlt.
      assert (owner_selected username m2 = true) as Hsel2.
      { destruct username as [u|]; [|done]. simpl in *.
        apply bool_decide_eq_true in Hsel. apply bool_decide_eq_true.
        congruence. }
      destruct (decide (mogi_owner m1 = o)) as [Heq|Hne].
      * destruct (Hin k1 m1 Hk1 Heq Hsel) as (j1 & Hv1 & Hord).
        destruct (Hin k2 m2 Hk2) as (j2 & Hv2 & _); [congruence|done|].
        exists j1, j2. split; [|split].
        -- apply Hout'; [done|]. left. simpl. by rewrite Heq.
        -- apply Hout'; [done|]. left. simpl. by rewrite Hsame, Heq.
        -- apply (Hord k2 m2 j2); [done|congruence|done|done|done].
      * apply Hin'; try done.
        -- apply Hout; [done|]. by left.
        -- apply Hout; [done|]. left. congruence.
        -- apply elem_of_cons in Hos as [?|?]; [congruence|done].
Qed.

(** X24.  After [backfill_played_at], two sessions of one owner that the
    command covers are played in the order of their keys: the session
    with the smaller key has the strictly earlier [played_at], not before
    a year ago; nothing but [played_at] is written, and sessions of
    owners the command does not cover, tracks and races are untouched. *)
Theorem backfill_played_at_order d username now k1 m1 k2 m2 :
  mogis d !! k1 = Some m1 → mogis d !! k2 = Some m2 →
  mogi_owner m2 = mogi_owner m1 → owner_selected username m1 = true →
  k1 < k2 →
  tracks (backfill_played_at d username now) = tracks d
  ∧ races (backfill_played_at d username now) = races d
  ∧ (∀ k m, mogis d !! k = Some m → owner_selected username m = false →
       mogis (backfill_played_at d username now) !! k = Some m)
  ∧ ∃ t1 t2,
      mogis (backfill_played_at d username now) !! k1
      = Some (set_played_at t1 m1)
      ∧ mogis (backfill_played_at d username now) !! k2
        = Some (set_played_at t2 m2)
      ∧ now - days 365 ≤ t1 < t2.
Proof.
  intros Hk1 Hk2 Hsame Hsel Hlt. unfold backfill_played_at.
  set (os := remove_dups _).
  destruct (backfill_fold_spec username now os d (NoDup_remove_dups _))
    as (Ht & Hr & Hout & Hin).
  split; [done|]. split; [done|]. split.
  - intros k m Hk Hnot. apply Hout; [done|by right].
  - destruct (Hin k1 m1 k2 m2 Hk1 Hk2) as (j1 & j2 & Hv1 & Hv2 & Hj);
      try done.
    { unfold os. apply elem_of_remove_dups, list_elem_of_fmap.
      exists (k1, m1). split; [done|]. by apply backfill_qs_elem. }
    eexists _, _. split; [exact Hv1|]. split; [exact Hv2|].
    unfold minutes. lia.
Qed.

Lemma backfill_played_at_order_witness :
  tracks (backfill_played_at unordered_db None 1000) = tracks unordered_db
  ∧ races (backfill_played_at unordered_db None 1000) = races unordered_db
  ∧ (∀ k m, mogis unordered_db !! k = Some m →
       owner_selected None m = false →
       mogis (backfill_played_at unordered_db None 1000) !! k = Some m)
  ∧ ∃ t1 t2,
      mogis (backfill_played_at unordered_db None 1000) !! 1
      = Some (set_played_at t1
                {| mogi_owner := 7; mogi_created_at := 50;
                   mogi_finalized := true; mogi_note := [];
                   mogi_played_at := 900 |})
      ∧ mogis (backfill_played_at unordered_db None 1000) !! 2
        = Some (set_played_at t2
                  {| mogi_owner := 7; mogi_created_at := 60;
                     mogi_finalized := false; mogi_note := [];
                     mogi_played_at := 100 |})
      ∧ 1000 - days 365 ≤ t1 < t2.
Proof.
  apply (backfill_played_at_order unordered_db None 1000 1 _ 2 _);
    try (by vm_compute); lia.
Defined.

(** ** Flat histories with a grouping key *)

Lemma grouped_append_keys grouped k r :
  (grouped_append grouped k r).*1
  = if decide (k ∈ grouped.*1) then grouped.*1 else grouped.*1 ++ [k].
Proof.
  induction grouped as [|[k' g'] grouped IH].
  - by destruct (decide (k ∈ ([] : list (option Z * list flat_race)).*1))
      as [?%elem_of_nil|].
  - cbn [grouped_append]. destruct (decide (k' = k)) as [->|Hk].
    + rewrite !fmap_cons. cbn [fst].
      rewrite decide_True by by left. done.
    + rewrite !fmap_cons, IH. cbn [fst].
      destruct (decide (k ∈ grouped.*1)).
      * rewrite decide_True by by right. done.
      * rewrite decide_False; [done|]. intros [?|?]%elem_of_cons; done.
Qed.

Lemma grouped_append_elem grouped k r v g :
  NoDup (grouped.*1) → (v, g) ∈ grouped_append grouped k r →
  (v ≠ k ∧ (v, g) ∈ grouped)
  ∨ (v = k ∧ ((∃ g0, (k, g0) ∈ grouped ∧ g = g0 ++ [r])
              ∨ ((k ∉ grouped.*1) ∧ g = [r]))).
Proof.
  induction grouped as [|[k' g'] grouped IH]; simpl.
  - intros _ [= -> ->]%list_elem_of_singleton. right. split; [done|]. right.
    split; [by intros ?%elem_of_nil|done].
  - intros [Hk' Hnd]%NoDup_cons. case_decide as Hk.
    + subst k'. intros [[= -> ->]|Hin]%elem_of_cons.
      * right. split; [done|]. left. exists g'. split; [by left|done].
      * left. split; [|by right]. intros ->. apply Hk'.
        apply list_elem_of_fmap. by exists (k, g).
    + intros [[= -> ->]|Hin]%elem_of_cons.
      * left. split; [done|by left].
      * destruct (IH Hnd Hin) as [[? ?]|[-> [(g0 & ? & ->)|[? ->]]]].
        -- left. split; [done|by right].
        -- right. split; [done|]. left. exists g0. split; [by right|done].
        -- right. split; [done|]. right. split; [|done].
           intros [?|?]%elem_of_cons; done.
Qed.

Lemma groups_of_step key seen grouped r :
  groups_of key seen grouped →
  groups_of key (seen ++ [r]) (grouped_append grouped (key r) r).
Proof.
  intros (Hnd & Hgroups & Hkeys). split; [|split].
  - rewrite grouped_append_keys. case_decide as Hin; [done|].
    apply NoDup_app. split; [done|]. split; [|apply NoDup_singleton].
    by intros k Hk ->%list_elem_of_singleton.
  - intros v g Hin. rewrite filter_app.
    apply grouped_append_elem in Hin
      as [[Hne Hin]|[-> [(g0 & Hin & ->)|[Hnew ->]]]]; [| | |done].
    + destruct (Hgroups v g Hin) as [<- ?]. split; [|done].
      rewrite (filter_cons_False (λ r', key r' = v) r) by done.
      by rewrite app_nil_r.
    + destruct (Hgroups _ g0 Hin) as [<- ?].
      rewrite (filter_cons_True (λ r', key r' = key r) r) by done.
      split; [done|]. by intros [_ ?]%app_eq_nil.
    + rewrite (filter_cons_True (λ r', key r' = key r) r) by done.
      rewrite (filter_none (λ r', key r' = key r) seen); [done|].
      apply Forall_forall. intros r' Hr' Heq. apply Hnew.
      rewrite <- Heq. by apply Hkeys.
  - intros r' Hr'. rewrite grouped_append_keys.
    apply elem_of_app in Hr' as [Hr'|Hr'].
    + apply Hkeys in Hr'. case_decide; [done|].
      apply elem_of_app. by left.
    + apply list_elem_of_singleton in Hr' as ->.
      case_decide; [done|]. apply elem_of_app. right. by left.
Qed.

Lemma groups_of_foldl key races : ∀ seen grouped,
  groups_of key seen grouped →
  groups_of key (seen ++ races)
    (foldl (λ grouped r, grouped_append grouped (key r) r) grouped races).
Proof.
  induction races as [|r races IH]; intros seen grouped Hinv; simpl.
  - by rewrite app_nil_r.
  - rewrite (cons_middle r seen races), app_assoc. apply IH.
    by apply groups_of_step.
Qed.

(** X25.  With a grouping key, [parse_flat_races] makes one block for each
    value of the key, the races without the key counting as one value:
    the block holds all the races with that value, in the order of the
    history and however many they are. *)
Theorem parse_flat_races_groups races key b :
  find_group_key races = Some key →
  b ∈ parse_flat_races races ↔
  ∃ r0, r0 ∈ races
    ∧ b = flat_block (filter (λ r, fr_get r key = fr_get r0 key) races).
Proof.
  intros Hkey. unfold parse_flat_races. rewrite Hkey.
  destruct (groups_of_foldl (λ r, fr_get r key) races [] [])
    as (Hnd & Hgroups & Hkeys).
  { split; [constructor|]. split; intros *; by intros ?%elem_of_nil. }
  simpl in *. set (grouped := foldl _ _ _) in *.
  rewrite <- list_fmap_compose, list_elem_of_fmap. split.
  - intros ([v g] & -> & Hin). destruct (Hgroups v g Hin) as [Hg Hne].
    destruct g as [|r0 g]; [done|].
    assert (r0 ∈ filter (λ r, fr_get r key = v) races) as Hr0
      by (rewrite <- Hg; by left).
    apply list_elem_of_filter in Hr0 as [Hv Hr0]. exists r0.
    split; [done|]. simpl in Hv. subst v. by rewrite <- Hg.
  - intros (r0 & Hr0 & ->). apply Hkeys in Hr0.
    apply list_elem_of_fmap in Hr0 as ([v g] & Hv & Hin). simpl in Hv.
    subst v. exists (fr_get r0 key, g). split; [|done]. simpl.
    by destruct (Hgroups _ g Hin) as [<- _].
Qed.

Lemma parse_flat_races_groups_witness :
  flat_block (replicate 13
    {| fr_track := Some (Py.str "Rainbow Road"); fr_track_name := None;
       fr_track_obj_name := None; fr_position := Some 1;
       fr_finish := None; fr_place := None; fr_index := None;
       fr_race_number := None; fr_points := None;
       fr_keys := [("mogi_id"%string, 5)] |})
    ∈ parse_flat_races keyed_flat_races ↔
  ∃ r0, r0 ∈ keyed_flat_races
    ∧ flat_block (replicate 13
        {| fr_track := Some (Py.str "Rainbow Road"); fr_track_name := None;
           fr_track_obj_name := None; fr_position := Some 1;
           fr_finish := None; fr_place := None; fr_index := None;
           fr_race_number := None; fr_points := None;
           fr_keys := [("mogi_id"%string, 5)] |})
      = flat_block (filter (λ r, fr_get r "mogi_id" = fr_get r0 "mogi_id")
                      keyed_flat_races).
Proof.
  apply (parse_flat_races_groups keyed_flat_races "mogi_id"). by vm_compute.
Defined.

(** ** Export and import *)

Lemma import_tracks_rows rows : ∀ d0 idm,
  NoDup (rows.*1) →
  (∀ k t, (k, t) ∈ rows → Track_save t = t) →
  (∀ k1 t1 k2 t2, (k1, t1) ∈ rows → (k2, t2) ∈ rows → k1 ≠ k2 →
     track_name t1 ≠ track_name t2 ∧ track_slug t1 ≠ track_slug t2) →
  (∀ k' t' k t, tracks d0 !! k' = Some t' → (k, t) ∈ rows →
     track_name t' ≠ track_name t ∧ track_slug t' ≠ track_slug t) →
  ∃ d1 idm1,
    import_tracks d0 idm (export_track <$> rows) = Some (d1, idm1)
    ∧ races d1 = races d0 ∧ mogis d1 = mogis d0
    ∧ ∀ k t, (k, t) ∈ rows →
        ∃ k', idm1 !! k = Some k' ∧ tracks d1 !! k' = Some t.
Proof.
  induction rows as [|[k t] rows IH]; intros d0 idm Hnd Hsaved Hdist Hinv.
  - exists d0, idm. repeat split; try done. by intros ?? ?%elem_of_nil.
  - apply NoDup_cons in Hnd as [Hk Hnd].
    assert (Track_save t = t) as Ht by (apply (Hsaved k); by left).
    assert (canonicalize_track (track_name t) = track_name t) as Hname.
    { rewrite <- Ht at 2. done. }
    assert (Track_save {| track_name := track_name t;
                          track_slug := slug_for_track (track_name t) |} = t)
      as Hrow.
    { rewrite <- Ht at 3. unfold Track_save. simpl. by rewrite Hname. }
    assert (Track_get_or_create d0 (track_name t) (slug_for_track (track_name t))
            = Some (with_tracks d0 (<[next_pk (tracks d0) := t]> (tracks d0)),
                    next_pk (tracks d0))) as Hcreate.
    { unfold Track_get_or_create, tracks_named.
      rewrite filter_none.
      2: { apply Forall_forall. intros [k' t'] Hin%elem_of_map_to_list Heq.
           destruct (Hinv k' t' k t Hin) as [Hne _]; [by left|]. done. }
      unfold Track_insert. rewrite Hrow. rewrite decide_True; [done|].
      intros k' t' Hin. right. apply (Hinv k' t' k t Hin). by left. }
    destruct (IH (with_tracks d0 (<[next_pk (tracks d0) := t]> (tracks d0)))
                 (<[k := next_pk (tracks d0)]> idm) Hnd)
      as (d1 & idm1 & Himp & Hr & Hm & Hrows).
    { intros k2 t2 Hin. apply (Hsaved k2). by right. }
    { intros k1 t1 k2 t2 H1 H2. apply Hdist; by right. }
    { intros k' t' k2 t2. simpl. rewrite lookup_insert. case_decide.
      - intros [= <-] Hin. apply (Hdist k _ k2); [by left|by right|].
        intros ->. apply Hk. apply list_elem_of_fmap. by exists (k2, t2).
      - intros Hk' Hin. apply (Hinv k' t' k2 t2 Hk'). by right. }
    exists d1, idm1. split.
    { rewrite fmap_cons. cbn [import_tracks export_track ti_name ti_id fst snd].
      simpl. rewrite Hname, Hcreate. simpl. exact Himp. }
    split; [done|]. split; [done|].
    intros k2 t2 [[= -> ->]|Hin]%elem_of_cons; [|by apply Hrows].
    destruct (import_tracks_keeps _ _ _ _ _ Himp) as (_ & _ & _ & Hmono & Hkeep).
    exists (next_pk (tracks d0)). split.
    + apply Hkeep; [apply lookup_insert_eq|].
      apply Forall_fmap, Forall_forall. intros [k3 t3] Hin [= <-]. simpl in *.
      apply Hk. apply list_elem_of_fmap. by exists (k3, t3).
    + apply Hmono. simpl. apply lookup_insert_eq.
Qed.

Lemma import_mogis_rows user now mrows : ∀ d0 idm0,
  NoDup (mrows.*1) →
  (∀ k k', idm0 !! k = Some k' → is_Some (mogis d0 !! k')) →
  (∀ k1 k2 k', idm0 !! k1 = Some k' → idm0 !! k2 = Some k' → k1 = k2) →
  ∃ d2 idm,
    import_mogis d0 user now idm0 (export_mogi <$> mrows) = Some (d2, idm)
    ∧ (∀ k m, (k, m) ∈ mrows →
         ∃ k', idm !! k = Some k'
               ∧ mogis d2 !! k' = Some (imported_mogi user now m))
    ∧ (∀ k1 k2 k', idm !! k1 = Some k' → idm !! k2 = Some k' → k1 = k2)
    ∧ (∀ k k', idm0 !! k = Some k' → k ∉ mrows.*1 → idm !! k = Some k')
    ∧ (∀ k' m', mogis d0 !! k' = Some m' → mogis d2 !! k' = Some m').
Proof.
  induction mrows as [|[k m] mrows IH]; intros d0 idm0 Hnd Hvals Hinj.
  - exists d0, idm0. repeat split; try done. by intros ?? ?%elem_of_nil.
  - apply NoDup_cons in Hnd as [Hk Hnd].
    set (pk := next_pk (mogis d0)).
    set (d0' := with_mogis d0 (<[pk := imported_mogi user now m]> (mogis d0))).
    destruct (IH d0' (<[k := pk]> idm0) Hnd)
      as (d2 & idm & Himp & Hrows & Hinj' & Hkeep & Hmono).
    { intros k1 k'. rewrite lookup_insert. case_decide.
      - intros [= <-]. simpl. rewrite lookup_insert_eq. by eexists.
      - intros Hk1. simpl. apply lookup_insert_is_Some.
        destruct (decide (pk = k')); [by left|right]. split; [done|].
        by eapply Hvals. }
    { intros k1 k2 k'. rewrite !lookup_insert.
      assert (∀ k0, idm0 !! k0 = Some pk → False) as Hfresh.
      { intros k0 Hk0. destruct (Hvals _ _ Hk0) as [x Hx].
        unfold pk in Hx. by rewrite next_pk_fresh in Hx. }
      destruct (decide (k = k1)) as [<-|Hk1], (decide (k = k2)) as [<-|Hk2];
        try done.
      - intros [= <-] Hk2'. by destruct (Hfresh k2).
      - intros Hk1' [= <-]. by destruct (Hfresh k1).
      - apply Hinj. }
    exists d2, idm. split; [exact Himp|]. split; [|split; [done|split]].
    + intros k2 m2 [[= -> ->]|Hin]%elem_of_cons; [|by apply Hrows].
      exists pk. split.
      * apply Hkeep; [apply lookup_insert_eq|done].
      * apply Hmono. simpl. apply lookup_insert_eq.
    + intros k0 k' Hk0 Hnot. apply not_elem_of_cons in Hnot as [Hne Hnot].
      apply Hkeep; [|done]. by rewrite lookup_insert_ne.
    + intros k' m' Hk'. apply Hmono. simpl. rewrite lookup_insert_ne; [done|].
      intros <-. unfold pk in Hk'. by rewrite next_pk_fresh in Hk'.
Qed.

Lemma import_races_rows idm idt rrows : ∀ d0,
  NoDup ((λ kr, (race_mogi kr.2, race_index kr.2)) <$> rrows) →
  (∀ k1 k2 k', idm !! k1 = Some k' → idm !! k2 = Some k' → k1 = k2) →
  (∀ rk r, (rk, r) ∈ rrows →
     is_Some (idm !! race_mogi r) ∧ is_Some (idt !! race_track r)
     ∧ 0 ≤ race_index r ∧ 0 ≤ race_position r ∧ race_points r ≠ 0) →
  (∀ rk' r' rk r, races d0 !! rk' = Some r' → (rk, r) ∈ rrows →
     ¬ (idm !! race_mogi r = Some (race_mogi r')
        ∧ race_index r' = race_index r)) →
  ∃ d3,
    import_races d0 idm idt (export_race <$> rrows) = Some d3
    ∧ ∀ rk r, (rk, r) ∈ rrows →
        ∃ rk' r', races d3 !! rk' = Some r'
          ∧ idm !! race_mogi r = Some (race_mogi r')
          ∧ idt !! race_track r = Some (race_track r')
          ∧ race_index r' = race_index r
          ∧ race_position r' = race_position r
          ∧ race_points r' = race_points r.
Proof.
  induction rrows as [|[rk r] rrows IH]; intros d0 Hnd Hinj Hok Hinv.
  - exists d0. split; [done|]. by intros ?? ?%elem_of_nil.
  - rewrite fmap_cons in Hnd. apply NoDup_cons in Hnd as [Hfirst Hnd].
    destruct (Hok rk r) as ([mogi' Hmogi] & [trk' Htrk] & Hi & Hp & Hpts);
      [by left|].
    set (new := {| race_mogi := mogi'; race_track := trk';
                   race_index := race_index r;
                   race_position := race_position r;
                   race_points := race_points r |}).
    assert (Race_save new = new) as Hsave.
    { unfold Race_save. by rewrite decide_False. }
    assert (Race_create d0 new
            = Some (with_races d0 (<[next_pk (races d0) := new]> (races d0))))
      as Hcreate.
    { unfold Race_create. rewrite Hsave. rewrite decide_True; [done|].
      split; [done|]. split; [done|]. intros rk' r' Hr' [Hm Hidx].
      apply (Hinv rk' r' rk r Hr'); [by left|]. simpl in *.
      split; [congruence|done]. }
    destruct (IH (with_races d0 (<[next_pk (races d0) := new]> (races d0))) Hnd
                Hinj) as (d3 & Himp & Hrows).
    { intros rk2 r2 Hin. apply (Hok rk2). by right. }
    { intros rk' r' rk2 r2. simpl. rewrite lookup_insert. case_decide.
      - intros [= <-] Hin [Hm Hidx]. simpl in *. apply Hfirst.
        apply list_elem_of_fmap. exists (rk2, r2). split; [|done]. simpl.
        f_equal; [|done]. by apply (Hinj _ _ mogi').
      - intros Hr' Hin. apply (Hinv rk' r' rk2 r2 Hr'). by right. }
    exists d3. split.
    { rewrite fmap_cons.
      cbn [import_races export_race ri_mogi_id ri_track_id ri_index
           ri_position ri_points fst snd].
      simpl. rewrite Hmogi, Htrk. simpl. fold new. rewrite Hcreate. simpl.
      exact Himp. }
    intros rk2 r2 [[= -> ->]|Hin]%elem_of_cons; [|by apply (Hrows rk2)].
    exists (next_pk (races d0)), new.
    destruct (import_races_keeps _ _ _ _ _ Himp) as [_ Hmono].
    split; [apply Hmono; simpl; apply lookup_insert_eq|]. done.
Qed.

Lemma mogis_of_elem d user k m :
  (k, m) ∈ mogis_of d user ↔ mogis d !! k = Some m ∧ mogi_owner m = user.
Proof.
  unfold mogis_of. rewrite merge_sort_Permutation, list_elem_of_filter.
  rewrite elem_of_map_to_list. simpl. tauto.
Qed.

Lemma races_of_owner_elem d user rk r :
  (rk, r) ∈ races_of_owner d user ↔
  races d !! rk = Some r ∧ mogi_owner <$> mogis d !! race_mogi r = Some user.
Proof.
  unfold races_of_owner. rewrite merge_sort_Permutation, list_elem_of_filter.
  rewrite elem_of_map_to_list. simpl. tauto.
Qed.

(** X26.  What [export_data] writes for a user, [import_data] reads back
    into an empty database: the import succeeds and creates one session
    for each session of the user, with the same [finalized] and [note],
    and in it one race for each race of the session, with the same number,
    place and points, on a track with the same name and slug.  The dates
    of the sessions are not kept: the new sessions are created and played
    at the time of the import. *)
Theorem export_import_round_trip d user user' now :
  engine_reachable d →
  ∃ d', import_data empty_db user' now (Some (export_data d user)) = (JsonOk, d')
    ∧ size (mogis d') = length (mogis_of d user)
    ∧ size (races d') = length (races_of_owner d user)
    ∧ ∀ k m, mogis d !! k = Some m → mogi_owner m = user →
        ∃ k', mogis d' !! k' = Some (imported_mogi user' now m)
          ∧ ∀ rk r, races d !! rk = Some r → race_mogi r = k →
              ∃ rk' r', races d' !! rk' = Some r' ∧ race_mogi r' = k'
                ∧ race_index r' = race_index r
                ∧ race_position r' = race_position r
                ∧ race_points r' = race_points r
                ∧ tracks d' !! race_track r' = tracks d !! race_track r.
Proof.
  intros Hinv%engine_reachable_inv.
  (* the tracks *)
  destruct (import_tracks_rows (Track_all d) empty_db ∅)
    as (d1 & idt & Ht & Hr1 & Hm1 & Hrows_t).
  { rewrite Track_all_Permutation. apply NoDup_fst_map_to_list. }
  { intros k t Hin. rewrite Track_all_Permutation in Hin.
    apply elem_of_map_to_list in Hin.
    destruct (inv_tracks _ Hinv k t Hin) as [? _]; [by intros ?%elem_of_nil|].
    done. }
  { intros k1 t1 k2 t2 H1 H2 Hne. rewrite Track_all_Permutation in H1, H2.
    apply elem_of_map_to_list in H1, H2.
    destruct (inv_tracks _ Hinv k1 t1 H1) as [_ Hother];
      [by intros ?%elem_of_nil|].
    apply (Hother k2 t2 H2); [by intros ?%elem_of_nil|done]. }
  { intros k' t' k t. simpl. by rewrite lookup_empty. }
  (* the sessions *)
  destruct (import_mogis_rows user' now (mogis_of d user) d1 ∅)
    as (d2 & idm & Hm & Hrows_m & Hinj & _ & _).
  { unfold mogis_of. rewrite merge_sort_Permutation.
    eapply sublist_NoDup; [apply (NoDup_fst_map_to_list (mogis d))|].
    apply fmap_sublist, sublist_filter. }
  { intros k k'. by rewrite lookup_empty. }
  { intros k1 k2 k'. by rewrite lookup_empty. }
  destruct (import_mogis_keeps _ _ _ _ _ _ _ Hm) as [Hr2 Ht2].
  destruct (import_mogis_size _ _ _ _ _ _ _ Hm) as (Hsize2 & _).
  (* the races *)
  destruct (import_races_rows idm idt (races_of_owner d user) d2)
    as (d3 & Hr & Hrows_r); [|done| | |].
  { unfold races_of_owner. rewrite merge_sort_Permutation.
    apply NoDup_fmap_2_strong; [|apply NoDup_filter, NoDup_map_to_list].
    intros [k1 r1] [k2 r2] [_ H1%elem_of_map_to_list]%list_elem_of_filter
      [_ H2%elem_of_map_to_list]%list_elem_of_filter [= Hsm Hsi].
    simpl in *.
    assert (k1 = k2) as -> by (by apply (inv_unique _ Hinv k1 r1 H1 k2 r2 H2)).
    congruence. }
  { intros rk r [Hrk Ho]%races_of_owner_elem.
    destruct (inv_race _ Hinv rk r Hrk) as (Hi & Hp & Hpts & _ & [t Htr]).
    destruct (mogis d !! race_mogi r) as [m|] eqn:Hmr; [|done].
    injection Ho as Ho.
    destruct (Hrows_m (race_mogi r) m) as (k' & -> & _);
      [by apply mogis_of_elem|].
    destruct (Hrows_t (race_track r) t) as (kt' & -> & _).
    { rewrite Track_all_Permutation. by apply elem_of_map_to_list. }
    split; [done|]. split; [done|]. split; [lia|]. split; [lia|].
    pose proof (DEFAULT_POINTS_table _ Hp) as Htab. rewrite <- Hpts in Htab.
    repeat (apply elem_of_cons in Htab as [Heq|Htab]; [simplify_eq; lia|]).
    by apply elem_of_nil in Htab. }
  { intros rk' r' rk r. rewrite Hr2, Hr1. simpl. by rewrite lookup_empty. }
  destruct (import_races_keeps _ _ _ _ _ Hr) as [Ht3 _].
  destruct (import_races_size _ _ _ _ _ Hr) as [Hsize3 Hm3].
  exists d3. split.
  { unfold import_data, import_data_atomic, export_data. simpl.
    rewrite Ht. simpl. rewrite Hm. simpl. by rewrite Hr. }
  split.
  { rewrite Hm3, Hsize2, Hm1. simpl. rewrite map_size_empty, length_fmap.
    done. }
  split.
  { rewrite Hsize3, Hr2, Hr1. simpl. rewrite map_size_empty, length_fmap.
    done. }
  intros k m Hk Ho.
  destruct (Hrows_m k m) as (k' & Hidm & Hk'); [by apply mogis_of_elem|].
  exists k'. split; [by rewrite Hm3|].
  intros rk r Hrk Hrm.
  destruct (Hrows_r rk r) as (rk' & r' & Hrk' & Hmogi & Htrk & ? & ? & ?).
  { apply races_of_owner_elem. split; [done|]. by rewrite Hrm, Hk, <- Ho. }
  exists rk', r'. split; [done|]. split; [congruence|].
  do 3 (split; [done|]).
  destruct (inv_race _ Hinv rk r Hrk) as (_ & _ & _ & _ & [t Htr]).
  destruct (Hrows_t (race_track r) t) as (kt' & Hidt & Hkt').
  { rewrite Track_all_Permutation. by apply elem_of_map_to_list. }
  rewrite Htr, Ht3, Ht2. congruence.
Qed.

Lemma export_import_round_trip_witness :
  ∃ d', import_data empty_db 9 500 (Some (export_data two_race_db 7))
        = (JsonOk, d')
    ∧ size (mogis d') = length (mogis_of two_race_db 7)
    ∧ size (races d') = length (races_of_owner two_race_db 7)
    ∧ ∀ k m, mogis two_race_db !! k = Some m → mogi_owner m = 7 →
        ∃ k', mogis d' !! k' = Some (imported_mogi 9 500 m)
          ∧ ∀ rk r, races two_race_db !! rk = Some r → race_mogi r = k →
              ∃ rk' r', races d' !! rk' = Some r' ∧ race_mogi r' = k'
                ∧ race_index r' = race_index r
                ∧ race_position r' = race_position r
                ∧ race_points r' = race_points r
                ∧ tracks d' !! race_track r' = tracks two_race_db !! race_track r.
Proof.
  apply (export_import_round_trip two_race_db 7 9 500).
  apply engine_reachable_two_race_db.
Defined.

(** ** What [undo_last] removes *)

(** X27.  When [undo_last] answers ok it has deleted exactly one race, the
    one with the highest number in the open session of the user; it
    deletes no track, also when that race was the only one on its track,
    and changes no session. *)
Theorem undo_last_removes_last d user now d' :
  undo_last d user now = (JsonOk, d') →
  ∃ rk r m,
    races d !! rk = Some r ∧ races d' = delete rk (races d)
    ∧ tracks d' = tracks d
    ∧ mogis d' = (_current_mogi d user now).1.(mogis)
    ∧ mogis d' !! race_mogi r = Some m
    ∧ mogi_owner m = user ∧ mogi_finalized m = false
    ∧ ∀ rk2 r2, races d !! rk2 = Some r2 → race_mogi r2 = race_mogi r →
        race_index r2 ≤ race_index r.
Proof.
  unfold undo_last. destruct (_current_mogi d user now) as [d1 mogi] eqn:Hcur.
  destruct (head (merge_sort index_after (races_of d1 mogi))) as [[rk r]|]
    eqn:Hhead; [|done].
  intros [= <-]. simpl.
  destruct (_current_mogi_lookup _ _ _ _ _ Hcur) as (m & Hm & Ho & Hopen).
  assert (tracks d1 = tracks d ∧ races d1 = races d) as [Ht Hr].
  { apply _current_mogi_change in Hcur as [->|(_ & _ & ->)]; done. }
  assert (∀ kr, kr ∈ races_of d1 mogi → race_index kr.2 ≤ race_index r)
    as Hmax.
  { intros kr Hin.
    apply (head_merge_sort_least _ _ _ _ index_after_trans index_after_total
             index_after_refl Hhead Hin). }
  apply head_merge_sort_elem in Hhead. apply races_of_elem in Hhead as [Hrk <-].
  exists rk, r, m. rewrite <- Hr.
  repeat split; try done.
  intros rk2 r2 Hrk2 Hsame. apply (Hmax (rk2, r2)).
  by apply races_of_elem.
Qed.

Lemma undo_last_removes_last_witness :
  ∃ rk r m,
    races two_race_db !! rk = Some r
    ∧ races (undo_last two_race_db 7 400).2 = delete rk (races two_race_db)
    ∧ tracks (undo_last two_race_db 7 400).2 = tracks two_race_db
    ∧ mogis (undo_last two_race_db 7 400).2
      = (_current_mogi two_race_db 7 400).1.(mogis)
    ∧ mogis (undo_last two_race_db 7 400).2 !! race_mogi r = Some m
    ∧ mogi_owner m = 7 ∧ mogi_finalized m = false
    ∧ ∀ rk2 r2, races two_race_db !! rk2 = Some r2 →
        race_mogi r2 = race_mogi r → race_index r2 ≤ race_index r.
Proof.
  apply (undo_last_removes_last two_race_db 7 400). by vm_compute.
Defined.

(** ** Importing twice *)

Lemma tracks_named_insert_other d pk row n :
  tracks d !! pk = None → track_name row ≠ n →
  tracks_named (with_tracks d (<[pk := row]> (tracks d))) n ≡ₚ tracks_named d n.
Proof.
  intros Hfresh Hne. unfold tracks_named. simpl.
  rewrite map_to_list_insert by done. by rewrite filter_cons_False.
Qed.

Lemma Track_get_or_create_named d n d1 pk :
  canonicalize_track n = n →
  Track_get_or_create d n (slug_for_track n) = Some (d1, pk) →
  ∃ row, tracks_named d1 n = [(pk, row)].
Proof.
  intros Hn. unfold Track_get_or_create.
  destruct (tracks_named d n) as [|[k row] [|??]] eqn:Hnamed; [| |done].
  - intros [-> ->]%Track_insert_Some.
    assert (Track_save {| track_name := n; track_slug := slug_for_track n |}
            = {| track_name := n; track_slug := slug_for_track n |}) as ->.
    { unfold Track_save. simpl. by rewrite Hn. }
    eexists. by apply (tracks_named_insert d _ {| track_name := n |});
      [apply next_pk_fresh|].
  - intros [= <- <-]. by exists row.
Qed.

Lemma Track_get_or_create_keeps_named d n' d1 pk' n named :
  canonicalize_track n' = n' →
  Track_get_or_create d n' (slug_for_track n') = Some (d1, pk') →
  tracks_named d n = [named] → tracks_named d1 n = [named].
Proof.
  intros Hn' Hcreate Hnamed. revert Hcreate. unfold Track_get_or_create.
  destruct (tracks_named d n') as [|[k row] [|??]] eqn:Hnamed'; [| |done].
  - intros [-> ->]%Track_insert_Some.
    apply Permutation_singleton_r. rewrite <- Hnamed.
    apply tracks_named_insert_other; [apply next_pk_fresh|].
    unfold Track_save. simpl. rewrite Hn'. intros ->. congruence.
  - by intros [= <- <-].
Qed.

Lemma import_tracks_keeps_named ts : ∀ d idm d1 idm1 n named,
  import_tracks d idm ts = Some (d1, idm1) →
  tracks_named d n = [named] → tracks_named d1 n = [named].
Proof.
  induction ts as [|t ts IH]; intros d idm d1 idm1 n named; simpl.
  - by intros [= <- <-].
  - destruct (ti_name t) as [name|]; simpl; [|done].
    destruct (Track_get_or_create _ _ _) as [[d2 pk]|] eqn:Hcreate; simpl;
      [|done].
    destruct (ti_id t) as [id|]; simpl; [|done].
    intros Hrest Hnamed. eapply IH; [exact Hrest|].
    eapply Track_get_or_create_keeps_named; [|exact Hcreate|done].
    apply canonicalize_track_fixed.
Qed.

Lemma import_tracks_all_named ts : ∀ d idm d1 idm1 t,
  import_tracks d idm ts = Some (d1, idm1) → t ∈ ts →
  ∃ name id named, ti_name t = Some name ∧ ti_id t = Some id
    ∧ tracks_named d1 (canonicalize_track name) = [named].
Proof.
  induction ts as [|t0 ts IH]; intros d idm d1 idm1 t; simpl;
    [by intros _ ?%elem_of_nil|].
  destruct (ti_name t0) as [name|] eqn:Hname; simpl; [|done].
  destruct (Track_get_or_create _ _ _) as [[d2 pk]|] eqn:Hcreate; simpl;
    [|done].
  destruct (ti_id t0) as [id|] eqn:Hid; simpl; [|done].
  intros Hrest [->|Hin]%elem_of_cons; [|by eapply IH].
  apply Track_get_or_create_named in Hcreate as [row Hrow];
    [|apply canonicalize_track_fixed].
  exists name, id, (pk, row). split; [done|]. split; [done|].
  by eapply import_tracks_keeps_named.
Qed.

Lemma import_tracks_again ts : ∀ d idm,
  (∀ t, t ∈ ts →
     ∃ name id named, ti_name t = Some name ∧ ti_id t = Some id
       ∧ tracks_named d (canonicalize_track name) = [named]) →
  ∃ idm1, import_tracks d idm ts = Some (d, idm1).
Proof.
  induction ts as [|t ts IH]; intros d idm Hall; simpl; [by eexists|].
  destruct (Hall t) as (name & id & named & -> & -> & Hnamed); [by left|].
  simpl. unfold Track_get_or_create. rewrite Hnamed. simpl.
  apply IH. intros t' Hin. apply Hall. by right.
Qed.

(** X28.  Importing the same payload a second time adds no track: the
    tracks of the payload are found under their canonical names, so the
    catalogue after the second import is the catalogue after the first,
    while sessions and races are created anew. *)
Theorem import_data_again_tracks d user now payload d' user2 now2 d'' :
  import_data d user now (Some payload) = (JsonOk, d') →
  import_data d' user2 now2 (Some payload) = (JsonOk, d'') →
  tracks d'' = tracks d'
  ∧ size (mogis d'') = (size (mogis d') + length (ip_mogis payload))%nat
  ∧ size (races d'') = (size (races d') + length (ip_races payload))%nat.
Proof.
  unfold import_data, import_data_atomic. intros Hfirst Hsecond.
  destruct (import_tracks d ∅ (ip_tracks payload)) as [[d1 idt]|] eqn:Ht;
    simpl in Hfirst; [|done].
  destruct (import_mogis d1 user now ∅ (ip_mogis payload)) as [[d2 idm]|]
    eqn:Hm; simpl in Hfirst; [|done].
  destruct (import_races d2 idm idt (ip_races payload)) as [d3|] eqn:Hr;
    [|done].
  injection Hfirst as <-.
  destruct (import_mogis_keeps _ _ _ _ _ _ _ Hm) as [_ Ht2].
  destruct (import_races_keeps _ _ _ _ _ Hr) as [Ht3 _].
  destruct (import_tracks_again (ip_tracks payload) d3 ∅) as [idt' Hagain].
  { intros t Hin.
    destruct (import_tracks_all_named _ _ _ _ _ t Ht Hin)
      as (name & id & named & ? & ? & Hnamed).
    exists name, id, named. split; [done|]. split; [done|].
    unfold tracks_named in *. by rewrite Ht3, Ht2. }
  rewrite Hagain in Hsecond. simpl in Hsecond.
  destruct (import_mogis d3 user2 now2 ∅ (ip_mogis payload)) as [[d4 idm']|]
    eqn:Hm'; simpl in Hsecond; [|done].
  destruct (import_races d4 idm' idt' (ip_races payload)) as [d5|] eqn:Hr';
    [|done].
  injection Hsecond as <-.
  destruct (import_mogis_keeps _ _ _ _ _ _ _ Hm') as [Hr4 Ht4].
  destruct (import_mogis_size _ _ _ _ _ _ _ Hm') as (Hs4 & _).
  destruct (import_races_keeps _ _ _ _ _ Hr') as [Ht5 _].
  destruct (import_races_size _ _ _ _ _ Hr') as [Hs5 Hm5].
  split; [congruence|]. split; [by rewrite Hm5|]. by rewrite Hs5, Hr4.
Qed.

Lemma import_data_again_tracks_witness :
  tracks (import_data zero_based_db 8 200 (Some zero_based_payload)).2
  = tracks zero_based_db
  ∧ size (mogis (import_data zero_based_db 8 200 (Some zero_based_payload)).2)
    = (size (mogis zero_based_db) + length (ip_mogis zero_based_payload))%nat
  ∧ size (races (import_data zero_based_db 8 200 (Some zero_based_payload)).2)
    = (size (races zero_based_db) + length (ip_races zero_based_payload))%nat.
Proof.
  apply (import_data_again_tracks empty_db 7 100 zero_based_payload
           zero_based_db 8 200); by vm_compute.
Defined.

(** ** The track of an added race *)

(** X30.  The race [add_race] stores is on the track named by the
    canonical form of the name sent, whatever that is: a name made of
    whitespace only passes the check of the request, and the race is then
    filed under the track with the empty name. *)
Theorem add_race_track d user now track position mogi idx d' :
  add_race d user now
    (Some {| ar_track := Some track; ar_position := Some position |})
  = (JsonOkRace mogi idx, d') →
  ∃ rk r t, races d !! rk = None ∧ races d' !! rk = Some r
    ∧ race_mogi r = mogi ∧ race_index r = idx
    ∧ tracks d' !! race_track r = Some t
    ∧ track_name t = canonicalize_track track
    ∧ (Forall (λ c, isspace c = true) track → track_name t = []).
Proof.
  intros Hadd.
  destruct (add_race_ok _ _ _ _ _ _ _ Hadd)
    as (track' & position' & d1 & d2 & trk & [= <- <-] & _ & _ & Hcur & _ & _
        & Htrk & Hrace).
  simpl in Htrk.
  assert (races d1 = races d) as Hr1.
  { apply _current_mogi_change in Hcur as [->|(_ & _ & ->)]; done. }
  pose proof (Track_get_or_create_races _ _ _ _ _ Htrk) as Hr2.
  apply Race_create_Some in Hrace as [-> _]. simpl.
  set (new := Race_save _).
  assert (race_mogi new = mogi ∧ race_index new = idx ∧ race_track new = trk)
    as (Hnm & Hni & Hnt).
  { unfold new, Race_save. by case_decide. }
  assert (∃ t, tracks d2 !! trk = Some t
               ∧ track_name t = canonicalize_track track) as (t & Ht & Hname).
  { unfold _get_or_create_track in Htrk.
    apply Track_get_or_create_row in Htrk
      as [[-> (row & Hrow & Hn)]|[_ ->]].
    - by exists row.
    - eexists. split; [apply lookup_insert_eq|]. unfold Track_save. simpl.
      apply canonicalize_track_fixed. }
  exists (next_pk (races d2)), new, t.
  split; [rewrite Hr2, Hr1; apply next_pk_fresh|].
  split; [apply lookup_insert_eq|]. rewrite Hnt.
  repeat split; try done.
  intros Hblank. rewrite Hname.
  destruct track as [|c track]; [done|]. unfold canonicalize_track.
  assert (normalize (c :: track) = []) as -> by (by apply normalize_nil).
  done.
Qed.

Lemma add_race_track_witness :
  ∃ rk r t, races two_race_db !! rk = None
    ∧ races (add_race two_race_db 7 400
               (Some {| ar_track := Some (Py.str "   ");
                        ar_position := Some 5 |})).2 !! rk = Some r
    ∧ race_mogi r = 1 ∧ race_index r = 3
    ∧ tracks (add_race two_race_db 7 400
                (Some {| ar_track := Some (Py.str "   ");
                         ar_position := Some 5 |})).2 !! race_track r = Some t
    ∧ track_name t = canonicalize_track (Py.str "   ")
    ∧ (Forall (λ c, isspace c = true) (Py.str "   ") → track_name t = []).
Proof.
  apply (add_race_track two_race_db 7 400 (Py.str "   ") 5 1 3). by vm_compute.
Defined.
